(** * Safe ramp and over-voltage guard of the MCPWM/LEDC stress test

    Shallow embedding of [MCPWM_Test_Temp.h] / [MCPWM_Test_Temp.cpp]
    (project #3, Motor_Test/MCPWM_Test_Temp).

    - C++ [float] is IEEE-754 binary32: [spec_float] of the standard
      library, every operation instantiated at precision 24 and maximal
      exponent 128 (round to nearest, ties to even).
    - The hardware is a world: a millisecond clock ([millis], advanced by
      [delay] and by nothing else), the sequence of samples the fault pin
      and the ADC deliver, and the trace of [coast()], [drive(pct)] and
      [delay(ms)] calls made so far.  The callables [drive] and [coast]
      the templates are instantiated with are these recorded calls; what
      [mcpwm_drive] and [ledc_drive] make of a duty is a function of the
      recorded argument.
    - Code that reads sensors, waits or commands the bridge lives in a
      small state-and-error monad [M].  The two errors are the ones a
      model of C++ needs: a loop that ran out of fuel, and a
      float-to-[int] conversion whose operand does not fit (undefined
      behaviour in C++).
    - The [label] parameters and the [Serial.printf] diagnostics are not
      modelled. *)

From Stdlib Require Import ZArith List Bool Lia.
From Stdlib Require Import Floats.SpecFloat.
Import ListNotations.

Local Open Scope Z_scope.

(* ================================================================== *)
(** ** Single-precision arithmetic *)
(* ================================================================== *)

Module F32.

Definition f32 := spec_float.

Definition prec : Z := 24.
Definition emax : Z := 128.

Definition add : f32 -> f32 -> f32 := SFadd prec emax.
Definition sub : f32 -> f32 -> f32 := SFsub prec emax.
Definition mul : f32 -> f32 -> f32 := SFmul prec emax.
Definition div : f32 -> f32 -> f32 := SFdiv prec emax.

(** [a < b], [a <= b], [a == b]; [a > b] is [ltb b a] and [a >= b] is
    [leb b a].  Every comparison with a NaN is false. *)
Definition ltb : f32 -> f32 -> bool := SFltb.
Definition leb : f32 -> f32 -> bool := SFleb.
Definition eqb : f32 -> f32 -> bool := SFeqb.

Definition is_nan (x : f32) : bool :=
  match x with S754_nan => true | _ => false end.

(** A well-formed binary32 datum. *)
Definition valid (x : f32) : bool := valid_binary prec emax x.

(** [static_cast<float>(n)] for an integer [n]. *)
Definition of_int (n : Z) : f32 := binary_normalize prec emax n 0 false.

(** A decimal literal [n/d] rounded to binary32. *)
Definition lit (n d : Z) : f32 := div (of_int n) (of_int d).

(** [fabsf]. *)
Definition fabsf : f32 -> f32 := SFabs.

(** [ceilf]: the least integral value not below the operand; zeros,
    infinities and NaN are returned unchanged, and a result that rounds
    up to zero keeps the operand's sign. *)
Definition ceilf (x : f32) : f32 :=
  match x with
  | S754_finite s m e =>
      if 0 <=? e then x
      else
        let c := - ((- cond_Zopp s (Zpos m)) / 2 ^ (- e)) in
        if c =? 0 then S754_zero s else binary_normalize prec emax c 0 s
  | _ => x
  end.

Definition INT_MIN : Z := - 2 ^ 31.
Definition INT_MAX : Z := 2 ^ 31 - 1.

(** The operand with its fractional part discarded. *)
Definition trunc (x : f32) : option Z :=
  match x with
  | S754_zero _ => Some 0
  | S754_finite s m e =>
      Some (cond_Zopp s (if 0 <=? e then Zpos m * 2 ^ e
                         else Zpos m / 2 ^ (- e)))
  | _ => None
  end.

(** [static_cast<int>(x)]: truncation toward zero.  C++ leaves the
    conversion undefined when the truncated value is not representable
    in [int] (and for infinities and NaN): [None]. *)
Definition to_int (x : f32) : option Z :=
  match trunc x with
  | Some v => if (INT_MIN <=? v) && (v <=? INT_MAX) then Some v else None
  | None => None
  end.

(** [lroundf]: nearest integer, halfway cases away from zero. *)
Definition lroundf (x : f32) : option Z :=
  match x with
  | S754_zero _ => Some 0
  | S754_finite s m e =>
      Some (cond_Zopp s (if 0 <=? e then Zpos m * 2 ^ e
                         else (2 * Zpos m + 2 ^ (- e)) / (2 * 2 ^ (- e))))
  | _ => None
  end.

End F32.

Import F32.

Declare Scope f32_scope.
Delimit Scope f32_scope with f32.
Bind Scope f32_scope with f32.
Infix "+" := F32.add : f32_scope.
Infix "-" := F32.sub : f32_scope.
Infix "*" := F32.mul : f32_scope.
Infix "/" := F32.div : f32_scope.
Infix "<?" := F32.ltb : f32_scope.
Infix "<=?" := F32.leb : f32_scope.

(* ================================================================== *)
(** ** Configuration constants *)
(* ================================================================== *)

(** The pin selection is what a build varies ("Set to -1 to disable",
    "set >=0 to enable"), so it is a record; [shipped] is the
    configuration of the repository. *)
Record Config := {
  FAULT_PIN : Z;              (* Fault/E-STOP input pin; -1 to disable *)
  FAULT_ACTIVE_LOW : bool;    (* Fault is active-low if true *)
  SUPPLY_ADC_PIN : Z;         (* ADC pin for VBUS; >= 0 to enable *)
  IDF_TARGET_ESP32S3 : bool   (* CONFIG_IDF_TARGET_ESP32S3 *)
}.

Definition shipped : Config :=
  {| FAULT_PIN := -1; FAULT_ACTIVE_LOW := true;
     SUPPLY_ADC_PIN := -1; IDF_TARGET_ESP32S3 := true |}.

Definition LEDC_BITS : Z := 10.

Definition WARMUP_MS : Z := 30000.
Definition STEP_BLOCK_MS : Z := 240000.
Definition STEP_HOLD_MS : Z := 500.
Definition BURST_BLOCK_MS : Z := 240000.
Definition BURST_ON_MS : Z := 320.
Definition BURST_COAST_MS : Z := 120.
Definition SOAK_MS : Z := 600000.
Definition GAP_MS : Z := 1200.

Definition f0 : f32 := S754_zero false.                       (* 0.0f *)
Definition f100 : f32 := Eval vm_compute in of_int 100.       (* 100.0f *)
Definition fm1 : f32 := Eval vm_compute in of_int (-1).       (* -1.0f *)
Definition f1000 : f32 := Eval vm_compute in of_int 1000.     (* 1000.0f *)
Definition f4095 : f32 := Eval vm_compute in of_int 4095.     (* 4095.0f *)
Definition f1100 : f32 := Eval vm_compute in of_int 1100.     (* 1100.0f *)

Definition WARMUP_DUTY : f32 := Eval vm_compute in of_int 42.
Definition STEP_LOW : f32 := Eval vm_compute in of_int 35.
Definition STEP_HIGH : f32 := Eval vm_compute in of_int 75.
Definition BURST_DUTY : f32 := Eval vm_compute in of_int 88.
Definition SOAK_DUTY : f32 := Eval vm_compute in of_int 68.

Definition MAX_SLEW_STEP_PCT : f32 := Eval vm_compute in of_int 3.
Definition SLEW_STEP_MS : Z := 18.
Definition COAST_BEFORE_JUMP_PCT : f32 := Eval vm_compute in of_int 12.
Definition COAST_BEFORE_JUMP_MS : Z := 90.
Definition COAST_AFTER_JUMP_MS : Z := 60.

Definition MIN_EFFECTIVE_LEDC : f32 := f0.

Definition VDIV_RATIO : f32 := Eval vm_compute in of_int 11.
Definition VBUS_OV_LIMIT_VOLTS : f32 := Eval vm_compute in of_int 28.
Definition VBUS_CLEAR_HYS_VOLTS : f32 := Eval vm_compute in lit 53 2.

(** The guard polls for at most [OV_WAIT_MS] in steps of [OV_POLL_MS]
    (the literals [3000U] and [10] of [guardOverVoltage]). *)
Definition OV_WAIT_MS : Z := 3000.
Definition OV_POLL_MS : Z := 10.

(* ================================================================== *)
(** ** Pure helpers *)
(* ================================================================== *)

(** [(p < 0.0f) ? 0.0f : ((p > 100.0f) ? 100.0f : p)] *)
Definition clampPct (p : f32) : f32 :=
  if (p <? f0)%f32 then f0 else if (f100 <? p)%f32 then f100 else p.

(** [lroundf(clampPct(pct) * 1023 / 100)] *)
Definition pctToDuty10 (pct : f32) : option Z :=
  let pct := clampPct pct in
  lroundf (pct * of_int (2 ^ LEDC_BITS - 1) / f100)%f32.

(* ================================================================== *)
(** ** The world and the command monad *)
(* ================================================================== *)

(** What the bridge is told to do, in program order. *)
Inductive event :=
| Coast                (* coast() *)
| Drive (pct : f32)    (* drive(pct) *)
| Delay (ms : Z).      (* delay(ms) *)

(** The signals the board samples: the level of the fault pin at its
    k-th [digitalRead] ([true] is HIGH), and the value the ADC returns at
    its k-th conversion ([analogRead] counts, or millivolts from
    [analogReadMilliVolts] on the ESP32-S3). *)
Record Signals := {
  pin_level : nat -> bool;
  adc_sample : nat -> Z
}.

Record World := {
  now : Z;              (* millis() *)
  pin_reads : nat;      (* digitalRead calls so far *)
  adc_reads : nat;      (* ADC conversions so far *)
  trace : list event    (* commands so far, oldest first *)
}.

Inductive result (A : Type) :=
| Ok (a : A) (w : World)
| OutOfFuel
| Undefined.
Arguments Ok {A} a w.
Arguments OutOfFuel {A}.
Arguments Undefined {A}.

Definition M (A : Type) : Type := World -> result A.

Definition ret {A} (a : A) : M A := fun w => Ok a w.

Definition bind {A B} (c : M A) (k : A -> M B) : M B :=
  fun w => match c w with
           | Ok a w' => k a w'
           | OutOfFuel => OutOfFuel
           | Undefined => Undefined
           end.

Definition out_of_fuel {A} : M A := fun _ => OutOfFuel.
Definition undefined {A} : M A := fun _ => Undefined.

Declare Scope cmd_scope.
Delimit Scope cmd_scope with cmd.
Notation "x <- c ;; k" := (bind c (fun x => k))
  (at level 100, c at next level, right associativity) : cmd_scope.
Notation "c ;; k" := (bind c (fun _ => k))
  (at level 100, right associativity) : cmd_scope.
Local Open Scope cmd_scope.

(** [uint32_t] wrap-around. *)
Definition u32 (z : Z) : Z := z mod 2 ^ 32.

(** [int] wrap-around (two's complement). *)
Definition s32 (z : Z) : Z := (z + 2 ^ 31) mod 2 ^ 32 - 2 ^ 31.

Definition emit (e : event) : M unit := fun w =>
  Ok tt {| now := now w; pin_reads := pin_reads w;
           adc_reads := adc_reads w; trace := trace w ++ [e] |}.

Definition millis : M Z := fun w => Ok (now w) w.

Definition delay (ms : Z) : M unit := fun w =>
  Ok tt {| now := u32 (now w + ms); pin_reads := pin_reads w;
           adc_reads := adc_reads w; trace := trace w ++ [Delay ms] |}.

Definition coast : M unit := emit Coast.
Definition drive (pct : f32) : M unit := emit (Drive pct).

(** [while (millis() - t0 < limit) { body }] where the body may [break]:
    it returns [true] to leave the loop. *)
Fixpoint while_elapsed {St : Type} (fuel : nat) (t0 limit : Z)
    (body : St -> M (bool * St)) (s : St) : M St :=
  match fuel with
  | O => out_of_fuel
  | S fuel' =>
      t <- millis ;;
      if u32 (t - t0) <? limit then
        r <- body s ;;
        if fst r then ret (snd r)
        else while_elapsed fuel' t0 limit body (snd r)
      else ret s
  end.

(* ================================================================== *)
(** ** Safety guard and safe ramp *)
(* ================================================================== *)

(** The condition that arms the guard: [vb >= 0.0f && vb > LIMIT]. *)
Definition ov_trip (vb : f32) : bool :=
  (f0 <=? vb)%f32 && (VBUS_OV_LIMIT_VOLTS <? vb)%f32.

(** The condition that ends the wait: [vb >= 0.0f && vb < CLEAR]. *)
Definition ov_clear (vb : f32) : bool :=
  (f0 <=? vb)%f32 && (vb <? VBUS_CLEAR_HYS_VOLTS)%f32.

(** [static_cast<int>(ceilf(fabsf(delta) / MAX_SLEW_STEP_PCT))], raised
    to 1 when below. *)
Definition ramp_steps (delta : f32) : option Z :=
  match to_int (ceilf (fabsf delta / MAX_SLEW_STEP_PCT)%f32) with
  | Some n => Some (if n <? 1 then 1 else n)
  | None => None
  end.

(** [fabsf(delta) >= COAST_BEFORE_JUMP_PCT] *)
Definition is_jump (delta : f32) : bool :=
  (COAST_BEFORE_JUMP_PCT <=? fabsf delta)%f32.

(** Passes of [OV_POLL_MS] each that fit in [OV_WAIT_MS], and one more
    evaluation of the loop condition. *)
Definition OV_WAIT_FUEL : nat := 301.

Section Board.

Variable cfg : Config.
Variable sig : Signals.

(** [digitalRead(FAULT_PIN)]; [true] is HIGH. *)
Definition digitalRead : M bool := fun w =>
  Ok (pin_level sig (pin_reads w))
     {| now := now w; pin_reads := S (pin_reads w);
        adc_reads := adc_reads w; trace := trace w |}.

(** [analogRead] / [analogReadMilliVolts] on [SUPPLY_ADC_PIN]. *)
Definition adcRead : M Z := fun w =>
  Ok (adc_sample sig (adc_reads w))
     {| now := now w; pin_reads := pin_reads w;
        adc_reads := S (adc_reads w); trace := trace w |}.

(** The bus voltage an ADC sample stands for. *)
Definition volts_of_sample (z : Z) : f32 :=
  if IDF_TARGET_ESP32S3 cfg then
    let mv := u32 z in
    ((of_int mv / f1000) * VDIV_RATIO)%f32
  else
    let raw := s32 z in
    let mv := ((of_int raw / f4095) * f1100)%f32 in
    ((mv / f1000) * VDIV_RATIO)%f32.

Definition readVbusVolts : M f32 :=
  if SUPPLY_ADC_PIN cfg <? 0 then ret fm1
  else z <- adcRead ;; ret (volts_of_sample z).

Definition faultActive : M bool :=
  if FAULT_PIN cfg <? 0 then ret false
  else
    v <- digitalRead ;;
    ret (if FAULT_ACTIVE_LOW cfg then negb v else v).

(** One pass of the wait loop of [guardOverVoltage]. *)
Definition ov_wait_body (_ : f32) : M (bool * f32) :=
  vb <- readVbusVolts ;;
  if ov_clear vb then ret (true, vb)
  else delay OV_POLL_MS ;; ret (false, vb).

(** Returns whether it tripped, and the last voltage it read (the
    source prints it). *)
Definition guardOverVoltage_vb : M (bool * f32) :=
  if SUPPLY_ADC_PIN cfg <? 0 then ret (false, fm1)
  else
    vb <- readVbusVolts ;;
    if ov_trip vb then
      coast ;;
      t0 <- millis ;;
      vb' <- while_elapsed OV_WAIT_FUEL t0 OV_WAIT_MS ov_wait_body vb ;;
      ret (true, vb')
    else ret (false, vb).

Definition guardOverVoltage : M bool :=
  r <- guardOverVoltage_vb ;; ret (fst r).

(** The [for] loop of [safeRampTo] with [n] iterations to go.  The
    flag is [true] when the loop was left by a [return]. *)
Fixpoint ramp_loop (n : nat) (stepSize lastPct : f32) : M (bool * f32) :=
  match n with
  | O => ret (false, lastPct)
  | S n' =>
      let lastPct := (lastPct + stepSize)%f32 in
      f <- faultActive ;;
      if f then coast ;; ret (true, lastPct)
      else
        ov <- guardOverVoltage ;;
        if ov then ret (true, f0)
        else
          drive lastPct ;;
          delay SLEW_STEP_MS ;;
          ramp_loop n' stepSize lastPct
  end.

(** [safeRampTo(label, drive, coast, lastPct, targetPct)]; the
    reference parameter [lastPct] is passed in and returned. *)
Definition safeRampTo (lastPct targetPct : f32) : M f32 :=
  let targetPct := clampPct targetPct in
  let delta := (targetPct - lastPct)%f32 in
  f <- faultActive ;;
  if f then coast ;; ret lastPct
  else
    ov <- guardOverVoltage ;;
    if ov then ret f0
    else
      (if is_jump delta
       then coast ;; delay COAST_BEFORE_JUMP_MS
       else ret tt) ;;
      match ramp_steps delta with
      | None => undefined
      | Some steps =>
          let stepSize := (delta / of_int steps)%f32 in
          r <- ramp_loop (Z.to_nat steps) stepSize lastPct ;;
          if fst r then ret (snd r)
          else
            (if is_jump delta
             then coast ;; delay COAST_AFTER_JUMP_MS
             else ret tt) ;;
            ret (snd r)
      end.

(* ---------------------------------------------------------------- *)
(** *** Stress routines *)

(** Body of the loop of [do_warmup]. *)
Definition warmup_body (lastPct : f32) : M (bool * f32) :=
  lastPct <- safeRampTo lastPct WARMUP_DUTY ;;
  f <- faultActive ;;
  if f then coast ;; ret (true, lastPct)
  else delay 10 ;; ret (false, lastPct).

Definition do_warmup (fuel : nat) (lastPct : f32) : M f32 :=
  t0 <- millis ;;
  lastPct <- while_elapsed fuel t0 WARMUP_MS warmup_body lastPct ;;
  coast ;;
  delay BURST_COAST_MS ;;
  ret lastPct.

(** Body of the loop of [do_step_load]; the state is [(hi, lastPct)]. *)
Definition step_load_body (s : bool * f32) : M (bool * (bool * f32)) :=
  let hi := fst s in
  lastPct <- safeRampTo (snd s) (if hi then STEP_HIGH else STEP_LOW) ;;
  f <- faultActive ;;
  if f then coast ;; ret (true, (hi, lastPct))
  else delay STEP_HOLD_MS ;; ret (false, (negb hi, lastPct)).

Definition do_step_load (fuel : nat) (lastPct : f32) : M f32 :=
  t0 <- millis ;;
  s <- while_elapsed fuel t0 STEP_BLOCK_MS step_load_body (false, lastPct) ;;
  coast ;;
  delay BURST_COAST_MS ;;
  ret (snd s).

(** Body of the loop of [do_bursts]. *)
Definition bursts_body (lastPct : f32) : M (bool * f32) :=
  coast ;;
  delay BURST_COAST_MS ;;
  lastPct <- safeRampTo lastPct BURST_DUTY ;;
  f <- faultActive ;;
  if f then coast ;; ret (true, lastPct)
  else delay BURST_ON_MS ;; ret (false, lastPct).

Definition do_bursts (fuel : nat) (lastPct : f32) : M f32 :=
  t0 <- millis ;;
  lastPct <- while_elapsed fuel t0 BURST_BLOCK_MS bursts_body lastPct ;;
  coast ;;
  delay BURST_COAST_MS ;;
  ret lastPct.

(** Body of the loop of [do_soak]. *)
Definition soak_body (lastPct : f32) : M (bool * f32) :=
  lastPct <- safeRampTo lastPct SOAK_DUTY ;;
  f <- faultActive ;;
  if f then coast ;; ret (true, lastPct)
  else delay 20 ;; ret (false, lastPct).

Definition do_soak (fuel : nat) (lastPct : f32) : M f32 :=
  t0 <- millis ;;
  lastPct <- while_elapsed fuel t0 SOAK_MS soak_body lastPct ;;
  coast ;;
  delay GAP_MS ;;
  ret lastPct.

End Board.

(* ================================================================== *)
(** ** Backends *)
(* ================================================================== *)

(** What [mcpwm_drive(pct)] hands to [Motor::setSpeedPercent]. *)
Definition mcpwm_drive (pct : f32) : f32 := clampPct pct.

(** The percentage [ledc_drive(pct)] converts to an LEDC duty. *)
Definition ledc_drive_pct (pct : f32) : f32 :=
  let pct := clampPct pct in
  if (pct <? MIN_EFFECTIVE_LEDC)%f32 then MIN_EFFECTIVE_LEDC else pct.

(** The duty [ledc_drive(pct)] writes with [ledcWrite]. *)
Definition ledc_drive (pct : f32) : option Z := pctToDuty10 (ledc_drive_pct pct).

(* ================================================================== *)
(** ** Observations on traces *)
(* ================================================================== *)

(** The arguments of the [drive()] calls of a trace, in order. *)
Fixpoint drive_calls (evs : list event) : list f32 :=
  match evs with
  | [] => []
  | Drive x :: evs' => x :: drive_calls evs'
  | _ :: evs' => drive_calls evs'
  end.

(** The number of [coast()] calls of a trace. *)
Fixpoint coast_calls (evs : list event) : nat :=
  match evs with
  | [] => O
  | Coast :: evs' => S (coast_calls evs')
  | _ :: evs' => coast_calls evs'
  end.

(** The clock after the delays of a trace. *)
Fixpoint advance (evs : list event) (t : Z) : Z :=
  match evs with
  | [] => t
  | Delay ms :: evs' => advance evs' (u32 (t + ms))
  | _ :: evs' => advance evs' t
  end.

(** The steps of an uninterrupted [for] loop of [safeRampTo]. *)
Fixpoint ramp_events (n : nat) (stepSize lastPct : f32) : list event :=
  match n with
  | O => []
  | S n' =>
      let lastPct := (lastPct + stepSize)%f32 in
      Drive lastPct :: Delay SLEW_STEP_MS :: ramp_events n' stepSize lastPct
  end.

(** [lastPct] after [n] steps. *)
Fixpoint ramp_final (n : nat) (stepSize lastPct : f32) : f32 :=
  match n with
  | O => lastPct
  | S n' => ramp_final n' stepSize (lastPct + stepSize)%f32
  end.

Definition bracket_before (delta : f32) : list event :=
  if is_jump delta then [Coast; Delay COAST_BEFORE_JUMP_MS] else [].

Definition bracket_after (delta : f32) : list event :=
  if is_jump delta then [Coast; Delay COAST_AFTER_JUMP_MS] else [].

(** Whether the fault input is active at its k-th sample. *)
Definition fault_at (cfg : Config) (sig : Signals) (k : nat) : bool :=
  negb (FAULT_PIN cfg <? 0) &&
  (if FAULT_ACTIVE_LOW cfg then negb (pin_level sig k) else pin_level sig k).

(** The bus voltage of the k-th ADC sample. *)
Definition vbus_at (cfg : Config) (sig : Signals) (k : nat) : f32 :=
  volts_of_sample cfg (adc_sample sig k).

(** Whether the guard trips on the k-th ADC sample. *)
Definition trip_at (cfg : Config) (sig : Signals) (k : nat) : bool :=
  negb (SUPPLY_ADC_PIN cfg <? 0) && ov_trip (vbus_at cfg sig k).

(** The k-th interlock check from world [w] on finds neither a fault
    nor an over-voltage (as long as the earlier ones did not either,
    each check takes one sample of each enabled input). *)
Definition quiet_check (cfg : Config) (sig : Signals) (w : World) (k : nat) : bool :=
  negb (fault_at cfg sig (pin_reads w + k)) &&
  negb (trip_at cfg sig (adc_reads w + k)).

(** The next [n] interlock checks are quiet. *)
Definition quiet (cfg : Config) (sig : Signals) (w : World) (n : nat) : bool :=
  forallb (quiet_check cfg sig w) (seq 0 n).

(** The world after [kp] fault checks, [ka] guard checks that did not
    trip, and the commands [evs]. *)
Definition after (cfg : Config) (w : World) (kp ka : nat) (evs : list event) : World :=
  {| now := advance evs (now w);
     pin_reads := if FAULT_PIN cfg <? 0 then pin_reads w else (pin_reads w + kp)%nat;
     adc_reads := if SUPPLY_ADC_PIN cfg <? 0 then adc_reads w else (adc_reads w + ka)%nat;
     trace := trace w ++ evs |}.

(** What a tripped guard did between [w] (the world in which it took
    the sample that tripped it) and [w']: it coasted, then made [k] polls
    that did not clear, [OV_POLL_MS] apart; it stopped either because
    [OV_WAIT_MS] had passed or on a further sample [vb'] that cleared. *)
Definition waited (cfg : Config) (sig : Signals)
    (w : World) (k : nat) (vb' : f32) (w' : World) : Prop :=
  pin_reads w' = pin_reads w /\
  trace w' = trace w ++ Coast :: repeat (Delay OV_POLL_MS) k /\
  u32 (now w' - now w) = OV_POLL_MS * Z.of_nat k /\
  (forall i, (i < k)%nat ->
     ov_clear (vbus_at cfg sig (S (adc_reads w) + i)) = false) /\
  ((OV_POLL_MS * Z.of_nat k = OV_WAIT_MS /\
    adc_reads w' = (S (adc_reads w) + k)%nat)
   \/
   (OV_POLL_MS * Z.of_nat k < OV_WAIT_MS /\
    adc_reads w' = S (S (adc_reads w) + k) /\
    vb' = vbus_at cfg sig (S (adc_reads w) + k) /\
    ov_clear vb' = true)).

Definition w0 : World :=
  {| now := 0; pin_reads := 0; adc_reads := 0; trace := [] |}.

(* ------------------------------------------------------------------ *)
(** *** Boards and signals used as examples *)

(** Both interlocks wired, ESP32-S3 ADC path (samples are millivolts). *)
Definition armed : Config :=
  {| FAULT_PIN := 4; FAULT_ACTIVE_LOW := true;
     SUPPLY_ADC_PIN := 1; IDF_TARGET_ESP32S3 := true |}.

(** Both interlocks wired, generic ADC path (samples are raw counts). *)
Definition armed_raw : Config :=
  {| FAULT_PIN := 4; FAULT_ACTIVE_LOW := true;
     SUPPLY_ADC_PIN := 1; IDF_TARGET_ESP32S3 := false |}.

(** Signals on which nothing happens: fault pin high, bus at 0 V. *)
Definition idle : Signals :=
  {| pin_level := fun _ => true; adc_sample := fun _ => 0 |}.

(** The fault pin goes low at its [k0]-th sample and stays low. *)
Definition fault_from (k0 : nat) : Signals :=
  {| pin_level := fun k => (k <? k0)%nat; adc_sample := fun _ => 0 |}.

(** The bus reads [first] at the [k0]-th ADC sample, [rest] afterwards
    and 0 before. *)
Definition bus (k0 : nat) (first rest : Z) : Signals :=
  {| pin_level := fun _ => true;
     adc_sample := fun k => if (k <? k0)%nat then 0
                            else if (k =? k0)%nat then first else rest |}.

(** The bus reads [first], then [mid] for [j] samples, then [last]. *)
Definition bus3 (j : nat) (first mid last : Z) : Signals :=
  {| pin_level := fun _ => true;
     adc_sample := fun k => if (k =? 0)%nat then first
                            else if (k <=? j)%nat then mid else last |}.

(* ================================================================== *)
(** ** Shapes of binary32 values *)
(* ================================================================== *)

(** The exponent of the last place of a binary32 number below [2^k]. *)
Definition fexp32 (k : Z) : Z := Z.max (k - 24) (-149).

(** [x] is a zero or a finite number of sign [s] below [2^K]. *)
Definition small (K : Z) (s : bool) (x : f32) : Prop :=
  match x with
  | S754_zero s' => s' = s
  | S754_finite s' m e => s' = s /\ Zpos (digits2_pos m) + e <= K
  | _ => False
  end.

(** A well-formed value of [0, 100]: a zero, or a positive number below
    [2^7] whose exponent is at most that of [100.0f]. *)
Definition pct_shape (x : f32) : Prop :=
  match x with
  | S754_zero _ => True
  | S754_finite s m e => s = false /\ Zpos (digits2_pos m) + e <= 7 /\ e <= -17
  | _ => False
  end.

(** [static_cast<float>] is exact on the step counts that occur, and
    [static_cast<int>] gives them back. *)
Definition step_count_ok (c : Z) : bool :=
  match of_int c with
  | S754_finite false _ _ =>
      match to_int (of_int c) with Some v => v =? c | None => false end
  | _ => false
  end.

(** Adding [s] to [x] will not produce a NaN: neither is one, and they
    are not infinities of opposite signs. *)
Definition summable (s x : f32) : Prop :=
  match x, s with
  | S754_nan, _ | _, S754_nan => False
  | S754_infinity b, S754_infinity b' => b = b'
  | _, _ => True
  end.

(** The rounding tolerance of the ramps between whole-number duties:
    [2^-14]. *)
Definition ROUNDING_TOL : f32 := Eval vm_compute in lit 1 16384.

(** [|x - t| <= ROUNDING_TOL] *)
Definition near (x t : f32) : bool := (fabsf (x - t) <=? ROUNDING_TOL)%f32.

Definition RANGE_LO : f32 := Eval vm_compute in (f0 - ROUNDING_TOL)%f32.
Definition RANGE_HI : f32 := Eval vm_compute in (f100 + ROUNDING_TOL)%f32.

(** [-ROUNDING_TOL <= x <= 100 + ROUNDING_TOL] *)
Definition near_range (x : f32) : bool :=
  (RANGE_LO <=? x)%f32 && (x <=? RANGE_HI)%f32.

(** The uninterrupted ramp from [l] percent to [t] percent: every duty
    it drives is within the tolerance of [0, 100] and the last one is
    within the tolerance of the target. *)
Definition grid_ramp_ok (l t : nat) : bool :=
  let L := of_int (Z.of_nat l) in
  let T := clampPct (of_int (Z.of_nat t)) in
  let delta := (T - L)%f32 in
  match ramp_steps delta with
  | Some n =>
      let vals := drive_calls (ramp_events (Z.to_nat n) (delta / of_int n)%f32 L) in
      near_range L && forallb near_range vals && near (last vals L) T
  | None => false
  end.

(* ================================================================== *)
(** ** Bounds on binary32 values *)
(* ================================================================== *)

(** [x] is a zero or a positive number of at most 24 digits that is not
    above the positive binary32 number [M * 2^E]. *)
Definition below (M : positive) (E : Z) (x : f32) : Prop :=
  match x with
  | S754_zero _ => True
  | S754_finite s p e =>
      s = false /\ Zpos (digits2_pos p) <= 24 /\
      (e < E \/ (e = E /\ Zpos p <= Zpos M))
  | _ => False
  end.

(** [x] is [+infinity] or a positive number of 24 digits that is not
    below the positive binary32 number [M * 2^E]. *)
Definition above (M : positive) (E : Z) (x : f32) : Prop :=
  match x with
  | S754_infinity s => s = false
  | S754_finite s p e =>
      s = false /\ Zpos (digits2_pos p) = 24 /\
      (E < e \/ (e = E /\ Zpos M <= Zpos p))
  | _ => False
  end.

(** A mantissa of at most 24 digits, when there is one. *)
Definition digits_ok (x : f32) : Prop :=
  match x with
  | S754_finite _ p _ => Zpos (digits2_pos p) <= 24
  | _ => True
  end.

(** A number that is not negative: a zero, a positive number or
    [+infinity]. *)
Definition nonneg (x : f32) : Prop :=
  match x with
  | S754_zero _ => True
  | S754_finite s _ _ => s = false
  | S754_infinity s => s = false
  | S754_nan => False
  end.

(** The step computation of [safeRampTo] between the whole-number
    duties [l] and [t]: the change is bracketed exactly when
    [|t - l| >= 12], the step count is [max(1, ceil(|t - l| / 3))], as
    in exact arithmetic, and the step is at most [MAX_SLEW_STEP_PCT] in
    magnitude. *)
Definition grid_slew_ok (l t : nat) : bool :=
  let L := of_int (Z.of_nat l) in
  let delta := (clampPct (of_int (Z.of_nat t)) - L)%f32 in
  Bool.eqb (is_jump delta) (12 <=? Z.abs (Z.of_nat t - Z.of_nat l)) &&
  match ramp_steps delta with
  | Some n =>
      (n =? Z.max 1 ((Z.abs (Z.of_nat t - Z.of_nat l) + 2) / 3)) &&
      (fabsf (delta / of_int n) <=? MAX_SLEW_STEP_PCT)%f32
  | None => false
  end.

(** [pctToDuty10] at the whole-number percentage [p] is the exact
    [p * 1023 / 100] rounded to nearest, halves up. *)
Definition duty_exact (p : nat) : bool :=
  match pctToDuty10 (of_int (Z.of_nat p)) with
  | Some d => d =? (2046 * Z.of_nat p + 100) / 200
  | None => false
  end.

(* ================================================================== *)
(** ** The bench cycle of [main.cpp] *)
(* ================================================================== *)

(** The time a trace spends in [delay()], in milliseconds. *)
Fixpoint busy (evs : list event) : Z :=
  match evs with
  | [] => 0
  | Delay ms :: evs' => ms + busy evs'
  | _ :: evs' => busy evs'
  end.

(** The four stress routines of one backend, in the order of [loop()];
    they share one LastCommandedDuty. *)
Definition run_phases (cfg : Config) (sig : Signals) (fuel : nat)
    (lastPct : f32) : M f32 :=
  lastPct <- do_warmup cfg sig fuel lastPct ;;
  lastPct <- do_step_load cfg sig fuel lastPct ;;
  lastPct <- do_bursts cfg sig fuel lastPct ;;
  do_soak cfg sig fuel lastPct.

(** What [mcpwm_end_phase()] and [ledc_end_phase()] command and wait:
    they coast, release the pins and [delay(50)]. *)
Definition end_phase : M unit := coast ;; delay 50.

(** The cool-down after each backend: [delay(300000)]. *)
Definition COOLDOWN_MS : Z := 300000.

(** [loop()]; the state is [(mcpwmLastPct, ledcLastPct)].
    [mcpwm_begin_phase()] and [ledc_begin_phase()] neither command the
    bridge nor wait. *)
Definition loop (cfg : Config) (sig : Signals) (fuel : nat)
    (st : f32 * f32) : M (f32 * f32) :=
  m <- run_phases cfg sig fuel (fst st) ;;
  end_phase ;;
  delay COOLDOWN_MS ;;
  l <- run_phases cfg sig fuel (snd st) ;;
  end_phase ;;
  delay COOLDOWN_MS ;;
  ret (m, l).

(** What a stress routine leaves in the trace when the fault input is
    active at its first two samples: the [coast()] of [safeRampTo], the
    [coast()] before the [break], and the closing [coast()] and gap. *)
Definition stopped (gap : Z) : list event := [Coast; Coast; Coast; Delay gap].

(** The same for [do_bursts], whose pass begins with a coast gap. *)
Definition stopped_bursts : list event :=
  [Coast; Delay BURST_COAST_MS; Coast; Coast; Coast; Delay BURST_COAST_MS].

(** One backend's share of [loop()] under a held fault. *)
Definition stopped_backend : list event :=
  stopped BURST_COAST_MS ++ stopped BURST_COAST_MS ++ stopped_bursts
  ++ stopped GAP_MS ++ [Coast; Delay 50; Delay COOLDOWN_MS].

(* ================================================================== *)
(** ** Pins and peripherals of the backends *)
(* ================================================================== *)

Definition RPWM_PIN : Z := 37.
Definition LPWM_PIN : Z := 38.
Definition EN_PIN : Z := 39.
Definition PWM_FREQ_HZ : Z := 20000.

(** The LEDC channel of RPWM. *)
Definition LEDC_CH_RPWM : Z := 0.

Inductive pin_mode := INPUT | OUTPUT.
Inductive level := LOW | HIGH.
Inductive mcpwm_io := MCPWM0A | MCPWM0B.

(** What [mcpwm_begin_phase] hands to [Motor::setup]: the fields of
    [MotorMCPWMConfig] and [MotorBehaviorConfig] it sets to numbers and
    booleans (the unit, timer, signal, counter and freewheel
    enumerations are left out). *)
Record MotorConfig := {
  lpwm_pin : Z;
  rpwm_pin : Z;
  en_pin : Z;
  pwm_freq_hz : Z;
  input_max : Z;
  use_deadtime : bool;
  soft_brake_hz : Z;
  dither_pwm : Z;
  default_soft : Z;
  min_phase_us : Z;
  dither_coast_hi_z : bool
}.

(** A call into the Arduino core, the MCPWM driver or the motor
    library, as the backends make them. *)
Inductive call :=
| Mcpwm_gpio_init (io : mcpwm_io) (pin : Z)
| Motor_setup (c : MotorConfig)
| Motor_start
| Motor_setSpeedPercent (pct : f32)      (* direction Dir::CCW *)
| Motor_applyFreewheel                   (* FreewheelMode::HiZ *)
| PinMode (pin : Z) (m : pin_mode)
| DigitalWrite (pin : Z) (v : level)
| LedcSetup (ch freq bits : Z)
| LedcAttachPin (pin ch : Z)
| LedcWrite (ch duty : Z)
| LedcDetachPin (pin : Z)
| DelayMs (ms : Z).

(** The backends as the calls they make.  Outside this module
    [mcpwm_drive] and [ledc_drive] are the duty functions defined
    above. *)
Module Backend.

(** The calls guarded by [if (EN_PIN >= 0)]. *)
Definition if_en (cs : list call) : list call :=
  if 0 <=? EN_PIN then cs else [].

Definition motor_config : MotorConfig :=
  {| lpwm_pin := LPWM_PIN; rpwm_pin := RPWM_PIN; en_pin := EN_PIN;
     pwm_freq_hz := PWM_FREQ_HZ; input_max := Z.shiftl 1 LEDC_BITS - 1;
     use_deadtime := false; soft_brake_hz := 300; dither_pwm := 0;
     default_soft := 0; min_phase_us := 1000; dither_coast_hi_z := true |}.

(** [mcpwm_begin_phase()]; the argument and the first component of the
    result are the flag [mcpwmInited] before and after. *)
Definition mcpwm_begin_phase (mcpwmInited : bool) : bool * list call :=
  (true,
   (if mcpwmInited then []
    else [Mcpwm_gpio_init MCPWM0A LPWM_PIN;
          Mcpwm_gpio_init MCPWM0B RPWM_PIN;
          Motor_setup motor_config])
   ++ [Mcpwm_gpio_init MCPWM0A LPWM_PIN; Mcpwm_gpio_init MCPWM0B RPWM_PIN]
   ++ if_en [PinMode EN_PIN OUTPUT; DigitalWrite EN_PIN HIGH]
   ++ [Motor_start]).

Definition mcpwm_drive (pct : f32) : list call :=
  [Motor_setSpeedPercent (clampPct pct)].

Definition mcpwm_coast : list call := [Motor_applyFreewheel].

Definition mcpwm_end_phase : list call :=
  mcpwm_coast
  ++ if_en [DigitalWrite EN_PIN LOW]
  ++ [PinMode RPWM_PIN INPUT; PinMode LPWM_PIN INPUT]
  ++ if_en [PinMode EN_PIN INPUT]
  ++ [DelayMs 50].

Definition ledc_begin_phase : list call :=
  [PinMode LPWM_PIN OUTPUT; DigitalWrite LPWM_PIN LOW;
   LedcSetup LEDC_CH_RPWM PWM_FREQ_HZ LEDC_BITS;
   LedcAttachPin RPWM_PIN LEDC_CH_RPWM;
   LedcWrite LEDC_CH_RPWM 0]
  ++ if_en [PinMode EN_PIN OUTPUT; DigitalWrite EN_PIN HIGH].

(** [ledc_drive(pct)]; [None] when the conversion of the duty is
    undefined (the duty written is that of the function [ledc_drive]
    defined above). *)
Definition ledc_drive (pct : f32) : option (list call) :=
  match ledc_drive pct with
  | Some duty =>
      Some ([LedcWrite LEDC_CH_RPWM duty]
            ++ if_en [DigitalWrite EN_PIN HIGH]
            ++ [DigitalWrite LPWM_PIN LOW])
  | None => None
  end.

Definition ledc_coast : list call :=
  [LedcWrite LEDC_CH_RPWM 0]
  ++ if_en [DigitalWrite EN_PIN LOW]
  ++ [DigitalWrite LPWM_PIN LOW].

Definition ledc_end_phase : list call :=
  ledc_coast
  ++ [LedcDetachPin RPWM_PIN; PinMode RPWM_PIN INPUT; PinMode LPWM_PIN INPUT]
  ++ if_en [PinMode EN_PIN INPUT]
  ++ [DelayMs 50].

(** The calls the LEDC backend makes for the commands of a trace: the
    templates are instantiated with [ledc_drive] and [ledc_coast]. *)
Fixpoint ledc_calls (evs : list event) : option (list call) :=
  match evs with
  | [] => Some []
  | e :: evs' =>
      match (match e with
             | Coast => Some ledc_coast
             | Drive pct => ledc_drive pct
             | Delay ms => Some [DelayMs ms]
             end), ledc_calls evs' with
      | Some cs, Some cs' => Some (cs ++ cs')
      | _, _ => None
      end
  end.

(** The calls of one pass of [loop()]: [mcpwm_body] and [ledc_body]
    are the calls the stress routines make through the backend's
    [drive] and [coast] in the MCPWM and in the LEDC phase; the
    argument and the first component of the result are [mcpwmInited]
    before and after. *)
Definition loop (mcpwmInited : bool) (mcpwm_body ledc_body : list call)
    : bool * list call :=
  let b := mcpwm_begin_phase mcpwmInited in
  (fst b,
   snd b ++ mcpwm_body ++ mcpwm_end_phase ++ [DelayMs 300000]
   ++ ledc_begin_phase ++ ledc_body ++ ledc_end_phase ++ [DelayMs 300000]).

(** [loop()] pass after pass, as the Arduino core calls it. *)
Fixpoint loops (mcpwmInited : bool) (bodies : list (list call * list call))
    : bool * list call :=
  match bodies with
  | [] => (mcpwmInited, [])
  | body :: rest =>
      let p := loop mcpwmInited (fst body) (snd body) in
      let r := loops (fst p) rest in
      (fst r, snd p ++ snd r)
  end.

End Backend.

(** The pins and the LEDC channels, as the calls leave them. *)
Record Pins := {
  mode : Z -> option pin_mode;      (* last pinMode of a pin *)
  out : Z -> option level;          (* last digitalWrite of a pin *)
  ledc_duty : Z -> option Z         (* last ledcWrite of a channel *)
}.

Definition upd {A} (f : Z -> option A) (k : Z) (v : A) : Z -> option A :=
  fun k' => if k' =? k then Some v else f k'.

Definition apply_call (p : Pins) (c : call) : Pins :=
  match c with
  | PinMode pin m =>
      {| mode := upd (mode p) pin m; out := out p; ledc_duty := ledc_duty p |}
  | DigitalWrite pin v =>
      {| mode := mode p; out := upd (out p) pin v; ledc_duty := ledc_duty p |}
  | LedcWrite ch duty =>
      {| mode := mode p; out := out p; ledc_duty := upd (ledc_duty p) ch duty |}
  | _ => p
  end.

Definition apply_calls (cs : list call) (p : Pins) : Pins :=
  fold_left apply_call cs p.

(** The last [coast()] or [drive()] of a trace; [d] when there is
    none. *)
Fixpoint last_command (evs : list event) (d : option event) : option event :=
  match evs with
  | [] => d
  | Delay _ :: evs' => last_command evs' d
  | e :: evs' => last_command evs' (Some e)
  end.

(** The pins of the LEDC backend when its last command was [c]
    ([None]: no command since [ledc_begin_phase()]): LPWM is low; after
    a [drive(pct)] the bridge is enabled and the channel carries the
    duty of [pct]; after a [coast()] the bridge is disabled and the duty
    is 0. *)
Definition ledc_state (p : Pins) (c : option event) : Prop :=
  out p LPWM_PIN = Some LOW /\
  match c with
  | Some (Drive pct) =>
      out p EN_PIN = Some HIGH /\ ledc_duty p LEDC_CH_RPWM = ledc_drive pct
  | Some _ => out p EN_PIN = Some LOW /\ ledc_duty p LEDC_CH_RPWM = Some 0
  | None => out p EN_PIN = Some HIGH /\ ledc_duty p LEDC_CH_RPWM = Some 0
  end.

(** All three pins of the bridge are inputs again. *)
Definition released (p : Pins) : Prop :=
  mode p RPWM_PIN = Some INPUT /\ mode p LPWM_PIN = Some INPUT /\
  mode p EN_PIN = Some INPUT.

Definition is_setup (c : call) : bool :=
  match c with Motor_setup _ => true | _ => false end.

(** The stress routines reach the motor library through [drive] and
    [coast] only: their calls hold no [Motor::setup]. *)
Definition no_setup (body : list call * list call) : Prop :=
  filter is_setup (fst body) = [] /\ filter is_setup (snd body) = [].

(* ================================================================== *)
(** ** Exact values and the tolerance of a ramp *)
(* ================================================================== *)

(** The number a binary32 datum stands for, in units of [2^-149] (the
    least positive binary32 number); 0 for an infinity or a NaN. *)
Definition val (x : f32) : Z :=
  match x with
  | S754_finite s m e => cond_Zopp s (Zpos m * 2 ^ (e + 149))
  | _ => 0
  end.

(** A zero or a well-formed finite number. *)
Definition canon (x : f32) : Prop :=
  match x with
  | S754_zero _ => True
  | S754_finite _ m e => bounded prec emax m e = true
  | _ => False
  end.

(** What a location says of the remainder [r] of a division by [d]:
    where [r / d] lies with respect to one half. *)
Definition loc_ok (d r : Z) (l : location) : Prop :=
  match l with
  | loc_Exact => r = 0
  | loc_Inexact Lt => 0 < 2 * r < d
  | loc_Inexact Eq => 2 * r = d
  | loc_Inexact Gt => d < 2 * r
  end.

(** The record [mrs] is [a / D] rounded down, with the place of the
    remainder. *)
Definition rec_ok (a D : Z) (mrs : shr_record) : Prop :=
  exists r, a = shr_m mrs * D + r /\ 0 <= r < D /\
            loc_ok D r (loc_of_shr_record mrs).

(** [static_cast<float>(c)] of a step count: a positive number of 24
    digits that stands for [c]. *)
Definition divisor_ok (c : Z) : bool :=
  match of_int c with
  | S754_finite false m e =>
      (Zpos (digits2_pos m) =? 24) && (-149 <=? e) && (e <=? 0) &&
      (Zpos m * 2 ^ (e + 149) =? c * 2 ^ 149)
  | _ => false
  end.

(** The rounding tolerance of a ramp between any two duties of
    [0, 100]: [2^-12]. *)
Definition RAMP_TOL : f32 := Eval vm_compute in lit 1 4096.

(** [|x - t| <= RAMP_TOL] *)
Definition within_tol (x t : f32) : bool := (fabsf (x - t) <=? RAMP_TOL)%f32.

Definition RAMP_LO : f32 := Eval vm_compute in (f0 - RAMP_TOL)%f32.
Definition RAMP_HI : f32 := Eval vm_compute in (f100 + RAMP_TOL)%f32.

(** [-RAMP_TOL <= x <= 100 + RAMP_TOL] *)
Definition in_ramp_range (x : f32) : bool :=
  (RAMP_LO <=? x)%f32 && (x <=? RAMP_HI)%f32.

(* ================================================================== *)
(** ** Running commands *)
(* ================================================================== *)

Arguments F32.add : simpl never.
Arguments F32.sub : simpl never.
Arguments F32.mul : simpl never.
Arguments F32.div : simpl never.
Arguments F32.ltb : simpl never.
Arguments F32.leb : simpl never.
Arguments F32.eqb : simpl never.
Arguments F32.of_int : simpl never.
Arguments clampPct : simpl never.
Arguments ov_trip : simpl never.
Arguments ov_clear : simpl never.
Arguments ramp_steps : simpl never.
Arguments is_jump : simpl never.
Arguments volts_of_sample : simpl never.
Arguments u32 : simpl never.

Lemma bind_run {A B} (c : M A) (k : A -> M B) w a w' :
  c w = Ok a w' -> bind c k w = k a w'.
Proof. unfold bind. intros ->. reflexivity. Qed.

Lemma u32_idem_sub a b : u32 (u32 a - b) = u32 (a - b).
Proof. unfold u32. apply Zminus_mod_idemp_l. Qed.

Lemma u32_idem_add a b : u32 (u32 a + b) = u32 (a + b).
Proof. unfold u32. apply Zplus_mod_idemp_l. Qed.

Lemma u32_small a : 0 <= a < 2 ^ 32 -> u32 a = a.
Proof. unfold u32. intros. apply Z.mod_small. assumption. Qed.

Lemma advance_app evs evs' t :
  advance (evs ++ evs') t = advance evs' (advance evs t).
Proof.
  revert t. induction evs as [|e evs IH]; intros t; [reflexivity|].
  destruct e; simpl; apply IH.
Qed.

Lemma drive_calls_app evs evs' :
  drive_calls (evs ++ evs') = drive_calls evs ++ drive_calls evs'.
Proof.
  induction evs as [|e evs IH]; [reflexivity|].
  destruct e; simpl; rewrite IH; reflexivity.
Qed.

Lemma coast_calls_app evs evs' :
  coast_calls (evs ++ evs') = (coast_calls evs + coast_calls evs')%nat.
Proof.
  induction evs as [|e evs IH]; [reflexivity|].
  destruct e; simpl; rewrite IH; reflexivity.
Qed.

Lemma drive_calls_ramp_events n s x :
  length (drive_calls (ramp_events n s x)) = n.
Proof.
  revert x. induction n as [|n IH]; intros x; simpl; [reflexivity|].
  now rewrite IH.
Qed.

Lemma coast_calls_ramp_events n s x : coast_calls (ramp_events n s x) = O.
Proof. revert x. induction n as [|n IH]; intros x; simpl; auto. Qed.

Lemma last_drive_ramp_events n s : forall x d,
  last (drive_calls (ramp_events (S n) s x)) d = ramp_final (S n) s x.
Proof.
  induction n as [|n IH]; intros x d; [reflexivity|].
  change (ramp_final (S (S n)) s x) with (ramp_final (S n) s (x + s)%f32).
  rewrite <- (IH (x + s)%f32 d).
  change (drive_calls (ramp_events (S (S n)) s x))
    with ((x + s)%f32 :: drive_calls (ramp_events (S n) s (x + s)%f32)).
  reflexivity.
Qed.

Section Runs.

Variable cfg : Config.
Variable sig : Signals.

Lemma after_start w : after cfg w 0 0 [] = w.
Proof.
  destruct w as [t p a tr]. unfold after. simpl.
  rewrite app_nil_r, !Nat.add_0_r.
  destruct (FAULT_PIN cfg <? 0), (SUPPLY_ADC_PIN cfg <? 0); reflexivity.
Qed.

Lemma emit_after e w kp ka evs :
  (forall ms, e <> Delay ms) ->
  emit e (after cfg w kp ka evs) = Ok tt (after cfg w kp ka (evs ++ [e])).
Proof.
  intros He. unfold emit, after. simpl. f_equal. f_equal.
  - rewrite advance_app. destruct e; try reflexivity. now elim (He ms).
  - now rewrite app_assoc.
Qed.

Lemma coast_after w kp ka evs :
  coast (after cfg w kp ka evs) = Ok tt (after cfg w kp ka (evs ++ [Coast])).
Proof. apply emit_after. discriminate. Qed.

Lemma drive_after x w kp ka evs :
  drive x (after cfg w kp ka evs) = Ok tt (after cfg w kp ka (evs ++ [Drive x])).
Proof. apply emit_after. discriminate. Qed.

Lemma delay_after ms w kp ka evs :
  delay ms (after cfg w kp ka evs) = Ok tt (after cfg w kp ka (evs ++ [Delay ms])).
Proof.
  unfold delay, after. simpl. f_equal. f_equal.
  - now rewrite advance_app.
  - now rewrite app_assoc.
Qed.

Lemma coast_delay_after ms w kp ka evs :
  (coast ;; delay ms) (after cfg w kp ka evs)
  = Ok tt (after cfg w kp ka (evs ++ [Coast; Delay ms])).
Proof.
  rewrite (bind_run _ _ _ _ _ (coast_after _ _ _ _)).
  rewrite delay_after. now rewrite <- app_assoc.
Qed.

Lemma faultActive_after w kp ka evs :
  faultActive cfg sig (after cfg w kp ka evs)
  = Ok (fault_at cfg sig (pin_reads w + kp)) (after cfg w (S kp) ka evs).
Proof.
  unfold faultActive, fault_at, after.
  destruct (FAULT_PIN cfg <? 0); simpl; [reflexivity|].
  unfold bind, digitalRead, ret. simpl.
  now rewrite Nat.add_succ_r.
Qed.

Lemma readVbusVolts_enabled w :
  (SUPPLY_ADC_PIN cfg <? 0) = false ->
  readVbusVolts cfg sig w
  = Ok (vbus_at cfg sig (adc_reads w))
       {| now := now w; pin_reads := pin_reads w;
          adc_reads := S (adc_reads w); trace := trace w |}.
Proof. unfold readVbusVolts. intros ->. reflexivity. Qed.

Lemma guard_quiet_after w kp ka evs :
  trip_at cfg sig (adc_reads w + ka) = false ->
  guardOverVoltage cfg sig (after cfg w kp ka evs)
  = Ok false (after cfg w kp (S ka) evs).
Proof.
  unfold trip_at, guardOverVoltage, guardOverVoltage_vb.
  destruct (SUPPLY_ADC_PIN cfg <? 0) eqn:Hpin; simpl.
  - intros _. unfold bind, ret, after. rewrite Hpin. reflexivity.
  - intros Htrip. unfold bind at 1 2.
    rewrite readVbusVolts_enabled by assumption.
    unfold after at 1 2 3 4. simpl. rewrite Hpin.
    unfold vbus_at in *. rewrite Htrip.
    unfold ret, after. simpl. rewrite Hpin.
    now rewrite Nat.add_succ_r.
Qed.

Lemma quiet_spec w n :
  quiet cfg sig w n = true <->
  forall k, (k < n)%nat ->
    fault_at cfg sig (pin_reads w + k) = false /\
    trip_at cfg sig (adc_reads w + k) = false.
Proof.
  unfold quiet. rewrite forallb_forall. split.
  - intros H k Hk. specialize (H k). rewrite in_seq in H.
    specialize (H ltac:(lia)). unfold quiet_check in H.
    apply andb_true_iff in H. destruct H as [H1 H2].
    now rewrite negb_true_iff in H1, H2.
  - intros H k Hk. rewrite in_seq in Hk.
    destruct (H k ltac:(lia)) as [H1 H2].
    unfold quiet_check. now rewrite H1, H2.
Qed.

(** One quiet interlock check: neither input stops the ramp. *)
Lemma check_quiet_after {A} (k : M A) w kp ka evs :
  fault_at cfg sig (pin_reads w + kp) = false ->
  trip_at cfg sig (adc_reads w + ka) = false ->
  forall (kf : M A) (ko : M A),
  (f <- faultActive cfg sig ;;
   if f then kf else
     ov <- guardOverVoltage cfg sig ;;
     if ov then ko else k) (after cfg w kp ka evs)
  = k (after cfg w (S kp) (S ka) evs).
Proof.
  intros Hf Ht kf ko.
  rewrite (bind_run _ _ _ _ _ (faultActive_after w kp ka evs)), Hf.
  now rewrite (bind_run _ _ _ _ _ (guard_quiet_after w (S kp) ka evs Ht)).
Qed.

(** An uninterrupted [for] loop. *)
Lemma ramp_loop_quiet n : forall s x w kp ka evs,
  (forall k, (k < n)%nat ->
     fault_at cfg sig (pin_reads w + (kp + k)) = false /\
     trip_at cfg sig (adc_reads w + (ka + k)) = false) ->
  ramp_loop cfg sig n s x (after cfg w kp ka evs)
  = Ok (false, ramp_final n s x)
       (after cfg w (kp + n) (ka + n) (evs ++ ramp_events n s x)).
Proof.
  induction n as [|n IH]; intros s x w kp ka evs Hq.
  - simpl. unfold ret. now rewrite !Nat.add_0_r, app_nil_r.
  - destruct (Hq O ltac:(lia)) as [Hf Ht]. rewrite !Nat.add_0_r in Hf, Ht.
    cbn [ramp_loop ramp_final ramp_events].
    rewrite (check_quiet_after _ w kp ka evs Hf Ht).
    rewrite (bind_run _ _ _ _ _ (drive_after _ _ _ _ _)).
    rewrite (bind_run _ _ _ _ _ (delay_after _ _ _ _ _)).
    rewrite IH.
    + rewrite <- !app_assoc. simpl. now rewrite !Nat.add_succ_r.
    + intros k Hk. specialize (Hq (S k) ltac:(lia)).
      now replace (S kp + k)%nat with (kp + S k)%nat by lia;
          replace (S ka + k)%nat with (ka + S k)%nat by lia.
Qed.

(** An uninterrupted [safeRampTo]: the entry check and the check of
    each of the [n] steps are quiet. *)
Lemma safeRampTo_quiet L T w n :
  let delta := (clampPct T - L)%f32 in
  let s := (delta / of_int n)%f32 in
  ramp_steps delta = Some n ->
  (forall k, (k <= Z.to_nat n)%nat ->
     fault_at cfg sig (pin_reads w + k) = false /\
     trip_at cfg sig (adc_reads w + k) = false) ->
  safeRampTo cfg sig L T w
  = Ok (ramp_final (Z.to_nat n) s L)
       (after cfg w (S (Z.to_nat n)) (S (Z.to_nat n))
          (bracket_before delta ++ ramp_events (Z.to_nat n) s L
           ++ bracket_after delta)).
Proof.
  intros delta s Hn Hq.
  destruct (Hq O ltac:(lia)) as [Hf Ht]. rewrite Nat.add_0_r in Hf, Ht.
  rewrite <- (after_start w) at 1. unfold safeRampTo. fold delta.
  rewrite <- (Nat.add_0_r (pin_reads w)) in Hf.
  rewrite <- (Nat.add_0_r (adc_reads w)) in Ht.
  rewrite (check_quiet_after _ w O O [] Hf Ht).
  rewrite Hn. fold s.
  assert (Hloop : forall evs,
    ramp_loop cfg sig (Z.to_nat n) s L (after cfg w 1 1 evs)
    = Ok (false, ramp_final (Z.to_nat n) s L)
         (after cfg w (S (Z.to_nat n)) (S (Z.to_nat n))
            (evs ++ ramp_events (Z.to_nat n) s L))).
  { intros evs. rewrite ramp_loop_quiet; [reflexivity|].
    intros k Hk. apply (Hq (S k)). lia. }
  unfold bracket_before, bracket_after.
  destruct (is_jump delta).
  - rewrite (bind_run _ _ _ _ _ (coast_delay_after _ _ _ _ _)).
    rewrite (bind_run _ _ _ _ _ (Hloop _)). cbn [fst snd].
    rewrite (bind_run _ _ _ _ _ (coast_delay_after _ _ _ _ _)).
    unfold ret. now rewrite <- !app_assoc.
  - unfold bind at 1, ret at 1.
    rewrite (bind_run _ _ _ _ _ (Hloop _)). cbn [fst snd].
    unfold bind, ret. now rewrite app_nil_r.
Qed.

(* ---------------------------------------------------------------- *)
(** *** The wait of the guard *)

Lemma ov_wait_run fuel : forall j t0 vb w,
  (SUPPLY_ADC_PIN cfg <? 0) = false ->
  u32 (now w - t0) = OV_POLL_MS * Z.of_nat j ->
  (j <= 300)%nat -> (301 <= fuel + j)%nat ->
  exists k vb' w',
    while_elapsed fuel t0 OV_WAIT_MS (ov_wait_body cfg sig) vb w = Ok vb' w' /\
    pin_reads w' = pin_reads w /\
    trace w' = trace w ++ repeat (Delay OV_POLL_MS) k /\
    u32 (now w' - t0) = OV_POLL_MS * Z.of_nat (j + k) /\
    (forall i, (i < k)%nat ->
       ov_clear (vbus_at cfg sig (adc_reads w + i)) = false) /\
    ((OV_POLL_MS * Z.of_nat (j + k) = OV_WAIT_MS /\
      adc_reads w' = (adc_reads w + k)%nat)
     \/
     (OV_POLL_MS * Z.of_nat (j + k) < OV_WAIT_MS /\
      adc_reads w' = S (adc_reads w + k) /\
      vb' = vbus_at cfg sig (adc_reads w + k) /\
      ov_clear vb' = true)).
Proof.
  unfold OV_POLL_MS, OV_WAIT_MS.
  induction fuel as [|fuel IH]; intros j t0 vb w Hpin Hnow Hj Hfuel; [lia|].
  cbn [while_elapsed]. unfold bind at 1, millis at 1. rewrite Hnow.
  destruct (10 * Z.of_nat j <? 3000) eqn:Hlt.
  - apply Z.ltb_lt in Hlt.
    unfold bind at 1, ov_wait_body at 1, bind at 1.
    rewrite readVbusVolts_enabled by assumption.
    destruct (ov_clear (vbus_at cfg sig (adc_reads w))) eqn:Hclr.
    + exists O, (vbus_at cfg sig (adc_reads w)). eexists.
      unfold ret. cbn [fst snd]. split; [reflexivity|].
      cbn [repeat now pin_reads adc_reads trace].
      rewrite app_nil_r, !Nat.add_0_r.
      repeat split; try assumption; try lia.
      right. repeat split; try assumption; lia.
    + unfold bind at 1, delay at 1, ret at 1. cbn [fst snd].
      set (w1 := {| now := _; pin_reads := _; adc_reads := _; trace := _ |}).
      destruct (IH (S j) t0 (vbus_at cfg sig (adc_reads w)) w1 Hpin)
        as (k & vb' & w' & Hrun & Hp & Htr & Ht & Hall & Hend).
      * subst w1. cbn [now]. rewrite u32_idem_sub.
        replace (now w + OV_POLL_MS - t0) with ((now w - t0) + 10)
          by (unfold OV_POLL_MS; lia).
        rewrite <- u32_idem_add, Hnow. rewrite u32_small by lia. lia.
      * lia.
      * lia.
      * exists (S k), vb', w'. subst w1. cbn [now pin_reads adc_reads trace] in *.
        split; [exact Hrun|]. split; [exact Hp|].
        split; [rewrite Htr, <- app_assoc; reflexivity|].
        split; [now rewrite <- Nat.add_succ_comm|].
        split.
        { intros [|i] Hi; [now rewrite Nat.add_0_r|].
          rewrite <- Nat.add_succ_comm. apply Hall. lia. }
        rewrite <- !Nat.add_succ_comm. exact Hend.
  - apply Z.ltb_ge in Hlt.
    exists O, vb, w. unfold ret. cbn [repeat]. rewrite app_nil_r, !Nat.add_0_r.
    repeat split; try assumption; lia.
Qed.

(** A guard that trips coasts at once, waits, and reports the trip;
    it always returns. *)
Lemma guard_trip_run w :
  (SUPPLY_ADC_PIN cfg <? 0) = false ->
  ov_trip (vbus_at cfg sig (adc_reads w)) = true ->
  exists k vb' w',
    guardOverVoltage_vb cfg sig w = Ok (true, vb') w' /\
    waited cfg sig w k vb' w'.
Proof.
  intros Hpin Htrip. unfold guardOverVoltage_vb. rewrite Hpin.
  unfold bind at 1. rewrite readVbusVolts_enabled by assumption.
  rewrite Htrip. unfold bind at 1, coast at 1, emit at 1.
  cbn [now pin_reads adc_reads trace].
  unfold bind at 1, millis at 1. cbn [now].
  set (w1 := {| now := _; pin_reads := _; adc_reads := _; trace := _ |}).
  destruct (ov_wait_run OV_WAIT_FUEL O (now w)
              (vbus_at cfg sig (adc_reads w)) w1 Hpin)
    as (k & vb' & w' & Hrun & Hp & Htr & Ht & Hall & Hend).
  - subst w1. cbn [now]. now rewrite Z.sub_diag.
  - lia.
  - unfold OV_WAIT_FUEL. lia.
  - exists k, vb', w'. unfold bind. rewrite Hrun. split; [reflexivity|].
    subst w1. cbn [now pin_reads adc_reads trace] in *.
    unfold waited. rewrite Htr, <- app_assoc.
    repeat split; try assumption.
Qed.

(** The first [i] steps of the [for] loop, when their checks are
    quiet. *)
Lemma ramp_loop_prefix i : forall m s x w kp ka evs,
  (forall k, (k < i)%nat ->
     fault_at cfg sig (pin_reads w + (kp + k)) = false /\
     trip_at cfg sig (adc_reads w + (ka + k)) = false) ->
  ramp_loop cfg sig (i + m) s x (after cfg w kp ka evs)
  = ramp_loop cfg sig m s (ramp_final i s x)
      (after cfg w (kp + i) (ka + i) (evs ++ ramp_events i s x)).
Proof.
  induction i as [|i IH]; intros m s x w kp ka evs Hq.
  - simpl. now rewrite !Nat.add_0_r, app_nil_r.
  - destruct (Hq O ltac:(lia)) as [Hf Ht]. rewrite !Nat.add_0_r in Hf, Ht.
    cbn [ramp_loop ramp_final ramp_events Nat.add].
    rewrite (check_quiet_after _ w kp ka evs Hf Ht).
    rewrite (bind_run _ _ _ _ _ (drive_after _ _ _ _ _)).
    rewrite (bind_run _ _ _ _ _ (delay_after _ _ _ _ _)).
    rewrite IH.
    + rewrite <- !app_assoc. simpl. now rewrite !Nat.add_succ_r.
    + intros k Hk. specialize (Hq (S k) ltac:(lia)).
      now replace (S kp + k)%nat with (kp + S k)%nat by lia;
          replace (S ka + k)%nat with (ka + S k)%nat by lia.
Qed.

(** [safeRampTo] up to the check of its step [i] (counted from 0):
    the entry check and the first [i] steps were quiet. *)
Lemma safeRampTo_upto L T w n i :
  let delta := (clampPct T - L)%f32 in
  let s := (delta / of_int n)%f32 in
  ramp_steps delta = Some n ->
  (i < Z.to_nat n)%nat ->
  (forall k, (k <= i)%nat ->
     fault_at cfg sig (pin_reads w + k) = false /\
     trip_at cfg sig (adc_reads w + k) = false) ->
  safeRampTo cfg sig L T w
  = (r <- ramp_loop cfg sig (Z.to_nat n - i) s (ramp_final i s L) ;;
     if fst r then ret (snd r)
     else
       (if is_jump delta then coast ;; delay COAST_AFTER_JUMP_MS
        else ret tt) ;;
       ret (snd r))
      (after cfg w (S i) (S i) (bracket_before delta ++ ramp_events i s L)).
Proof.
  intros delta s Hn Hi Hq.
  destruct (Hq O ltac:(lia)) as [Hf Ht].
  rewrite <- (after_start w) at 1. unfold safeRampTo. fold delta.
  rewrite (check_quiet_after _ w O O [] Hf Ht).
  rewrite Hn. fold s.
  assert (Hloop : forall evs,
    ramp_loop cfg sig (Z.to_nat n) s L (after cfg w 1 1 evs)
    = ramp_loop cfg sig (Z.to_nat n - i) s (ramp_final i s L)
        (after cfg w (S i) (S i) (evs ++ ramp_events i s L))).
  { intros evs.
    replace (Z.to_nat n) with (i + (Z.to_nat n - i))%nat at 1 by lia.
    rewrite ramp_loop_prefix; [reflexivity|].
    intros k Hk. apply (Hq (S k)). lia. }
  unfold bracket_before.
  destruct (is_jump delta).
  - rewrite (bind_run _ _ _ _ _ (coast_delay_after _ _ _ _ _)).
    unfold bind at 1. rewrite Hloop. reflexivity.
  - unfold bind at 1, ret at 1.
    unfold bind at 1. rewrite Hloop. reflexivity.
Qed.


Lemma guard_trip_flag w :
  (SUPPLY_ADC_PIN cfg <? 0) = false ->
  ov_trip (vbus_at cfg sig (adc_reads w)) = true ->
  exists k vb' w',
    guardOverVoltage cfg sig w = Ok true w' /\ waited cfg sig w k vb' w'.
Proof.
  intros Hpin Htrip.
  destruct (guard_trip_run w Hpin Htrip) as (k & vb' & w' & Hrun & Hw).
  exists k, vb', w'. split; [|exact Hw].
  unfold guardOverVoltage. now rewrite (bind_run _ _ _ _ _ Hrun).
Qed.

(** A step whose check finds the bus over the limit. *)
Lemma ramp_loop_trip m s x w kp ka evs :
  (SUPPLY_ADC_PIN cfg <? 0) = false ->
  fault_at cfg sig (pin_reads w + kp) = false ->
  ov_trip (vbus_at cfg sig (adc_reads w + ka)) = true ->
  exists k vb' w',
    ramp_loop cfg sig (S m) s x (after cfg w kp ka evs) = Ok (true, f0) w' /\
    waited cfg sig (after cfg w (S kp) ka evs) k vb' w'.
Proof.
  intros Hpin Hf Htrip. cbn [ramp_loop].
  rewrite (bind_run _ _ _ _ _ (faultActive_after w kp ka evs)), Hf.
  destruct (guard_trip_flag (after cfg w (S kp) ka evs) Hpin)
    as (k & vb' & w' & Hrun & Hw).
  { unfold after. cbn [adc_reads]. now rewrite Hpin. }
  exists k, vb', w'. split; [|exact Hw].
  now rewrite (bind_run _ _ _ _ _ Hrun).
Qed.

End Runs.

(* ================================================================== *)
(** ** Comparisons of binary32 values *)
(* ================================================================== *)

Lemma SFcompare_antisym x y :
  SFcompare y x = option_map CompOpp (SFcompare x y).
Proof.
  destruct x as [sx|sx| |sx mx ex], y as [sy|sy| |sy my ey];
    try destruct sx; try destruct sy; try reflexivity; simpl.
  all: rewrite (Z.compare_antisym ex ey); destruct (Z.compare ex ey); simpl;
    try reflexivity.
  all: pose proof (Pos.compare_cont_antisym mx my Eq) as H; simpl in H;
    rewrite <- H; try rewrite CompOpp_involutive; reflexivity.
Qed.

Lemma ltb_not_leb x y : (x <? y)%f32 = true -> (y <=? x)%f32 = false.
Proof.
  unfold F32.ltb, F32.leb, SFltb, SFleb. rewrite (SFcompare_antisym x y).
  destruct (SFcompare x y) as [[]|]; simpl; congruence.
Qed.

Lemma leb_not_ltb x y : (x <=? y)%f32 = true -> (y <? x)%f32 = false.
Proof.
  unfold F32.ltb, F32.leb, SFltb, SFleb. rewrite (SFcompare_antisym x y).
  destruct (SFcompare x y) as [[]|]; simpl; congruence.
Qed.

(** A value above the limit is not negative: it arms the guard. *)
Lemma over_limit_trips v :
  (VBUS_OV_LIMIT_VOLTS <? v)%f32 = true -> ov_trip v = true.
Proof.
  unfold ov_trip. intros H. rewrite H, andb_true_r.
  destruct v as [s|s| |s m e]; try destruct s; try discriminate; reflexivity.
Qed.

(** A value at or above the clear threshold does not end the wait. *)
Lemma above_clear_holds v :
  (VBUS_CLEAR_HYS_VOLTS <=? v)%f32 = true -> ov_clear v = false.
Proof.
  intros H. unfold ov_clear. now rewrite (leb_not_ltb _ _ H), andb_false_r.
Qed.

(** A negative value does not end the wait. *)
Lemma negative_holds v : (v <? f0)%f32 = true -> ov_clear v = false.
Proof.
  intros H. unfold ov_clear. now rewrite (ltb_not_leb _ _ H).
Qed.

(* ================================================================== *)
(** ** The guard *)
(* ================================================================== *)

Lemma enabled_ltb z : 0 <= z -> (z <? 0) = false.
Proof. intros. now apply Z.ltb_ge. Qed.

Lemma drive_calls_wait k : drive_calls (Coast :: repeat (Delay OV_POLL_MS) k) = [].
Proof. simpl. induction k as [|k IH]; simpl; auto. Qed.

(** A tripped guard whose polls never clear waits out [OV_WAIT_MS]. *)
Lemma guard_full_wait cfg sig w :
  (SUPPLY_ADC_PIN cfg <? 0) = false ->
  ov_trip (vbus_at cfg sig (adc_reads w)) = true ->
  (forall i, (i < 300)%nat ->
     ov_clear (vbus_at cfg sig (S (adc_reads w) + i)) = false) ->
  exists vb' w',
    guardOverVoltage_vb cfg sig w = Ok (true, vb') w' /\
    waited cfg sig w 300 vb' w' /\
    adc_reads w' = (adc_reads w + 301)%nat.
Proof.
  intros Hpin Htrip Hhold.
  destruct (guard_trip_run cfg sig w Hpin Htrip) as (k & vb' & w' & Hrun & Hw).
  assert (Hk : k = 300%nat).
  { destruct Hw as (_ & _ & _ & _ & [[Hk _] | (Hk & _ & -> & Hclr)]);
      unfold OV_POLL_MS, OV_WAIT_MS in Hk; [lia|].
    rewrite Hhold in Hclr by lia. discriminate. }
  subst k. exists vb', w'. split; [exact Hrun|]. split; [exact Hw|].
  destruct Hw as (_ & _ & _ & _ & [[_ Ha] | (Hk & _)]);
    unfold OV_POLL_MS, OV_WAIT_MS in *; lia.
Qed.

(** C2. Fault short-circuit: when [faultActive()] returns true on entry,
    [safeRampTo] makes exactly one [coast()] call and no [drive()] call,
    and leaves LastCommandedDuty as it was, for every target and every
    LastCommandedDuty. *)
Theorem C2_fault_at_entry cfg sig (lastPct targetPct : f32) w w1 :
  faultActive cfg sig w = Ok true w1 ->
  exists evs w',
    safeRampTo cfg sig lastPct targetPct w = Ok lastPct w' /\
    trace w' = trace w ++ evs /\
    evs = [Coast] /\ coast_calls evs = 1%nat /\ drive_calls evs = [].
Proof.
  intros Hf. exists [Coast]. eexists. unfold safeRampTo.
  rewrite (bind_run _ _ _ _ _ Hf). unfold bind, coast, emit, ret.
  cbn [trace]. split; [reflexivity|].
  assert (Htr : trace w1 = trace w).
  { revert Hf. unfold faultActive.
    destruct (FAULT_PIN cfg <? 0); unfold bind, digitalRead, ret;
      intros Hf; inversion Hf; reflexivity. }
  rewrite Htr. repeat split.
Qed.

Lemma C2_fault_at_entry_witness :
  exists evs w',
    safeRampTo armed (fault_from 0) (of_int 20) (of_int 75) w0
    = Ok (of_int 20) w' /\
    trace w' = trace w0 ++ evs /\
    evs = [Coast] /\ coast_calls evs = 1%nat /\ drive_calls evs = [].
Proof.
  apply (C2_fault_at_entry armed (fault_from 0) (of_int 20) (of_int 75) w0
           {| now := 0; pin_reads := 1; adc_reads := 0; trace := [] |}).
  reflexivity.
Defined.

(** C3. With voltage sensing enabled, a reading above the 28.0 V trip
    threshold makes [guardOverVoltage] call [coastFn()] at once and
    return tripped, after at most 3000 ms of polls 10 ms apart, also
    when that wait expires without the voltage clearing (there is no
    other result); and [safeRampTo], on a tripped report at entry or at
    the re-check of a step, sets LastCommandedDuty to 0 and returns
    without a further [drive()] call. *)
Theorem C3_overvoltage_trip cfg sig :
  0 <= SUPPLY_ADC_PIN cfg ->
  (forall w,
     (VBUS_OV_LIMIT_VOLTS <? vbus_at cfg sig (adc_reads w))%f32 = true ->
     exists k w',
       guardOverVoltage cfg sig w = Ok true w' /\
       trace w' = trace w ++ Coast :: repeat (Delay OV_POLL_MS) k /\
       u32 (now w' - now w) = OV_POLL_MS * Z.of_nat k /\
       OV_POLL_MS * Z.of_nat k <= OV_WAIT_MS /\
       ((forall i, (i < 300)%nat ->
           ov_clear (vbus_at cfg sig (S (adc_reads w) + i)) = false) ->
        OV_POLL_MS * Z.of_nat k = OV_WAIT_MS))
  /\
  (forall lastPct targetPct w,
     fault_at cfg sig (pin_reads w) = false ->
     (VBUS_OV_LIMIT_VOLTS <? vbus_at cfg sig (adc_reads w))%f32 = true ->
     exists k w',
       safeRampTo cfg sig lastPct targetPct w = Ok f0 w' /\
       trace w' = trace w ++ Coast :: repeat (Delay OV_POLL_MS) k /\
       drive_calls (Coast :: repeat (Delay OV_POLL_MS) k) = [])
  /\
  (forall lastPct targetPct w n i,
     let delta := (clampPct targetPct - lastPct)%f32 in
     let stepSize := (delta / of_int n)%f32 in
     ramp_steps delta = Some n ->
     (i < Z.to_nat n)%nat ->
     (forall k, (k <= i)%nat ->
        fault_at cfg sig (pin_reads w + k) = false /\
        trip_at cfg sig (adc_reads w + k) = false) ->
     fault_at cfg sig (pin_reads w + S i) = false ->
     (VBUS_OV_LIMIT_VOLTS <? vbus_at cfg sig (adc_reads w + S i))%f32 = true ->
     exists k w',
       safeRampTo cfg sig lastPct targetPct w = Ok f0 w' /\
       trace w' = trace w ++ (bracket_before delta
                              ++ ramp_events i stepSize lastPct)
                          ++ Coast :: repeat (Delay OV_POLL_MS) k /\
       length (drive_calls ((bracket_before delta
                             ++ ramp_events i stepSize lastPct)
                            ++ Coast :: repeat (Delay OV_POLL_MS) k)) = i).
Proof.
  intros Hen. apply enabled_ltb in Hen. split; [|split].
  - intros w Hover. apply over_limit_trips in Hover.
    destruct (guard_trip_flag cfg sig w Hen Hover)
      as (k & vb' & w' & Hrun & Hp & Htr & Ht & Hall & Hend).
    exists k, w'. repeat split; try assumption.
    + destruct Hend as [[Hk _] | [Hk _]]; lia.
    + intros Hhold. destruct Hend as [[Hk _] | (Hk & _ & -> & Hclr)];
        [exact Hk|].
      unfold OV_POLL_MS, OV_WAIT_MS in Hk.
      rewrite Hhold in Hclr by lia. discriminate.
  - intros L T w Hf Hover. apply over_limit_trips in Hover.
    destruct (guard_trip_flag cfg sig (after cfg w 1 0 []) Hen)
      as (k & vb' & w' & Hrun & Hp & Htr & _).
    { unfold after. cbn [adc_reads]. now rewrite Hen, Nat.add_0_r. }
    exists k, w'. unfold safeRampTo.
    rewrite <- (after_start cfg w) at 1.
    rewrite <- (Nat.add_0_r (pin_reads w)) in Hf.
    rewrite (bind_run _ _ _ _ _ (faultActive_after cfg sig w 0 0 [])), Hf.
    rewrite (bind_run _ _ _ _ _ Hrun). unfold ret.
    split; [reflexivity|]. split; [|apply drive_calls_wait].
    rewrite Htr. unfold after. cbn [trace]. now rewrite app_nil_r.
  - intros L T w n i delta s Hn Hi Hq Hf Hover.
    apply over_limit_trips in Hover.
    rewrite (safeRampTo_upto cfg sig L T w n i Hn Hi Hq).
    fold delta. fold s.
    destruct (Z.to_nat n - i)%nat as [|m] eqn:Hm; [lia|].
    destruct (ramp_loop_trip cfg sig m s (ramp_final i s L) w (S i) (S i)
                (bracket_before delta ++ ramp_events i s L) Hen Hf Hover)
      as (k & vb' & w' & Hrun & Hp & Htr & _).
    exists k, w'. rewrite (bind_run _ _ _ _ _ Hrun). cbn [fst snd]. unfold ret.
    split; [reflexivity|]. split.
    + rewrite Htr. unfold after. cbn [trace]. now rewrite <- !app_assoc.
    + rewrite !drive_calls_app, drive_calls_wait, app_nil_r.
      unfold bracket_before. destruct (is_jump delta); simpl;
        apply drive_calls_ramp_events.
Qed.

Lemma C3_overvoltage_trip_witness :
  exists k w',
    safeRampTo armed (bus 0 3000 3000) (of_int 20) (of_int 75) w0 = Ok f0 w' /\
    trace w' = trace w0 ++ Coast :: repeat (Delay OV_POLL_MS) k /\
    drive_calls (Coast :: repeat (Delay OV_POLL_MS) k) = [].
Proof.
  apply (proj1 (proj2 (C3_overvoltage_trip armed (bus 0 3000 3000)
                         ltac:(simpl; lia)))).
  - reflexivity.
  - vm_compute. reflexivity.
Defined.

(** C4. Hysteresis: after a trip the wait of the guard does not end on
    a reading at or above the 26.5 V clear threshold; while every
    reading stays at or above it (in particular in the band from 26.5 V
    to 28.0 V) the guard waits out the whole 3000 ms; it leaves the wait
    early only on a reading strictly below 26.5 V, and never on one at
    the 28.0 V trip threshold. *)
Theorem C4_hysteresis cfg sig w :
  0 <= SUPPLY_ADC_PIN cfg ->
  ov_trip (vbus_at cfg sig (adc_reads w)) = true ->
  exists k vb' w',
    guardOverVoltage_vb cfg sig w = Ok (true, vb') w' /\
    trace w' = trace w ++ Coast :: repeat (Delay OV_POLL_MS) k /\
    u32 (now w' - now w) = OV_POLL_MS * Z.of_nat k /\
    (forall i, (i < k)%nat ->
       ov_clear (vbus_at cfg sig (S (adc_reads w) + i)) = false) /\
    ((forall i, (i < 300)%nat ->
        (VBUS_CLEAR_HYS_VOLTS <=? vbus_at cfg sig (S (adc_reads w) + i))%f32 = true) ->
     OV_POLL_MS * Z.of_nat k = OV_WAIT_MS) /\
    (OV_POLL_MS * Z.of_nat k < OV_WAIT_MS ->
     vb' = vbus_at cfg sig (S (adc_reads w) + k) /\
     (vb' <? VBUS_CLEAR_HYS_VOLTS)%f32 = true /\
     (VBUS_CLEAR_HYS_VOLTS <=? vb')%f32 = false) /\
    (forall v, (VBUS_CLEAR_HYS_VOLTS <=? v)%f32 = true -> ov_clear v = false) /\
    ov_clear VBUS_OV_LIMIT_VOLTS = false.
Proof.
  intros Hen Htrip. apply enabled_ltb in Hen.
  destruct (guard_trip_run cfg sig w Hen Htrip)
    as (k & vb' & w' & Hrun & Hp & Htr & Ht & Hall & Hend).
  exists k, vb', w'. repeat split; try assumption.
  - intros Hband. destruct Hend as [[Hk _] | (Hk & _ & -> & Hclr)]; [exact Hk|].
    unfold OV_POLL_MS, OV_WAIT_MS in Hk.
    rewrite above_clear_holds in Hclr; [discriminate|]. apply Hband. lia.
  - destruct Hend as [[Hk _] | (Hk & _ & Hvb & Hclr)]; [lia | exact Hvb].
  - destruct Hend as [[Hk _] | (Hk & _ & Hvb & Hclr)]; [lia|].
    unfold ov_clear in Hclr. now apply andb_true_iff in Hclr.
  - destruct Hend as [[Hk _] | (Hk & _ & Hvb & Hclr)]; [lia|].
    unfold ov_clear in Hclr. apply andb_true_iff in Hclr.
    now apply ltb_not_leb.
  - apply above_clear_holds.
Qed.

Lemma C4_hysteresis_witness :
  (exists k vb' w',
     guardOverVoltage_vb armed (bus 0 3000 2500) w0 = Ok (true, vb') w' /\
     trace w' = trace w0 ++ Coast :: repeat (Delay OV_POLL_MS) k /\
     OV_POLL_MS * Z.of_nat k = OV_WAIT_MS)
  /\
  (exists k vb' w',
     guardOverVoltage_vb armed (bus3 5 3000 2500 2000) w0 = Ok (true, vb') w' /\
     trace w' = trace w0 ++ Coast :: repeat (Delay OV_POLL_MS) k /\
     (forall i, (i < k)%nat ->
        ov_clear (vbus_at armed (bus3 5 3000 2500 2000) (S (adc_reads w0) + i))
        = false)).
Proof.
  split.
  - destruct (C4_hysteresis armed (bus 0 3000 2500) w0
                ltac:(simpl; lia) ltac:(vm_compute; reflexivity))
      as (k & vb' & w' & Hrun & Htr & _ & _ & Hband & _).
    exists k, vb', w'. split; [exact Hrun|]. split; [exact Htr|].
    apply Hband. intros i _. unfold vbus_at, bus. cbn [adc_sample adc_reads w0].
    vm_compute. reflexivity.
  - destruct (C4_hysteresis armed (bus3 5 3000 2500 2000) w0
                ltac:(simpl; lia) ltac:(vm_compute; reflexivity))
      as (k & vb' & w' & Hrun & Htr & _ & Hhold & _).
    exists k, vb', w'. split; [exact Hrun|]. split; [exact Htr | exact Hhold].
Defined.

(** C10. In the wait that follows a trip, a negative reading (the
    sensor-unavailable sentinel of [readVbusVolts]) does not satisfy the
    clear condition, which asks for a reading that is both non-negative
    and strictly below 26.5 V; when every reading of the wait is
    negative the guard waits the full 3000 ms and still returns
    tripped. *)
Theorem C10_negative_reading_never_clears cfg sig w :
  0 <= SUPPLY_ADC_PIN cfg ->
  ov_trip (vbus_at cfg sig (adc_reads w)) = true ->
  (forall v, (v <? f0)%f32 = true -> ov_clear v = false) /\
  ov_clear fm1 = false /\
  (forall v, ov_clear v = true ->
     (f0 <=? v)%f32 = true /\ (v <? VBUS_CLEAR_HYS_VOLTS)%f32 = true) /\
  ((forall i, (i < 300)%nat ->
      (vbus_at cfg sig (S (adc_reads w) + i) <? f0)%f32 = true) ->
   exists vb' w',
     guardOverVoltage_vb cfg sig w = Ok (true, vb') w' /\
     guardOverVoltage cfg sig w = Ok true w' /\
     trace w' = trace w ++ Coast :: repeat (Delay OV_POLL_MS) 300 /\
     u32 (now w' - now w) = OV_WAIT_MS /\
     adc_reads w' = (adc_reads w + 301)%nat).
Proof.
  intros Hen Htrip. apply enabled_ltb in Hen. split; [|split; [|split]].
  - apply negative_holds.
  - reflexivity.
  - intros v Hv. unfold ov_clear in Hv. now apply andb_true_iff in Hv.
  - intros Hneg.
    destruct (guard_full_wait cfg sig w Hen Htrip)
      as (vb' & w' & Hrun & (Hp & Htr & Ht & _) & Ha).
    { intros i Hi. apply negative_holds, Hneg, Hi. }
    exists vb', w'. repeat split; try assumption.
    unfold guardOverVoltage. now rewrite (bind_run _ _ _ _ _ Hrun).
Qed.

Lemma C10_negative_reading_never_clears_witness :
  exists vb' w',
    guardOverVoltage_vb armed_raw (bus 0 20000 (-1)) w0 = Ok (true, vb') w' /\
    guardOverVoltage armed_raw (bus 0 20000 (-1)) w0 = Ok true w' /\
    trace w' = trace w0 ++ Coast :: repeat (Delay OV_POLL_MS) 300 /\
    u32 (now w' - now w0) = OV_WAIT_MS /\
    adc_reads w' = (adc_reads w0 + 301)%nat.
Proof.
  apply (proj2 (proj2 (proj2 (C10_negative_reading_never_clears armed_raw
                                (bus 0 20000 (-1)) w0
                                ltac:(simpl; lia)
                                ltac:(vm_compute; reflexivity))))).
  intros i _. unfold vbus_at, bus. cbn [adc_sample adc_reads w0].
  vm_compute. reflexivity.
Defined.

(* ================================================================== *)
(** ** Uninterrupted ramps *)
(* ================================================================== *)

Lemma ramp_events_head n s x :
  ramp_events (S n) s x
  = Drive (x + s)%f32 :: Delay SLEW_STEP_MS :: ramp_events n s (x + s)%f32.
Proof. reflexivity. Qed.

Lemma ramp_events_last n s : forall x,
  ramp_events (S n) s x
  = ramp_events n s x ++ [Drive (ramp_final (S n) s x); Delay SLEW_STEP_MS].
Proof.
  induction n as [|n IH]; intros x; [reflexivity|].
  rewrite ramp_events_head, IH. reflexivity.
Qed.

Lemma ramp_steps_pos delta n : ramp_steps delta = Some n -> 1 <= n.
Proof.
  unfold ramp_steps. destruct (to_int _) as [v|]; [|discriminate].
  destruct (v <? 1) eqn:Hv; intros H; inversion H; subst; [lia|].
  now apply Z.ltb_ge in Hv.
Qed.

Lemma quiet_upto cfg sig w n :
  quiet cfg sig w (S n) = true ->
  forall k, (k <= n)%nat ->
    fault_at cfg sig (pin_reads w + k) = false /\
    trip_at cfg sig (adc_reads w + k) = false.
Proof. intros H k Hk. apply (proj1 (quiet_spec cfg sig w (S n)) H). lia. Qed.

(** C6. Jump bracketing: in a ramp with no fault and no over-voltage,
    when |clamped target - LastCommandedDuty| is at least the 12 percent
    jump threshold, [safeRampTo] calls [coast()] once, waits the
    coast-before-jump delay, makes its drive steps, calls [coast()] once
    more right after the last step and waits the (shorter) settle-after
    delay; below the threshold it makes no [coast()] call at all. *)
Theorem C6_jump_bracketing cfg sig (lastPct targetPct : f32) w n :
  let delta := (clampPct targetPct - lastPct)%f32 in
  let stepSize := (delta / of_int n)%f32 in
  let steps := ramp_events (Z.to_nat n) stepSize lastPct in
  ramp_steps delta = Some n ->
  quiet cfg sig w (S (Z.to_nat n)) = true ->
  exists x w' evs,
    safeRampTo cfg sig lastPct targetPct w = Ok x w' /\
    trace w' = trace w ++ evs /\
    (exists rest, steps = Drive (lastPct + stepSize)%f32
                          :: Delay SLEW_STEP_MS :: rest) /\
    (exists front, steps = front ++ [Drive x; Delay SLEW_STEP_MS]) /\
    coast_calls steps = 0%nat /\
    ((COAST_BEFORE_JUMP_PCT <=? fabsf delta)%f32 = true ->
       evs = [Coast; Delay COAST_BEFORE_JUMP_MS] ++ steps
             ++ [Coast; Delay COAST_AFTER_JUMP_MS] /\
       coast_calls evs = 2%nat /\
       COAST_AFTER_JUMP_MS < COAST_BEFORE_JUMP_MS) /\
    ((COAST_BEFORE_JUMP_PCT <=? fabsf delta)%f32 = false ->
       evs = steps /\ coast_calls evs = 0%nat).
Proof.
  intros delta s steps Hn Hq.
  pose proof (ramp_steps_pos _ _ Hn) as Hpos.
  pose proof (safeRampTo_quiet cfg sig lastPct targetPct w n Hn
                (quiet_upto cfg sig w _ Hq)) as Hrun.
  cbv zeta in Hrun. fold delta s steps in Hrun.
  destruct (Z.to_nat n) as [|m] eqn:Hm; [lia|].
  eexists _, _, _. split; [exact Hrun|]. split; [reflexivity|].
  split; [eexists; apply ramp_events_head|].
  split; [eexists; apply ramp_events_last|].
  split; [apply coast_calls_ramp_events|].
  change (COAST_BEFORE_JUMP_PCT <=? fabsf delta)%f32 with (is_jump delta).
  unfold bracket_before, bracket_after.
  split; intros ->.
  - split; [reflexivity|]. split; [|reflexivity].
    rewrite !coast_calls_app. unfold steps.
    rewrite coast_calls_ramp_events. reflexivity.
  - rewrite app_nil_r. split; [reflexivity|].
    apply coast_calls_ramp_events.
Qed.

Lemma C6_jump_bracketing_witness :
  exists x w' evs,
    safeRampTo shipped idle (of_int 20) (of_int 75) w0 = Ok x w' /\
    trace w' = trace w0 ++ evs /\
    coast_calls evs = 2%nat /\ length (drive_calls evs) = 19%nat.
Proof.
  destruct (C6_jump_bracketing shipped idle (of_int 20) (of_int 75) w0 19
              ltac:(vm_compute; reflexivity) ltac:(vm_compute; reflexivity))
    as (x & w' & evs & Hrun & Htr & _ & _ & _ & Hjump & _).
  destruct (Hjump ltac:(vm_compute; reflexivity)) as (Hevs & Hc & _).
  exists x, w', evs. repeat split; try assumption.
  rewrite Hevs. vm_compute. reflexivity.
Defined.

(* ================================================================== *)
(** ** The shipped configuration *)
(* ================================================================== *)

Lemma faultActive_disabled cfg sig w :
  (FAULT_PIN cfg <? 0) = true -> faultActive cfg sig w = Ok false w.
Proof. unfold faultActive. now intros ->. Qed.

Lemma guardOverVoltage_disabled cfg sig w :
  (SUPPLY_ADC_PIN cfg <? 0) = true -> guardOverVoltage cfg sig w = Ok false w.
Proof. unfold guardOverVoltage, guardOverVoltage_vb. now intros ->. Qed.

Lemma after_disabled cfg w kp ka evs :
  (FAULT_PIN cfg <? 0) = true -> (SUPPLY_ADC_PIN cfg <? 0) = true ->
  after cfg w kp ka evs
  = {| now := advance evs (now w); pin_reads := pin_reads w;
       adc_reads := adc_reads w; trace := trace w ++ evs |}.
Proof. unfold after. now intros -> ->. Qed.

(** A loop body of a phase leaves the loop only when [faultActive()]
    says so. *)
Lemma phase_body_continues cfg sig {St} (pre : M unit) (ramp : M f32)
    (brk cont : f32 -> St) (hold : Z) w r w' :
  (FAULT_PIN cfg <? 0) = true ->
  (pre ;;
   lastPct <- ramp ;;
   f <- faultActive cfg sig ;;
   if f then coast ;; ret (true, brk lastPct)
   else delay hold ;; ret (false, cont lastPct)) w = Ok r w' ->
  fst r = false.
Proof.
  intros Hpin. unfold bind at 1. destruct (pre w) as [[] w1| |]; try discriminate.
  unfold bind at 1. destruct (ramp w1) as [l w2| |]; try discriminate.
  rewrite (bind_run _ _ _ _ _ (faultActive_disabled cfg sig w2 Hpin)).
  unfold bind, delay, ret. intros H. inversion H. reflexivity.
Qed.

(** C9. In a configuration with [FAULT_PIN = -1] and
    [SUPPLY_ADC_PIN = -1] (the shipped one) [faultActive()] always
    returns false and [guardOverVoltage()] always returns false without
    calling [coastFn] (the world is unchanged), so every [safeRampTo]
    call runs uninterrupted, LastCommandedDuty is never reset by an
    over-voltage, and no loop of a phase is left on a fault. *)
Theorem C9_shipped_interlocks_inert cfg sig :
  FAULT_PIN cfg = -1 ->
  SUPPLY_ADC_PIN cfg = -1 ->
  (forall w, faultActive cfg sig w = Ok false w) /\
  (forall w, guardOverVoltage cfg sig w = Ok false w) /\
  (forall lastPct targetPct w n,
     let delta := (clampPct targetPct - lastPct)%f32 in
     let stepSize := (delta / of_int n)%f32 in
     let evs := bracket_before delta
                ++ ramp_events (Z.to_nat n) stepSize lastPct
                ++ bracket_after delta in
     ramp_steps delta = Some n ->
     safeRampTo cfg sig lastPct targetPct w
     = Ok (ramp_final (Z.to_nat n) stepSize lastPct)
          {| now := advance evs (now w); pin_reads := pin_reads w;
             adc_reads := adc_reads w; trace := trace w ++ evs |}) /\
  (forall lastPct w r w',
     warmup_body cfg sig lastPct w = Ok r w' -> fst r = false) /\
  (forall s w r w',
     step_load_body cfg sig s w = Ok r w' -> fst r = false) /\
  (forall lastPct w r w',
     bursts_body cfg sig lastPct w = Ok r w' -> fst r = false) /\
  (forall lastPct w r w',
     soak_body cfg sig lastPct w = Ok r w' -> fst r = false).
Proof.
  intros Hf Hs.
  assert (Hfp : (FAULT_PIN cfg <? 0) = true) by now rewrite Hf.
  assert (Hsp : (SUPPLY_ADC_PIN cfg <? 0) = true) by now rewrite Hs.
  split; [intros; now apply faultActive_disabled|].
  split; [intros; now apply guardOverVoltage_disabled|].
  split.
  { intros L T w n delta s evs Hn.
    rewrite (safeRampTo_quiet cfg sig L T w n Hn).
    - f_equal. now apply after_disabled.
    - intros k _. unfold fault_at, trip_at. now rewrite Hfp, Hsp. }
  split.
  { intros L w r w' H.
    exact (phase_body_continues cfg sig (ret tt)
             (safeRampTo cfg sig L WARMUP_DUTY) (fun l => l) (fun l => l)
             10 w r w' Hfp H). }
  split.
  { intros s w r w' H.
    exact (phase_body_continues cfg sig (ret tt)
             (safeRampTo cfg sig (snd s) (if fst s then STEP_HIGH else STEP_LOW))
             (fun l => (fst s, l)) (fun l => (negb (fst s), l))
             STEP_HOLD_MS w r w' Hfp H). }
  split.
  { intros L w r w' H.
    refine (phase_body_continues cfg sig (coast ;; delay BURST_COAST_MS)
              (safeRampTo cfg sig L BURST_DUTY) (fun l => l) (fun l => l)
              BURST_ON_MS w r w' Hfp _).
    exact H. }
  { intros L w r w' H.
    exact (phase_body_continues cfg sig (ret tt)
             (safeRampTo cfg sig L SOAK_DUTY) (fun l => l) (fun l => l)
             20 w r w' Hfp H). }
Qed.

Lemma C9_shipped_interlocks_inert_witness :
  (forall w, faultActive shipped idle w = Ok false w) /\
  (forall w, guardOverVoltage shipped idle w = Ok false w) /\
  match warmup_body shipped idle f0 w0 with
  | Ok r _ => fst r = false
  | _ => False
  end.
Proof.
  pose proof (C9_shipped_interlocks_inert shipped idle eq_refl eq_refl)
    as (Hf & Hg & _ & Hw & _).
  split; [exact Hf|]. split; [exact Hg|].
  destruct (warmup_body shipped idle f0 w0) as [r w'| |] eqn:E.
  - exact (Hw _ _ _ _ E).
  - vm_compute in E. discriminate.
  - vm_compute in E. discriminate.
Defined.

(** The warm-up of the shipped board, from rest: it runs its 30000 ms
    (a 14-step ramp to 42.0, then 1057 one-step passes), never leaves
    the loop early, and ends coasting with LastCommandedDuty at 42.0. *)
Example do_warmup_shipped :
  match do_warmup shipped idle 1100 f0 w0 with
  | Ok x w' =>
      x = WARMUP_DUTY /\
      WARMUP_MS + BURST_COAST_MS <= now w' /\
      length (drive_calls (trace w')) = (14 + 1057)%nat /\
      coast_calls (trace w') = 3%nat
  | _ => False
  end.
Proof. vm_compute. repeat split. discriminate. Qed.

(* ================================================================== *)
(** ** A fault during the ramp *)
(* ================================================================== *)




(* ================================================================== *)
(** ** Ramping to the current duty *)
(* ================================================================== *)

Lemma in_range_cases x :
  (f0 <=? x)%f32 = true -> (x <=? f100)%f32 = true ->
  (exists s, x = S754_zero s) \/ (exists m e, x = S754_finite false m e).
Proof.
  destruct x as [s|s| |s m e]; try destruct s; try discriminate; eauto.
Qed.

Lemma sub_diag x :
  (f0 <=? x)%f32 = true -> (x <=? f100)%f32 = true -> (x - x)%f32 = f0.
Proof.
  intros H0 H1. destruct (in_range_cases x H0 H1) as [[s ->] | (m & e & ->)].
  - destruct s; reflexivity.
  - unfold F32.sub, SFsub. rewrite Z.sub_diag. reflexivity.
Qed.

Lemma add_f0 x :
  (f0 <=? x)%f32 = true -> (x <=? f100)%f32 = true ->
  eqb (x + f0)%f32 x = true.
Proof.
  intros H0 H1. destruct (in_range_cases x H0 H1) as [[s ->] | (m & e & ->)].
  - destruct s; reflexivity.
  - unfold F32.add, SFadd, f0, F32.eqb, SFeqb, SFcompare.
    rewrite Z.compare_refl.
    pose proof (Pos.compare_cont_refl m Eq) as H. simpl in H. now rewrite H.
Qed.

(** C8. Idempotence: for LastCommandedDuty [L] in [0,100], a ramp to a
    target whose clamped value is [L], with no fault and no
    over-voltage, leaves LastCommandedDuty equal to [L], makes exactly
    one [drive()] call, with duty [L], and no [coast()] call. *)
Theorem C8_idempotent_ramp cfg sig (L targetPct : f32) w :
  (f0 <=? L)%f32 = true -> (L <=? f100)%f32 = true ->
  clampPct targetPct = L ->
  quiet cfg sig w 2 = true ->
  exists x w' evs,
    safeRampTo cfg sig L targetPct w = Ok x w' /\
    eqb x L = true /\
    trace w' = trace w ++ evs /\
    evs = [Drive x; Delay SLEW_STEP_MS] /\
    drive_calls evs = [x] /\
    coast_calls evs = 0%nat.
Proof.
  intros H0 H1 HT Hq.
  assert (Hdelta : (clampPct targetPct - L)%f32 = f0)
    by (rewrite HT; now apply sub_diag).
  assert (Hn : ramp_steps (clampPct targetPct - L)%f32 = Some 1)
    by (rewrite Hdelta; vm_compute; reflexivity).
  pose proof (safeRampTo_quiet cfg sig L targetPct w 1 Hn
                (quiet_upto cfg sig w 1 Hq)) as Hrun.
  cbv zeta in Hrun. rewrite Hdelta in Hrun.
  change (f0 / of_int 1)%f32 with f0 in Hrun.
  change (bracket_before f0) with (@nil event) in Hrun.
  change (bracket_after f0) with (@nil event) in Hrun.
  change (Z.to_nat 1) with 1%nat in Hrun.
  cbn [ramp_final ramp_events app] in Hrun.
  eexists _, _, _. split; [exact Hrun|].
  split; [now apply add_f0|]. repeat split.
Qed.

Lemma C8_idempotent_ramp_witness :
  exists x w' evs,
    safeRampTo shipped idle (of_int 50) (of_int 50) w0 = Ok x w' /\
    eqb x (of_int 50) = true /\
    trace w' = trace w0 ++ evs /\
    evs = [Drive x; Delay SLEW_STEP_MS] /\
    drive_calls evs = [x] /\
    coast_calls evs = 0%nat.
Proof.
  apply (C8_idempotent_ramp shipped idle (of_int 50) (of_int 50) w0);
    vm_compute; reflexivity.
Defined.

(* ================================================================== *)
(** ** Magnitudes of binary32 results *)
(* ================================================================== *)

Lemma digits2_pos_bounds p :
  2 ^ (Zpos (digits2_pos p) - 1) <= Zpos p < 2 ^ Zpos (digits2_pos p).
Proof.
  induction p as [p IH|p IH|]; cbn [digits2_pos].
  - rewrite Pos2Z.inj_succ. replace (Z.succ (Zpos (digits2_pos p)) - 1)
      with (Z.succ (Zpos (digits2_pos p) - 1)) by lia.
    rewrite !Z.pow_succ_r by lia. lia.
  - rewrite Pos2Z.inj_succ. replace (Z.succ (Zpos (digits2_pos p)) - 1)
      with (Z.succ (Zpos (digits2_pos p) - 1)) by lia.
    rewrite !Z.pow_succ_r by lia. lia.
  - simpl. lia.
Qed.

Lemma Zdigits2_nonneg m : 0 <= Zdigits2 m.
Proof. destruct m; simpl; lia. Qed.

Lemma Zdigits2_upper m : 0 <= m -> m < 2 ^ Zdigits2 m.
Proof.
  destruct m as [|p|p]; simpl; try lia. intros _. apply digits2_pos_bounds.
Qed.

Lemma Zdigits2_le m k : 0 <= k -> Z.abs m < 2 ^ k -> Zdigits2 m <= k.
Proof.
  intros Hk Hm.
  assert (H : forall p, Zpos p < 2 ^ k -> Zpos (digits2_pos p) <= k).
  { intros p Hp. pose proof (digits2_pos_bounds p) as [Hl _].
    destruct (Z_le_gt_dec (Zpos (digits2_pos p)) k) as [|Hgt]; [assumption|].
    assert (2 ^ k <= 2 ^ (Zpos (digits2_pos p) - 1))
      by (apply Z.pow_le_mono_r; lia).
    lia. }
  destruct m as [|p|p]; simpl in *; [lia | now apply H | now apply H].
Qed.

Lemma Zdigits2_succ m : 0 <= m -> Zdigits2 (m + 1) <= Zdigits2 m + 1.
Proof.
  intros Hm. pose proof (Zdigits2_upper m Hm). pose proof (Zdigits2_nonneg m).
  apply Zdigits2_le; [lia|]. rewrite Z.pow_add_r by lia. lia.
Qed.

Lemma shr_1_spec mrs :
  0 <= shr_m mrs ->
  0 <= shr_m (shr_1 mrs) /\
  Zdigits2 (shr_m (shr_1 mrs)) = Z.max 0 (Zdigits2 (shr_m mrs) - 1).
Proof.
  destruct mrs as [m r s]. cbn [shr_m]. intros Hm.
  destruct m as [|[p|p|]|p]; cbn [shr_1 shr_m Zdigits2 digits2_pos];
    try rewrite Pos2Z.inj_succ; lia.
Qed.

Lemma iter_shr_1_spec p : forall mrs,
  0 <= shr_m mrs ->
  0 <= shr_m (iter_pos shr_1 p mrs) /\
  Zdigits2 (shr_m (iter_pos shr_1 p mrs))
  = Z.max 0 (Zdigits2 (shr_m mrs) - Zpos p).
Proof.
  induction p as [p IH|p IH|]; intros mrs Hm; cbn [iter_pos].
  - destruct (shr_1_spec mrs Hm) as [H1 E1].
    destruct (IH _ H1) as [H2 E2]. destruct (IH _ H2) as [H3 E3].
    split; [assumption|]. rewrite E3, E2, E1. lia.
  - destruct (IH _ Hm) as [H2 E2]. destruct (IH _ H2) as [H3 E3].
    split; [assumption|]. rewrite E3, E2. lia.
  - apply shr_1_spec, Hm.
Qed.

Lemma shr_m_of_loc m l : shr_m (shr_record_of_loc m l) = m.
Proof. destruct l as [|[]]; reflexivity. Qed.

Lemma fexp_32 k : fexp prec emax k = fexp32 k.
Proof. reflexivity. Qed.

Lemma shr_fexp_spec m e l :
  0 <= m ->
  0 <= shr_m (fst (shr_fexp prec emax m e l)) /\
  snd (shr_fexp prec emax m e l) = Z.max e (fexp32 (Zdigits2 m + e)) /\
  Zdigits2 (shr_m (fst (shr_fexp prec emax m e l)))
    + snd (shr_fexp prec emax m e l)
  <= Z.max (Zdigits2 m + e) (snd (shr_fexp prec emax m e l)).
Proof.
  intros Hm. unfold shr_fexp, shr. rewrite fexp_32.
  pose proof (Zdigits2_nonneg m) as Hd.
  destruct (fexp32 (Zdigits2 m + e) - e) as [|p|p] eqn:Hn; cbn [fst snd].
  - rewrite shr_m_of_loc. lia.
  - destruct (iter_shr_1_spec p (shr_record_of_loc m l)) as [H1 E1].
    { now rewrite shr_m_of_loc. }
    rewrite shr_m_of_loc in E1. rewrite E1. lia.
  - rewrite shr_m_of_loc. lia.
Qed.

Lemma round_nearest_even_spec m l :
  0 <= m ->
  0 <= round_nearest_even m l /\
  Zdigits2 (round_nearest_even m l) <= Zdigits2 m + 1.
Proof.
  intros Hm. pose proof (Zdigits2_succ m Hm).
  unfold round_nearest_even.
  destruct l as [|[]]; try destruct (Z.even m); lia.
Qed.

Lemma binary_round_aux_small s m e l K :
  0 <= m -> e <= 104 -> Zdigits2 m + e <= K -> -149 <= K <= 127 ->
  small (K + 1) s (binary_round_aux prec emax s m e l).
Proof.
  intros Hm He0 HK HKr. unfold binary_round_aux.
  pose proof (shr_fexp_spec m e l Hm) as (H1 & E1 & B1).
  destruct (shr_fexp prec emax m e l) as [mrs' e'] eqn:Hs1. cbn [fst snd] in *.
  pose proof (round_nearest_even_spec (shr_m mrs') (loc_of_shr_record mrs') H1)
    as [H2 B2].
  set (m2 := round_nearest_even (shr_m mrs') (loc_of_shr_record mrs')) in *.
  pose proof (shr_fexp_spec m2 e' loc_Exact H2) as (H3 & E3 & B3).
  destruct (shr_fexp prec emax m2 e' loc_Exact) as [mrs'' e''] eqn:Hs2.
  cbn [fst snd] in *.
  pose proof (Zdigits2_nonneg m) as Hd.
  pose proof (Zdigits2_nonneg (shr_m mrs')) as Hd1.
  pose proof (Zdigits2_nonneg m2) as Hd2.
  unfold fexp32 in *.
  destruct (shr_m mrs'') as [|p|p] eqn:Hm''; [reflexivity| |lia].
  cbn [Zdigits2] in B3.
  assert (He : e'' <= 104) by lia.
  change (emax - prec) with 104.
  destruct (e'' <=? 104) eqn:Hle; [|apply Z.leb_gt in Hle; lia].
  cbn [small]. split; [reflexivity|]. lia.
Qed.

Lemma digits2_pos_iter_xO m d :
  Zpos (digits2_pos (Pos.iter xO m d)) = Zpos (digits2_pos m) + Zpos d.
Proof.
  induction d as [|d IH] using Pos.peano_ind.
  - simpl. lia.
  - rewrite Pos.iter_succ. cbn [digits2_pos]. rewrite !Pos2Z.inj_succ, IH. lia.
Qed.

Lemma iter_xO_value m d : Zpos (Pos.iter xO m d) = Zpos m * 2 ^ Zpos d.
Proof.
  induction d as [|d IH] using Pos.peano_ind.
  - simpl. lia.
  - rewrite Pos.iter_succ, Pos2Z.inj_succ, Z.pow_succ_r by lia.
    rewrite Pos2Z.inj_xO, IH. lia.
Qed.

Lemma shl_align_spec m e e' :
  Zpos (digits2_pos (fst (shl_align m e e'))) + snd (shl_align m e e')
  = Zpos (digits2_pos m) + e /\
  snd (shl_align m e e') = Z.min e e' /\
  Zpos (fst (shl_align m e e')) = Zpos m * 2 ^ (e - Z.min e e').
Proof.
  unfold shl_align. destruct (e' - e) as [|d|d] eqn:Hd; cbn [fst snd].
  - replace (Z.min e e') with e by lia. rewrite Z.sub_diag. simpl. lia.
  - replace (Z.min e e') with e by lia. rewrite Z.sub_diag. simpl. lia.
  - replace (Z.min e e') with e' by lia.
    rewrite digits2_pos_iter_xO, iter_xO_value.
    replace (e - e') with (Zpos d) by lia. lia.
Qed.

Lemma binary_round_small s p e K :
  e <= 104 -> Zpos (digits2_pos p) + e <= K -> -149 <= K <= 127 ->
  small (K + 1) s (binary_round prec emax s p e).
Proof.
  intros He HK HKr. unfold binary_round.
  pose proof (shl_align_spec p e (fexp prec emax (Zpos (digits2_pos p) + e)))
    as (E1 & E2 & _).
  destruct (shl_align p e _) as [mz ez]. cbn [fst snd] in *.
  apply binary_round_aux_small; cbn [Zdigits2]; lia.
Qed.

Lemma binary_normalize_small m e sz K :
  e <= 104 -> Zdigits2 m + e <= K -> -149 <= K <= 127 ->
  exists s, small (K + 1) s (binary_normalize prec emax m e sz).
Proof.
  intros He HK HKr. destruct m as [|p|p]; cbn [binary_normalize].
  - exists sz. reflexivity.
  - exists false. now apply binary_round_small.
  - exists true. now apply binary_round_small.
Qed.

Lemma in_range_shape x :
  valid x = true -> (f0 <=? x)%f32 = true -> (x <=? f100)%f32 = true ->
  pct_shape x.
Proof.
  intros Hv H0 H1.
  destruct (in_range_cases x H0 H1) as [[s ->] | (m & e & ->)]; [exact I|].
  cbn [pct_shape]. split; [reflexivity|].
  unfold valid, valid_binary, bounded, canonical_mantissa in Hv.
  apply andb_true_iff in Hv. destruct Hv as [Hc _].
  apply Z.eqb_eq in Hc. rewrite fexp_32 in Hc. unfold fexp32 in Hc.
  assert (He : e <= -17).
  { unfold F32.leb, SFleb, SFcompare, f100 in H1.
    destruct (Z.compare e (-17)) eqn:Hcmp; try discriminate.
    - apply Z.compare_eq in Hcmp. lia.
    - rewrite Z.compare_lt_iff in Hcmp. lia. }
  lia.
Qed.

Lemma sub_small x y :
  pct_shape x -> pct_shape y -> exists s, small 8 s (x - y)%f32.
Proof.
  destruct x as [sx|sx| |sx mx ex], y as [sy|sy| |sy my ey];
    cbn [pct_shape]; try contradiction; intros Hx Hy.
  - destruct sx, sy; eexists; reflexivity.
  - destruct Hy as (-> & Hy & _). exists true. cbn. split; [reflexivity|lia].
  - destruct Hx as (-> & Hx & _). exists false. cbn. split; [reflexivity|lia].
  - destruct Hx as (-> & Hx & Hex), Hy as (-> & Hy & Hey).
    unfold F32.sub, SFsub. cbn [cond_Zopp].
    pose proof (shl_align_spec mx ex (Z.min ex ey)) as (Dx & Ex & _).
    pose proof (shl_align_spec my ey (Z.min ex ey)) as (Dy & Ey & _).
    destruct (shl_align mx ex (Z.min ex ey)) as [ax ez1].
    destruct (shl_align my ey (Z.min ex ey)) as [ay ez2].
    cbn [fst snd] in *.
    replace (8) with (7 + 1) by lia.
    apply binary_normalize_small; [lia| |lia].
    pose proof (digits2_pos_bounds ax) as [_ Hax].
    pose proof (digits2_pos_bounds ay) as [_ Hay].
    assert (Hpx : 2 ^ Zpos (digits2_pos ax) <= 2 ^ (7 - Z.min ex ey))
      by (apply Z.pow_le_mono_r; lia).
    assert (Hpy : 2 ^ Zpos (digits2_pos ay) <= 2 ^ (7 - Z.min ex ey))
      by (apply Z.pow_le_mono_r; lia).
    assert (Zdigits2 (Zpos ax - Zpos ay) <= 7 - Z.min ex ey)
      by (apply Zdigits2_le; lia).
    lia.
Qed.

Lemma fabsf_small K s x : small K s x -> small K false (fabsf x).
Proof.
  destruct x as [sx|sx| |sx m e]; cbn; try contradiction; intuition.
Qed.

(** The quotient of two finite numbers is below [2^(K+1)] when the
    dividend is below [2^(d2 + e2 + K - 1)]. *)
Lemma div_small s1 m1 e1 s2 m2 e2 K :
  Zpos (digits2_pos m1) + e1 - (Zpos (digits2_pos m2) + e2) + 1 <= K ->
  -149 <= K <= 127 ->
  small (K + 1) (xorb s1 s2)
    (S754_finite s1 m1 e1 / S754_finite s2 m2 e2)%f32.
Proof.
  intros HK HKr. unfold F32.div, SFdiv, SFdiv_core_binary.
  cbn [Zdigits2]. rewrite fexp_32. unfold fexp32.
  set (d1 := Zpos (digits2_pos m1)) in *.
  set (d2 := Zpos (digits2_pos m2)) in *.
  set (e' := Z.min (Z.max (d1 + e1 - (d2 + e2) - 24) (-149)) (e1 - e2)).
  set (s := e1 - e2 - e').
  assert (Hs : 0 <= s) by (unfold s, e'; lia).
  set (m' := match s with Z.pos _ => Z.shiftl (Zpos m1) s
                        | 0 => Zpos m1 | Z.neg _ => 0 end).
  assert (Hm' : m' = Zpos m1 * 2 ^ s).
  { unfold m'. destruct s as [|p|p] eqn:Es; [simpl; lia| |lia].
    now rewrite Z.shiftl_mul_pow2 by lia. }
  pose proof (Z_div_mod m' (Zpos m2) eq_refl) as Hdiv.
  destruct (Z.div_eucl m' (Zpos m2)) as [q r]. destruct Hdiv as [Hq Hr].
  pose proof (digits2_pos_bounds m1) as [_ Hm1]. fold d1 in Hm1.
  pose proof (digits2_pos_bounds m2) as [Hm2 _]. fold d2 in Hm2.
  assert (Hpow : 0 < 2 ^ s) by (apply Z.pow_pos_nonneg; lia).
  assert (Hq0 : 0 <= q) by nia.
  apply binary_round_aux_small; [exact Hq0 | unfold e'; lia | | lia].
  destruct (Z.eq_dec q 0) as [->|Hqn]; [simpl; unfold e'; lia|].
  assert (Hlt : m' < 2 ^ (d1 + s)).
  { rewrite Hm', Z.pow_add_r by (unfold d1; lia). nia. }
  assert (Hbig : d2 - 1 <= d1 + s).
  { destruct (Z_lt_le_dec (d1 + s) (d2 - 1)) as [Hsm|]; [|assumption].
    assert (2 ^ (d1 + s) <= 2 ^ (d2 - 1)) by (apply Z.pow_le_mono_r; lia).
    nia. }
  assert (Hq2 : q < 2 ^ (d1 + s - (d2 - 1))).
  { replace (d1 + s) with ((d2 - 1) + (d1 + s - (d2 - 1))) in Hlt by lia.
    rewrite Z.pow_add_r in Hlt by (unfold d2; lia).
    assert (0 < 2 ^ (d1 + s - (d2 - 1))) by (apply Z.pow_pos_nonneg; lia).
    assert (0 < 2 ^ (d2 - 1)) by (apply Z.pow_pos_nonneg; unfold d2; lia).
    nia. }
  assert (Zdigits2 q <= d1 + s - (d2 - 1)) by (apply Zdigits2_le; lia).
  unfold s, e' in *. lia.
Qed.

(** Division by [3.0f] of a positive number below [2^8]. *)
Lemma div3_small x :
  small 8 false x -> small 8 false (x / MAX_SLEW_STEP_PCT)%f32.
Proof.
  destruct x as [sx|sx| |sx m1 e1]; cbn [small]; try contradiction.
  - intros ->. reflexivity.
  - intros [-> Hx]. unfold MAX_SLEW_STEP_PCT.
    apply (div_small false m1 e1 false 12582912 (-22) 7); [|lia].
    change (Zpos (digits2_pos 12582912)) with 24. lia.
Qed.

Lemma step_counts_ok c : 1 <= c <= 256 -> step_count_ok c = true.
Proof.
  intros Hc.
  assert (H : forallb step_count_ok (map Z.of_nat (seq 1 256)) = true)
    by (vm_compute; reflexivity).
  rewrite forallb_forall in H. apply H.
  apply in_map_iff. exists (Z.to_nat c). split; [lia|].
  apply in_seq. lia.
Qed.

Lemma of_int_step c :
  1 <= c <= 256 ->
  to_int (of_int c) = Some c /\ exists m e, of_int c = S754_finite false m e.
Proof.
  intros Hc. pose proof (step_counts_ok c Hc) as H. unfold step_count_ok in H.
  destruct (of_int c) as [| | |[] m e]; try discriminate.
  destruct (to_int _) as [v|]; try discriminate.
  apply Z.eqb_eq in H. subst v. eauto.
Qed.

Lemma to_int_ceilf_small x :
  small 8 false x -> exists c, to_int (ceilf x) = Some c /\ 0 <= c <= 256.
Proof.
  destruct x as [sx|sx| |sx m e]; cbn [small]; try contradiction.
  - intros _. exists 0. split; [reflexivity|lia].
  - intros [-> Hx]. pose proof (digits2_pos_bounds m) as [_ Hm].
    set (d := Zpos (digits2_pos m)) in *.
    unfold ceilf. destruct (0 <=? e) eqn:He.
    + pose proof (proj1 (Z.leb_le _ _) He) as He'. exists (Zpos m * 2 ^ e).
      assert (Hb : Zpos m * 2 ^ e < 2 ^ 8).
      { apply Z.lt_le_trans with (2 ^ (d + e)).
        - rewrite Z.pow_add_r by (unfold d; lia).
          assert (0 < 2 ^ e) by (apply Z.pow_pos_nonneg; lia). nia.
        - apply Z.pow_le_mono_r; lia. }
      assert (0 < 2 ^ e) by (apply Z.pow_pos_nonneg; lia).
      change (2 ^ 8) with 256 in Hb.
      unfold to_int, trunc. rewrite He. cbn [cond_Zopp].
      unfold INT_MIN, INT_MAX.
      destruct (- 2 ^ 31 <=? Zpos m * 2 ^ e) eqn:H1;
        [|apply Z.leb_gt in H1; change (2 ^ 31) with 2147483648 in H1; nia].
      destruct (Zpos m * 2 ^ e <=? 2 ^ 31 - 1) eqn:H2;
        [|apply Z.leb_gt in H2; change (2 ^ 31) with 2147483648 in H2; lia].
      split; [reflexivity | nia].
    + apply Z.leb_gt in He. cbn [cond_Zopp].
      set (p2 := 2 ^ (- e)).
      assert (Hp2 : 0 < p2) by (apply Z.pow_pos_nonneg; lia).
      assert (Hmb : Zpos m < 256 * p2).
      { apply Z.lt_le_trans with (2 ^ d); [exact Hm|].
        change 256 with (2 ^ 8). unfold p2.
        rewrite <- Z.pow_add_r by lia. apply Z.pow_le_mono_r; lia. }
      set (c := - (- Zpos m / p2)).
      assert (Hc : 1 <= c <= 256).
      { unfold c. split.
        - assert (- Zpos m / p2 < 0)
            by (apply Z.div_lt_upper_bound; lia). lia.
        - assert (- 256 <= - Zpos m / p2)
            by (apply Z.div_le_lower_bound; lia). lia. }
      destruct (c =? 0) eqn:Hc0; [apply Z.eqb_eq in Hc0; lia|].
      exists c. split; [|lia].
      destruct c as [|pc|pc]; try lia.
      exact (proj1 (of_int_step (Zpos pc) Hc)).
Qed.

(** In range, the step count is defined and small. *)
Lemma ramp_steps_defined (L T : f32) :
  pct_shape L -> pct_shape T ->
  exists n, ramp_steps (T - L)%f32 = Some n /\ 1 <= n <= 256.
Proof.
  intros HL HT. destruct (sub_small T L HT HL) as [s Hs].
  pose proof (div3_small _ (fabsf_small _ _ _ Hs)) as Hq.
  destruct (to_int_ceilf_small _ Hq) as (c & Hc & Hcr).
  unfold ramp_steps. rewrite Hc.
  destruct (c <? 1) eqn:Hlt; eexists; (split; [reflexivity|]).
  - lia.
  - apply Z.ltb_ge in Hlt. lia.
Qed.

Lemma compare_not_nan x y :
  is_nan x = false -> is_nan y = false -> SFcompare x y <> None.
Proof.
  destruct x as [| | |], y as [| | |]; simpl; congruence.
Qed.

Lemma not_ltb_leb x y :
  is_nan x = false -> is_nan y = false ->
  (x <? y)%f32 = false -> (y <=? x)%f32 = true.
Proof.
  intros Hx Hy. unfold F32.ltb, F32.leb, SFltb, SFleb.
  rewrite (SFcompare_antisym x y).
  pose proof (compare_not_nan x y Hx Hy).
  destruct (SFcompare x y) as [[]|]; simpl; congruence.
Qed.

(** The clamp property: whatever is asked for, short of a NaN. *)
Lemma clampPct_in_range p :
  is_nan p = false ->
  (f0 <=? clampPct p)%f32 = true /\ (clampPct p <=? f100)%f32 = true.
Proof.
  intros Hp. unfold clampPct.
  destruct (p <? f0)%f32 eqn:H0; [split; reflexivity|].
  destruct (f100 <? p)%f32 eqn:H1; [split; reflexivity|].
  split.
  - now apply not_ltb_leb.
  - now apply not_ltb_leb.
Qed.

Lemma clampPct_valid p : valid p = true -> valid (clampPct p) = true.
Proof.
  intros Hp. unfold clampPct.
  destruct (p <? f0)%f32; [reflexivity|].
  destruct (f100 <? p)%f32; [reflexivity | exact Hp].
Qed.

Lemma clampPct_shape p :
  valid p = true -> is_nan p = false -> pct_shape (clampPct p).
Proof.
  intros Hv Hn. destruct (clampPct_in_range p Hn).
  apply in_range_shape; [now apply clampPct_valid | assumption | assumption].
Qed.

(* ================================================================== *)
(** ** Results that are numbers *)
(* ================================================================== *)

Lemma round_aux_not_nan s m e l :
  0 <= m -> is_nan (binary_round_aux prec emax s m e l) = false.
Proof.
  intros Hm. unfold binary_round_aux.
  pose proof (shr_fexp_spec m e l Hm) as (H1 & _).
  destruct (shr_fexp prec emax m e l) as [mrs' e']. cbn [fst snd] in *.
  pose proof (round_nearest_even_spec (shr_m mrs') (loc_of_shr_record mrs') H1)
    as [H2 _].
  pose proof (shr_fexp_spec _ e' loc_Exact H2) as (H3 & _).
  destruct (shr_fexp prec emax _ e' loc_Exact) as [mrs'' e''].
  cbn [fst snd] in *.
  destruct (shr_m mrs'') as [|p|p]; [reflexivity| |lia].
  destruct (e'' <=? emax - prec); reflexivity.
Qed.

Lemma binary_normalize_not_nan m e sz :
  is_nan (binary_normalize prec emax m e sz) = false.
Proof.
  destruct m as [|p|p]; cbn [binary_normalize]; [reflexivity| |];
    unfold binary_round; destruct (shl_align p e _) as [mz ez];
    apply round_aux_not_nan; lia.
Qed.

Lemma div_finite_not_nan s1 m1 e1 s2 m2 e2 :
  is_nan (S754_finite s1 m1 e1 / S754_finite s2 m2 e2)%f32 = false.
Proof.
  unfold F32.div, SFdiv, SFdiv_core_binary.
  match goal with |- context [Z.div_eucl ?a ?b] =>
    pose proof (Z_div_mod a b eq_refl) as Hdiv;
    assert (Ha : 0 <= a);
    [| destruct (Z.div_eucl a b) as [q r] ] end.
  - match goal with |- 0 <= match ?s with _ => _ end =>
      destruct s as [|p|p] eqn:Es end; try lia.
    apply Z.shiftl_nonneg. lia.
  - destruct Hdiv as [Hq Hr]. apply round_aux_not_nan. nia.
Qed.

Lemma summable_not_nan s x : summable s x -> is_nan x = false.
Proof. destruct x, s; simpl; intros H; try reflexivity; contradiction. Qed.

Lemma summable_add s x : summable s x -> summable s (x + s)%f32.
Proof.
  destruct x as [sx|sx| |sx mx ex], s as [ss|ss| |ss ms es];
    cbn [summable]; try contradiction; intros H;
    try (destruct sx, ss; try discriminate; exact I);
    try (destruct sx, ss; try discriminate; reflexivity);
    try exact I.
  unfold F32.add, SFadd.
  match goal with |- summable _ (binary_normalize _ _ ?m ?e ?z) =>
    pose proof (binary_normalize_not_nan m e z) as Hn;
    destruct (binary_normalize prec emax m e z) end;
    try discriminate; exact I.
Qed.

Lemma summable_ramp_final s k : forall x,
  summable s x -> summable s (ramp_final k s x).
Proof.
  induction k as [|k IH]; intros x Hx; [exact Hx|].
  cbn [ramp_final]. apply IH, summable_add, Hx.
Qed.

(** Every duty an uninterrupted loop passes to [drive()] is some
    [ramp_final j]. *)
Lemma drive_calls_ramp_events_Forall (P : f32 -> Prop) s k : forall x,
  (forall j, P (ramp_final j s x)) ->
  Forall P (drive_calls (ramp_events k s x)).
Proof.
  induction k as [|k IH]; intros x HP; [constructor|].
  cbn [ramp_events drive_calls]. constructor.
  - exact (HP 1%nat).
  - apply IH. intros j. exact (HP (S j)).
Qed.

(** The step of a ramp inside [0, 100] is not a NaN. *)
Lemma step_summable (L T : f32) n :
  pct_shape L -> pct_shape T -> 1 <= n <= 256 ->
  summable ((T - L) / of_int n)%f32 L.
Proof.
  intros HL HT Hn. destruct (sub_small T L HT HL) as [s Hs].
  destruct (of_int_step n Hn) as (_ & m & e & ->).
  assert (Hnan : is_nan ((T - L) / S754_finite false m e)%f32 = false).
  { destruct (T - L)%f32 as [sd|sd| |sd md ed]; cbn [small] in Hs;
      try contradiction; [reflexivity | apply div_finite_not_nan]. }
  revert Hnan. generalize ((T - L) / S754_finite false m e)%f32. intros st Hst.
  destruct L as [sl|sl| |sl ml el]; cbn [pct_shape] in HL; try contradiction;
    destruct st; try discriminate; exact I.
Qed.

(* ================================================================== *)
(** ** Runs on arbitrary signals *)
(* ================================================================== *)

Section AnyRun.

Variable cfg : Config.
Variable sig : Signals.

Lemma faultActive_any w :
  exists b w', faultActive cfg sig w = Ok b w' /\ trace w' = trace w.
Proof.
  unfold faultActive. destruct (FAULT_PIN cfg <? 0).
  - exists false, w. split; reflexivity.
  - unfold bind, digitalRead, ret. eexists _, _. split; reflexivity.
Qed.

Lemma guardOverVoltage_any w :
  exists b w' evs,
    guardOverVoltage cfg sig w = Ok b w' /\
    trace w' = trace w ++ evs /\ drive_calls evs = [].
Proof.
  destruct (SUPPLY_ADC_PIN cfg <? 0) eqn:Hpin.
  - exists false, w, []. rewrite guardOverVoltage_disabled by assumption.
    rewrite app_nil_r. repeat split.
  - destruct (ov_trip (vbus_at cfg sig (adc_reads w))) eqn:Htrip.
    + destruct (guard_trip_flag cfg sig w Hpin Htrip)
        as (k & vb' & w' & Hrun & _ & Htr & _).
      exists true, w', (Coast :: repeat (Delay OV_POLL_MS) k).
      split; [exact Hrun|]. split; [exact Htr | apply drive_calls_wait].
    + unfold guardOverVoltage, guardOverVoltage_vb. rewrite Hpin.
      unfold bind at 1 2. rewrite readVbusVolts_enabled by assumption.
      rewrite Htrip. unfold ret. cbn [fst].
      eexists _, _, []. split; [reflexivity|]. cbn [trace].
      rewrite app_nil_r. split; reflexivity.
Qed.

Lemma ramp_loop_any n s : forall x w,
  exists b x' w' evs,
    ramp_loop cfg sig n s x w = Ok (b, x') w' /\
    trace w' = trace w ++ evs /\
    (exists k, (k <= n)%nat /\
               drive_calls evs = drive_calls (ramp_events k s x)) /\
    (x' = f0 \/ exists j, (j <= n)%nat /\ x' = ramp_final j s x).
Proof.
  induction n as [|n IH]; intros x w.
  - exists false, x, w, []. rewrite app_nil_r.
    repeat split; [exists O | right; exists O]; split; auto.
  - cbn [ramp_loop].
    destruct (faultActive_any w) as (b1 & w1 & Hf & Htr1).
    rewrite (bind_run _ _ _ _ _ Hf). destruct b1.
    + unfold bind, coast, emit, ret. cbn [trace].
      eexists true, _, _, [Coast]. split; [reflexivity|].
      rewrite Htr1. repeat split; [exists O | right; exists 1%nat];
        split; auto; lia.
    + destruct (guardOverVoltage_any w1) as (b2 & w2 & evs2 & Hg & Htr2 & Hd2).
      rewrite (bind_run _ _ _ _ _ Hg). destruct b2.
      * unfold ret. exists true, f0, w2, evs2. rewrite Htr2, Htr1.
        repeat split; [exists O; split; [lia | exact Hd2] | now left].
      * unfold bind at 1, drive at 1, emit at 1.
        unfold bind at 1, delay at 1.
        match goal with |- context [ramp_loop cfg sig n s ?x1 ?w3] =>
          destruct (IH x1 w3)
            as (b & x' & w' & evs & Hrun & Htr & (k & Hkn & Hk) & Hx)
        end.
        cbn [trace now pin_reads adc_reads] in Htr.
        exists b, x', w',
          (evs2 ++ [Drive (x + s)%f32; Delay SLEW_STEP_MS] ++ evs).
        split; [exact Hrun|]. split.
        { rewrite Htr, Htr2, Htr1, <- !app_assoc. reflexivity. }
        split.
        { exists (S k). split; [lia|]. rewrite !drive_calls_app, Hd2.
          cbn [app drive_calls ramp_events]. now rewrite Hk. }
        { destruct Hx as [Hx | (j & Hjn & Hx)]; [now left|].
          right. exists (S j). split; [lia | exact Hx]. }
Qed.

(** [safeRampTo] returns whatever the inputs do, provided the step
    count is defined; what it drove is a prefix of the uninterrupted
    steps, and LastCommandedDuty is 0 or one of their values. *)
Lemma safeRampTo_any L T w n :
  let delta := (clampPct T - L)%f32 in
  let s := (delta / of_int n)%f32 in
  ramp_steps delta = Some n ->
  exists x w' evs,
    safeRampTo cfg sig L T w = Ok x w' /\
    trace w' = trace w ++ evs /\
    (exists k, (k <= Z.to_nat n)%nat /\
               drive_calls evs = drive_calls (ramp_events k s L)) /\
    (x = f0 \/ exists j, (j <= Z.to_nat n)%nat /\ x = ramp_final j s L).
Proof.
  intros delta s Hn. unfold safeRampTo. fold delta.
  destruct (faultActive_any w) as (b1 & w1 & Hf & Htr1).
  rewrite (bind_run _ _ _ _ _ Hf). destruct b1.
  - unfold bind, coast, emit, ret. cbn [trace].
    eexists L, _, [Coast]. split; [reflexivity|]. rewrite Htr1.
    repeat split; [exists O | right; exists O]; split; auto; lia.
  - destruct (guardOverVoltage_any w1) as (b2 & w2 & evs2 & Hg & Htr2 & Hd2).
    rewrite (bind_run _ _ _ _ _ Hg). destruct b2.
    + unfold ret. exists f0, w2, evs2. rewrite Htr2, Htr1.
      repeat split; [exists O; split; [lia | exact Hd2] | now left].
    + rewrite Hn. fold s.
      assert (Hpre : exists w3 evs3,
                (if is_jump delta then coast ;; delay COAST_BEFORE_JUMP_MS
                 else ret tt) w2 = Ok tt w3 /\
                trace w3 = trace w2 ++ evs3 /\ drive_calls evs3 = []).
      { destruct (is_jump delta).
        - eexists _, [Coast; Delay COAST_BEFORE_JUMP_MS].
          unfold bind, coast, emit, delay. cbn [trace].
          split; [reflexivity|]. rewrite <- app_assoc. split; reflexivity.
        - exists w2, []. rewrite app_nil_r. repeat split. }
      destruct Hpre as (w3 & evs3 & Hp & Htr3 & Hd3).
      rewrite (bind_run _ _ _ _ _ Hp).
      destruct (ramp_loop_any (Z.to_nat n) s L w3)
        as (b & x' & w4 & evs4 & Hrun & Htr4 & (k & Hkn & Hk) & Hx).
      rewrite (bind_run _ _ _ _ _ Hrun). cbn [fst snd].
      destruct b.
      * unfold ret. exists x', w4, (evs2 ++ evs3 ++ evs4).
        split; [reflexivity|]. split.
        { rewrite Htr4, Htr3, Htr2, Htr1, <- !app_assoc. reflexivity. }
        split; [|exact Hx].
        exists k. split; [exact Hkn|].
        now rewrite !drive_calls_app, Hd2, Hd3.
      * assert (Hpost : exists w5 evs5,
                  (if is_jump delta then coast ;; delay COAST_AFTER_JUMP_MS
                   else ret tt) w4 = Ok tt w5 /\
                  trace w5 = trace w4 ++ evs5 /\ drive_calls evs5 = []).
        { destruct (is_jump delta).
          - eexists _, [Coast; Delay COAST_AFTER_JUMP_MS].
            unfold bind, coast, emit, delay. cbn [trace].
            split; [reflexivity|]. rewrite <- app_assoc. split; reflexivity.
          - exists w4, []. rewrite app_nil_r. repeat split. }
        destruct Hpost as (w5 & evs5 & Hq & Htr5 & Hd5).
        rewrite (bind_run _ _ _ _ _ Hq). unfold ret.
        exists x', w5, (evs2 ++ evs3 ++ evs4 ++ evs5).
        split; [reflexivity|]. split.
        { rewrite Htr5, Htr4, Htr3, Htr2, Htr1, <- !app_assoc. reflexivity. }
        split; [|exact Hx].
        exists k. split; [exact Hkn|].
        now rewrite !drive_calls_app, Hd2, Hd3, Hd5, app_nil_r.
Qed.

End AnyRun.

(* ================================================================== *)
(** ** Ramps between whole-number duties *)
(* ================================================================== *)

Lemma drive_calls_bracket_before delta : drive_calls (bracket_before delta) = [].
Proof. unfold bracket_before. now destruct (is_jump delta). Qed.

Lemma drive_calls_bracket_after delta : drive_calls (bracket_after delta) = [].
Proof. unfold bracket_after. now destruct (is_jump delta). Qed.

(** All ramps between whole-number duties of [0, 100], by evaluation. *)
Lemma grid_ok :
  forallb (fun l => forallb (grid_ramp_ok l) (seq 0 101)) (seq 0 101) = true.
Proof. vm_compute. reflexivity. Qed.

Lemma grid_ramp l t :
  (l <= 100)%nat -> (t <= 100)%nat -> grid_ramp_ok l t = true.
Proof.
  intros Hl Ht. pose proof grid_ok as H.
  rewrite forallb_forall in H. specialize (H l).
  rewrite in_seq in H. specialize (H ltac:(lia)).
  rewrite forallb_forall in H. apply H. apply in_seq. lia.
Qed.

Lemma drive_calls_ramp_prefix s k : forall n x,
  (k <= n)%nat ->
  exists rest,
    drive_calls (ramp_events n s x) = drive_calls (ramp_events k s x) ++ rest.
Proof.
  induction k as [|k IH]; intros n x Hk.
  - eexists. reflexivity.
  - destruct n as [|n]; [lia|].
    destruct (IH n (x + s)%f32 ltac:(lia)) as [rest Hrest].
    exists rest. cbn [ramp_events drive_calls]. now rewrite Hrest.
Qed.

Lemma ramp_final_driven s j : forall n x,
  (1 <= j <= n)%nat -> In (ramp_final j s x) (drive_calls (ramp_events n s x)).
Proof.
  induction j as [|j IH]; intros n x Hj; [lia|].
  destruct n as [|n]; [lia|]. cbn [ramp_events drive_calls ramp_final].
  destruct j as [|j]; [now left|].
  right. apply IH. lia.
Qed.

Lemma Forall_drive_calls_prefix (P : f32 -> Prop) s L k evs :
  (forall j, P (ramp_final j s L)) ->
  drive_calls evs = drive_calls (ramp_events k s L) ->
  Forall P (drive_calls evs).
Proof. intros HP ->. now apply drive_calls_ramp_events_Forall. Qed.

Lemma ledc_drive_pct_in_range d :
  is_nan d = false ->
  (f0 <=? ledc_drive_pct d)%f32 = true /\ (ledc_drive_pct d <=? f100)%f32 = true.
Proof.
  intros Hd. destruct (clampPct_in_range d Hd) as [H0 H1].
  unfold ledc_drive_pct, MIN_EFFECTIVE_LEDC.
  destruct (clampPct d <? f0)%f32; [split; reflexivity | now split].
Qed.

(* ================================================================== *)
(** ** Rounding against a bound *)
(* ================================================================== *)

Lemma shr_1_value mrs :
  0 <= shr_m mrs ->
  2 * shr_m (shr_1 mrs) <= shr_m mrs <= 2 * shr_m (shr_1 mrs) + 1 /\
  (shr_r mrs = false -> shr_s mrs = false ->
   shr_m mrs = 2 * shr_m (shr_1 mrs) ->
   shr_r (shr_1 mrs) = false /\ shr_s (shr_1 mrs) = false).
Proof.
  destruct mrs as [m r s]. cbn [shr_m shr_r shr_s]. intros Hm.
  destruct m as [|[p|p|]|p]; cbn [shr_1 shr_m shr_r shr_s]; try lia;
    (split; [lia|]); intros -> ->; intros H; try lia; split; reflexivity.
Qed.

Lemma iter_shr_1_value p : forall mrs,
  0 <= shr_m mrs ->
  shr_m (iter_pos shr_1 p mrs) * 2 ^ Zpos p <= shr_m mrs
    < (shr_m (iter_pos shr_1 p mrs) + 1) * 2 ^ Zpos p /\
  (shr_r mrs = false -> shr_s mrs = false ->
   shr_m mrs = shr_m (iter_pos shr_1 p mrs) * 2 ^ Zpos p ->
   shr_r (iter_pos shr_1 p mrs) = false /\
   shr_s (iter_pos shr_1 p mrs) = false).
Proof.
  induction p as [p IH|p IH|]; intros mrs Hm; cbn [iter_pos].
  - destruct (shr_1_value mrs Hm) as [V1 X1].
    destruct (shr_1_spec mrs Hm) as [H1 _].
    destruct (IH _ H1) as [V2 X2].
    destruct (iter_shr_1_spec p _ H1) as [H2 _].
    destruct (IH _ H2) as [V3 X3].
    set (m1 := shr_m (shr_1 mrs)) in *.
    set (m2 := shr_m (iter_pos shr_1 p (shr_1 mrs))) in *.
    set (m3 := shr_m (iter_pos shr_1 p (iter_pos shr_1 p (shr_1 mrs)))) in *.
    replace (Zpos p~1) with (Zpos p + Zpos p + 1) by lia.
    rewrite !Z.pow_add_r by lia. change (2 ^ 1) with 2.
    assert (Ha : 0 < 2 ^ Zpos p) by (apply Z.pow_pos_nonneg; lia).
    set (a := 2 ^ Zpos p) in *.
    assert (Hlo : m3 * (a * a * 2) <= shr_m mrs) by nia.
    assert (Hhi : shr_m mrs < (m3 + 1) * (a * a * 2)) by nia.
    split; [lia|]. intros Hr Hs He.
    assert (E1 : shr_m mrs = 2 * m1) by nia.
    assert (E2 : m1 = m2 * a) by nia.
    assert (E3 : m2 = m3 * a) by nia.
    destruct (X1 Hr Hs E1) as [Hr1 Hs1].
    destruct (X2 Hr1 Hs1 E2) as [Hr2 Hs2].
    exact (X3 Hr2 Hs2 E3).
  - destruct (IH _ Hm) as [V2 X2].
    destruct (iter_shr_1_spec p _ Hm) as [H2 _].
    destruct (IH _ H2) as [V3 X3].
    set (m2 := shr_m (iter_pos shr_1 p mrs)) in *.
    set (m3 := shr_m (iter_pos shr_1 p (iter_pos shr_1 p mrs))) in *.
    replace (Zpos p~0) with (Zpos p + Zpos p) by lia.
    rewrite !Z.pow_add_r by lia.
    assert (Ha : 0 < 2 ^ Zpos p) by (apply Z.pow_pos_nonneg; lia).
    set (a := 2 ^ Zpos p) in *.
    assert (Hlo : m3 * (a * a) <= shr_m mrs) by nia.
    assert (Hhi : shr_m mrs < (m3 + 1) * (a * a)) by nia.
    split; [lia|]. intros Hr Hs He.
    assert (E2 : shr_m mrs = m2 * a) by nia.
    assert (E3 : m2 = m3 * a) by nia.
    destruct (X2 Hr Hs E2) as [Hr2 Hs2].
    exact (X3 Hr2 Hs2 E3).
  - change (2 ^ 1) with 2. destruct (shr_1_value mrs Hm) as [V1 X1].
    split; [lia|]. intros Hr Hs He. apply X1; [assumption|assumption|lia].
Qed.

Lemma loc_of_record_exact mrs :
  shr_r mrs = false -> shr_s mrs = false -> loc_of_shr_record mrs = loc_Exact.
Proof. destruct mrs as [m r s]. cbn. now intros -> ->. Qed.

(** What [shr_fexp] does to the value: the mantissa is divided by
    [2^(e' - e)] rounding down, and an exact multiple stays exact. *)
Lemma shr_fexp_value m e l :
  0 <= m ->
  let m' := shr_m (fst (shr_fexp prec emax m e l)) in
  let e' := snd (shr_fexp prec emax m e l) in
  e <= e' /\
  m' * 2 ^ (e' - e) <= m < (m' + 1) * 2 ^ (e' - e) /\
  (l = loc_Exact -> m = m' * 2 ^ (e' - e) ->
   loc_of_shr_record (fst (shr_fexp prec emax m e l)) = loc_Exact).
Proof.
  intros Hm. unfold shr_fexp, shr. rewrite fexp_32.
  destruct (fexp32 (Zdigits2 m + e) - e) as [|p|p] eqn:Hn; cbn [fst snd].
  - rewrite shr_m_of_loc, Z.sub_diag. change (2 ^ 0) with 1.
    split; [lia|]. split; [lia|]. now intros ->.
  - destruct (iter_shr_1_value p (shr_record_of_loc m l)) as [V X].
    { now rewrite shr_m_of_loc. }
    rewrite shr_m_of_loc in V, X.
    replace (e + Zpos p - e) with (Zpos p) by lia.
    split; [lia|]. split; [exact V|].
    intros -> He. apply loc_of_record_exact; apply X; auto.
  - rewrite shr_m_of_loc, Z.sub_diag. change (2 ^ 0) with 1.
    split; [lia|]. split; [lia|]. now intros ->.
Qed.

Lemma round_nearest_even_value m l :
  m <= round_nearest_even m l <= m + 1 /\
  (l = loc_Exact -> round_nearest_even m l = m).
Proof.
  unfold round_nearest_even.
  destruct l as [|[]]; try destruct (Z.even m); split; try lia;
    intros; congruence.
Qed.

Lemma pow2_split a b : 0 <= a -> 0 <= b -> 2 ^ (a + b) = 2 ^ a * 2 ^ b.
Proof. intros. now apply Z.pow_add_r. Qed.

(** Rounding does not cross a binary32 number: a value that is not
    above [M * 2^E] rounds to a number that is not either. *)
Lemma round_aux_below s m e l M E :
  0 <= m -> e <= E -> -149 <= E <= 104 -> Zpos M < 2 ^ 24 ->
  (m < Zpos M * 2 ^ (E - e) \/ (m = Zpos M * 2 ^ (E - e) /\ l = loc_Exact)) ->
  s = false ->
  below M E (binary_round_aux prec emax s m e l).
Proof.
  intros Hm HeE HE HM Hv ->. unfold binary_round_aux.
  pose proof (shr_fexp_spec m e l Hm) as (H1 & E1 & B1).
  pose proof (shr_fexp_value m e l Hm) as (L1 & V1 & X1). cbv zeta in V1, X1, L1.
  destruct (shr_fexp prec emax m e l) as [mrs' e'] eqn:Hs1. cbn [fst snd] in *.
  pose proof (round_nearest_even_spec (shr_m mrs') (loc_of_shr_record mrs') H1)
    as [H2 B2].
  pose proof (round_nearest_even_value (shr_m mrs') (loc_of_shr_record mrs'))
    as [V2 X2].
  set (m2 := round_nearest_even (shr_m mrs') (loc_of_shr_record mrs')) in *.
  pose proof (shr_fexp_spec m2 e' loc_Exact H2) as (H3 & E3 & B3).
  pose proof (shr_fexp_value m2 e' loc_Exact H2) as (L3 & V3 & _).
  cbv zeta in V3, L3.
  destruct (shr_fexp prec emax m2 e' loc_Exact) as [mrs'' e''] eqn:Hs2.
  cbn [fst snd] in *.
  pose proof (Zdigits2_nonneg m) as Hd.
  pose proof (Zdigits2_nonneg (shr_m mrs')) as Hd1.
  pose proof (Zdigits2_nonneg m2) as Hd2.
  (* magnitude of the input *)
  assert (Hp : 0 < 2 ^ (E - e)) by (apply Z.pow_pos_nonneg; lia).
  assert (Dm : Zdigits2 m <= 24 + (E - e)).
  { apply Zdigits2_le; [lia|]. rewrite pow2_split by lia.
    rewrite Z.abs_eq by lia. nia. }
  assert (Le' : e' <= E) by (unfold fexp32 in *; lia).
  assert (Ha : 0 < 2 ^ (e' - e)) by (apply Z.pow_pos_nonneg; lia).
  assert (Hb : 0 < 2 ^ (E - e')) by (apply Z.pow_pos_nonneg; lia).
  assert (Hab : 2 ^ (E - e) = 2 ^ (e' - e) * 2 ^ (E - e')).
  { rewrite <- pow2_split by lia. f_equal. lia. }
  set (a := 2 ^ (e' - e)) in *. set (b := 2 ^ (E - e')) in *.
  rewrite Hab in Hv, Hp.
  assert (Hm2 : m2 <= Zpos M * b).
  { destruct Hv as [Hlt | [Heq Hl]].
    - assert (shr_m mrs' < Zpos M * b) by nia. lia.
    - assert (Hle : shr_m mrs' <= Zpos M * b) by nia.
      destruct (Z.eq_dec (shr_m mrs') (Zpos M * b)) as [Hmb|Hmb]; [|lia].
      rewrite X2; [lia|]. apply X1; [exact Hl|]. rewrite Heq, Hmb. lia. }
  assert (Dm2 : Zdigits2 m2 <= 24 + (E - e')).
  { apply Zdigits2_le; [lia|]. rewrite pow2_split by lia.
    rewrite Z.abs_eq by lia. fold b. nia. }
  assert (Le'' : e'' <= E) by (unfold fexp32 in *; lia).
  assert (Hc : 0 < 2 ^ (e'' - e')) by (apply Z.pow_pos_nonneg; lia).
  assert (Hd' : 0 < 2 ^ (E - e'')) by (apply Z.pow_pos_nonneg; lia).
  assert (Hcd : b = 2 ^ (e'' - e') * 2 ^ (E - e'')).
  { unfold b. rewrite <- pow2_split by lia. f_equal. lia. }
  set (c := 2 ^ (e'' - e')) in *. set (d := 2 ^ (E - e'')) in *.
  assert (Hm'' : shr_m mrs'' <= Zpos M * d) by nia.
  destruct (shr_m mrs'') as [|p|p] eqn:Hm3; [exact I| |lia].
  cbn [Zdigits2] in B3.
  change (emax - prec) with 104.
  destruct (e'' <=? 104) eqn:Hle; [|apply Z.leb_gt in Hle; lia].
  cbn [below]. split; [reflexivity|]. split.
  - unfold fexp32 in *. lia.
  - destruct (Z.eq_dec e'' E) as [->|]; [|lia]. right. split; [reflexivity|].
    unfold d in Hm''. rewrite Z.sub_diag in Hm''. change (2 ^ 0) with 1 in Hm''.
    lia.
Qed.

Lemma compare_cont_le p q :
  Pos.compare_cont Eq p q <> Gt <-> Zpos p <= Zpos q.
Proof.
  change (Pos.compare_cont Eq p q) with (p ?= q)%positive.
  rewrite Pos.compare_le_iff. lia.
Qed.

Lemma below_leb M E x : below M E x -> (x <=? S754_finite false M E)%f32 = true.
Proof.
  destruct x as [s|s| |s p e]; cbn [below]; try contradiction.
  - intros _. reflexivity.
  - intros (-> & _ & H). unfold F32.leb, SFleb, SFcompare.
    destruct H as [H | [-> H]].
    + apply Z.compare_lt_iff in H. now rewrite H.
    + rewrite Z.compare_refl. apply compare_cont_le in H.
      destruct (Pos.compare_cont Eq p M); [reflexivity|reflexivity|congruence].
Qed.

Lemma below_value M E p e :
  2 ^ 23 <= Zpos M -> below M E (S754_finite false p e) ->
  e <= E /\ Zpos p <= Zpos M * 2 ^ (E - e).
Proof.
  intros HM (_ & Hd & H). pose proof (digits2_pos_bounds p) as [_ Hp].
  assert (Hp24 : Zpos p < 2 ^ 24).
  { eapply Z.lt_le_trans; [exact Hp|]. apply Z.pow_le_mono_r; lia. }
  destruct H as [H | [-> H]].
  - split; [lia|].
    assert (2 ^ 1 <= 2 ^ (E - e)) by (apply Z.pow_le_mono_r; lia).
    change (2 ^ 1) with 2 in *. change (2 ^ 24) with (2 * 2 ^ 23) in Hp24. nia.
  - rewrite Z.sub_diag. change (2 ^ 0) with 1. lia.
Qed.

Lemma valid_digits_ok x : valid x = true -> digits_ok x.
Proof.
  destruct x as [s|s| |s p e]; cbn [digits_ok]; try (intros; exact I).
  unfold valid, valid_binary, bounded, canonical_mantissa. rewrite fexp_32.
  intros H. apply andb_prop in H as [H _]. apply Z.eqb_eq in H.
  unfold fexp32 in H. lia.
Qed.

(** A number of [0, 100]. *)
Lemma in_range_below x :
  digits_ok x -> (f0 <=? x)%f32 = true -> (x <=? f100)%f32 = true ->
  below 13107200 (-17) x.
Proof.
  destruct x as [s|s| |s p e]; cbn [digits_ok below]; intros Hd H0 H1;
    try exact I; try discriminate.
  - destruct s; discriminate.
  - destruct s; [discriminate|]. split; [reflexivity|]. split; [exact Hd|].
    unfold F32.leb, SFleb, SFcompare, f100 in H1.
    destruct (Z.compare_spec e (-17)) as [->|Hlt|Hgt]; [|left; lia|discriminate].
    right. split; [reflexivity|].
    apply (proj1 (compare_cont_le p 13107200)).
    destruct (Pos.compare_cont Eq p 13107200); discriminate.
Qed.

(** Multiplying a bounded number by a positive constant. *)
Lemma mul_below Mx Ex x mc ec M E :
  below Mx Ex x -> 2 ^ 23 <= Zpos Mx ->
  0 <= E - Ex - ec -> -149 <= E <= 104 -> Zpos M < 2 ^ 24 ->
  Zpos Mx * Zpos mc <= Zpos M * 2 ^ (E - Ex - ec) ->
  below M E (x * S754_finite false mc ec)%f32.
Proof.
  intros Hx HMx Hk HE HM Hc.
  destruct x as [s|s| |s p e]; cbn [below] in Hx; try contradiction.
  - exact I.
  - assert (Hs : s = false) by tauto. subst s.
    destruct (below_value _ _ _ _ HMx Hx) as [He Hp].
    unfold F32.mul, SFmul. cbn [xorb].
    apply round_aux_below; try assumption; try reflexivity; try lia.
    assert (Hle : Zpos (p * mc) <= Zpos M * 2 ^ (E - (e + ec))).
    { replace (E - (e + ec)) with ((E - Ex - ec) + (Ex - e)) by lia.
      rewrite pow2_split by lia. rewrite Pos2Z.inj_mul.
      assert (0 < 2 ^ (Ex - e)) by (apply Z.pow_pos_nonneg; lia).
      assert (0 < 2 ^ (E - Ex - ec)) by (apply Z.pow_pos_nonneg; lia).
      nia. }
    destruct (Z.eq_dec (Zpos (p * mc)) (Zpos M * 2 ^ (E - (e + ec))));
      [right; split; [assumption | reflexivity] | left; lia].
Qed.

Lemma new_location_0 n : new_location n 0 = loc_Exact.
Proof. unfold new_location. destruct (Z.even n); reflexivity. Qed.

(** Dividing a bounded number by a positive constant of 24 digits. *)
Lemma div_below Mx Ex x md ed M E :
  below Mx Ex x -> 2 ^ 23 <= Zpos Mx ->
  Zpos (digits2_pos md) = 24 ->
  0 <= Ex - ed - E <= 24 -> -149 <= E <= 104 -> Zpos M < 2 ^ 24 ->
  Zpos Mx * 2 ^ (Ex - ed - E) <= Zpos M * Zpos md ->
  below M E (x / S754_finite false md ed)%f32.
Proof.
  intros Hx HMx Hdd Hk HE HM Hc.
  destruct x as [s|s| |s p e]; cbn [below] in Hx; try contradiction.
  - exact I.
  - assert (Hs : s = false) by tauto. subst s.
    destruct (below_value _ _ _ _ HMx Hx) as [He Hp].
    destruct Hx as (_ & Hdp & _).
    unfold F32.div, SFdiv, SFdiv_core_binary. cbn [xorb Zdigits2].
    rewrite fexp_32, Hdd.
    set (e' := Z.min (fexp32 (Zpos (digits2_pos p) + e - (24 + ed))) (e - ed)).
    assert (Le' : e' <= E) by (unfold e', fexp32; lia).
    assert (Ls : 0 <= e - ed - e') by (unfold e'; lia).
    assert (Hm' : match e - ed - e' with
                  | 0 => Zpos p
                  | Zpos _ => Z.shiftl (Zpos p) (e - ed - e')
                  | Zneg _ => 0
                  end = Zpos p * 2 ^ (e - ed - e')).
    { destruct (e - ed - e') as [|k|k] eqn:Hk'; [simpl; lia | | lia].
      rewrite Z.shiftl_mul_pow2 by lia. reflexivity. }
    rewrite Hm'. clear Hm'.
    pose proof (Z_div_mod (Zpos p * 2 ^ (e - ed - e')) (Zpos md) eq_refl) as Hdiv.
    destruct (Z.div_eucl (Zpos p * 2 ^ (e - ed - e')) (Zpos md)) as [q r].
    destruct Hdiv as [Hq Hr].
    assert (H1 : 0 < 2 ^ (e - ed - e')) by (apply Z.pow_pos_nonneg; lia).
    assert (H2 : 0 < 2 ^ (E - e')) by (apply Z.pow_pos_nonneg; lia).
    assert (H3 : 0 < 2 ^ (Ex - e)) by (apply Z.pow_pos_nonneg; lia).
    assert (H4 : 0 < 2 ^ (Ex - ed - E)) by (apply Z.pow_pos_nonneg; lia).
    assert (H5 : 2 ^ (Ex - e) * 2 ^ (e - ed - e')
                 = 2 ^ (Ex - ed - E) * 2 ^ (E - e')).
    { rewrite <- !pow2_split by lia. f_equal. lia. }
    assert (Hle : Zpos p * 2 ^ (e - ed - e') <= Zpos M * 2 ^ (E - e') * Zpos md).
    { set (A := 2 ^ (e - ed - e')) in *. set (B := 2 ^ (E - e')) in *.
      set (C := 2 ^ (Ex - e)) in *. set (D := 2 ^ (Ex - ed - E)) in *.
      assert (Zpos p * A <= Zpos Mx * (C * A)) by nia.
      rewrite H5 in H. nia. }
    apply round_aux_below; try assumption; try reflexivity.
    + nia.
    + destruct (Z_lt_le_dec q (Zpos M * 2 ^ (E - e'))) as [Hlt|Hge];
        [left; exact Hlt|].
      right. assert (q = Zpos M * 2 ^ (E - e')) by nia.
      split; [assumption|]. assert (r = 0) by nia. subst r.
      apply new_location_0.
Qed.

(** The nearest integer of a number of [0, 1023]. *)
Lemma lroundf_below x :
  below 16760832 (-14) x -> exists d, lroundf x = Some d /\ 0 <= d <= 1023.
Proof.
  destruct x as [s|s| |s p e]; cbn [below]; intros H; try contradiction.
  - exists 0. split; [reflexivity | lia].
  - assert (Hs : s = false) by tauto. subst s.
    destruct (below_value 16760832 (-14) p e) as [He Hp];
      [vm_compute; discriminate | exact H |].
    unfold lroundf. cbn [cond_Zopp].
    destruct (0 <=? e) eqn:H0; [apply Z.leb_le in H0; lia|].
    eexists. split; [reflexivity|].
    assert (Hpow : 0 < 2 ^ (- e)) by (apply Z.pow_pos_nonneg; lia).
    assert (Hsp : 2 ^ (-14 - e) * 2 ^ 14 = 2 ^ (- e)).
    { rewrite <- pow2_split by lia. f_equal. lia. }
    change (2 ^ 14) with 16384 in Hsp.
    split.
    + apply Z.div_pos; lia.
    + assert ((2 * Zpos p + 2 ^ (- e)) / (2 * 2 ^ (- e)) < 1024); [|lia].
      apply Z.div_lt_upper_bound; [lia|].
      assert (0 < 2 ^ (-14 - e)) by (apply Z.pow_pos_nonneg; lia). nia.
Qed.

Lemma clampPct_digits_ok p : digits_ok p -> digits_ok (clampPct p).
Proof.
  intros Hp. unfold clampPct.
  destruct (p <? f0)%f32; [exact I|].
  destruct (f100 <? p)%f32; [vm_compute; discriminate | exact Hp].
Qed.

(** The duty of a percentage is a 10-bit number. *)
Lemma pctToDuty10_digits_ok pct :
  digits_ok pct -> is_nan pct = false ->
  exists d, pctToDuty10 pct = Some d /\ 0 <= d <= 1023.
Proof.
  intros Hd Hn. unfold pctToDuty10. cbv zeta.
  destruct (clampPct_in_range pct Hn) as [H0 H1].
  pose proof (in_range_below _ (clampPct_digits_ok _ Hd) H0 H1) as Hb.
  change (of_int (2 ^ LEDC_BITS - 1)) with (S754_finite false 16760832 (-14)).
  apply lroundf_below.
  apply (div_below 13094400 (-7) _ 13107200 (-17));
    [ | discriminate | reflexivity | lia | lia | reflexivity | discriminate ].
  apply (mul_below 13107200 (-17) _ 16760832 (-14));
    [ exact Hb | discriminate | lia | lia | reflexivity | discriminate ].
Qed.

(** The digits [shr_fexp] leaves. *)
Lemma shr_fexp_digits m e l :
  0 <= m ->
  Zdigits2 (shr_m (fst (shr_fexp prec emax m e l)))
  = Z.max 0 (Zdigits2 m - Z.max 0 (fexp32 (Zdigits2 m + e) - e)).
Proof.
  intros Hm. unfold shr_fexp, shr. rewrite fexp_32.
  pose proof (Zdigits2_nonneg m) as Hd.
  destruct (fexp32 (Zdigits2 m + e) - e) as [|p|p] eqn:Hn; cbn [fst snd].
  - rewrite shr_m_of_loc. lia.
  - destruct (iter_shr_1_spec p (shr_record_of_loc m l)) as [H1 E1].
    { now rewrite shr_m_of_loc. }
    rewrite shr_m_of_loc in E1. rewrite E1. lia.
  - rewrite shr_m_of_loc. lia.
Qed.

(* ================================================================== *)
(** ** The clamp and the LEDC duty *)
(* ================================================================== *)

(** X1. [clampPct] is idempotent: clamping a clamped value changes
    nothing, for every binary32 datum (NaN and the infinities
    included). *)
Theorem X1_clampPct_idempotent p : clampPct (clampPct p) = clampPct p.
Proof.
  unfold clampPct at 2 3.
  destruct (p <? f0)%f32 eqn:H0; [reflexivity|].
  destruct (f100 <? p)%f32 eqn:H1; [reflexivity|].
  unfold clampPct. now rewrite H0, H1.
Qed.

Lemma clampPct_nan p : is_nan (clampPct p) = is_nan p.
Proof.
  destruct (is_nan p) eqn:Hn.
  - destruct p; try discriminate. reflexivity.
  - destruct (clampPct_in_range p Hn) as [H0 _].
    destruct (clampPct p); try reflexivity; discriminate.
Qed.

(** X2. [clampPct] does not sanitise a NaN: its result is a NaN exactly
    when its argument is one, and it lies in [0, 100] exactly when the
    argument is not a NaN (both comparisons with a NaN are false, so a
    NaN is returned as it is). *)
Theorem X2_clampPct_range_iff_number p :
  is_nan (clampPct p) = is_nan p /\
  (f0 <=? clampPct p)%f32 && (clampPct p <=? f100)%f32 = negb (is_nan p).
Proof.
  split; [apply clampPct_nan|].
  destruct (is_nan p) eqn:Hn.
  - destruct p; try discriminate. reflexivity.
  - destruct (clampPct_in_range p Hn) as [H0 H1]. now rewrite H0, H1.
Qed.

(** X3. [pctToDuty10] keeps its documented range: for every
    well-formed percentage that is not a NaN, whatever its sign or
    magnitude, the conversion is defined and the duty lies in
    [0, (1 << LEDC_BITS) - 1] = [0, 1023].  The bound is exact: it is
    proved through the two roundings of [pct * 1023 / 100]. *)
Theorem X3_pctToDuty10_range pct :
  valid pct = true -> is_nan pct = false ->
  exists d, pctToDuty10 pct = Some d /\ 0 <= d <= 2 ^ LEDC_BITS - 1.
Proof.
  intros Hv Hn. apply pctToDuty10_digits_ok; [now apply valid_digits_ok | exact Hn].
Qed.

Lemma X3_pctToDuty10_range_witness :
  exists d, pctToDuty10 WARMUP_DUTY = Some d /\ 0 <= d <= 2 ^ LEDC_BITS - 1.
Proof.
  apply X3_pctToDuty10_range; vm_compute; reflexivity.
Defined.

(** X4. [pctToDuty10] saturates: every percentage at or below 0
    (negative zero and [-infinity] included) gives duty 0, and every
    percentage at or above 100 ([+infinity] included) gives the full
    duty 1023. *)
Theorem X4_pctToDuty10_saturates pct :
  ((pct <=? f0)%f32 = true -> pctToDuty10 pct = Some 0) /\
  ((f100 <=? pct)%f32 = true -> pctToDuty10 pct = Some (2 ^ LEDC_BITS - 1)).
Proof.
  split; intros H.
  - destruct pct as [s|s| |s m e]; try discriminate.
    + destruct s; reflexivity.
    + destruct s; [reflexivity | discriminate].
    + destruct s; [reflexivity | discriminate].
  - destruct pct as [s|s| |s m e]; try discriminate.
    + destruct s; [discriminate | reflexivity].
    + destruct s; [discriminate|].
      destruct (f100 <? S754_finite false m e)%f32 eqn:Hlt.
      * unfold pctToDuty10, clampPct. rewrite Hlt. reflexivity.
      * assert (S754_finite false m e = f100) as ->; [|reflexivity].
        unfold F32.ltb, F32.leb, SFltb, SFleb, SFcompare, f100 in *.
        destruct (Z.compare_spec (-17) e) as [He|Hl|Hg]; try discriminate.
        destruct (Pos.compare_cont Eq 13107200 m) eqn:Hc; try discriminate.
        apply Pos.compare_eq in Hc. now subst m e.
Qed.

Lemma X4_pctToDuty10_saturates_witness :
  pctToDuty10 fm1 = Some 0 /\ pctToDuty10 f1000 = Some (2 ^ LEDC_BITS - 1).
Proof.
  split.
  - apply (proj1 (X4_pctToDuty10_saturates fm1)). reflexivity.
  - apply (proj2 (X4_pctToDuty10_saturates f1000)). reflexivity.
Defined.

(* ---------------------------------------------------------------- *)
(** *** The bus voltage sensor *)



Lemma round_aux_nonneg m e l :
  0 <= m -> nonneg (binary_round_aux prec emax false m e l).
Proof.
  intros Hm. unfold binary_round_aux.
  pose proof (shr_fexp_spec m e l Hm) as (H1 & _).
  destruct (shr_fexp prec emax m e l) as [mrs' e']. cbn [fst snd] in *.
  pose proof (round_nearest_even_spec (shr_m mrs') (loc_of_shr_record mrs') H1)
    as [H2 _].
  pose proof (shr_fexp_spec _ e' loc_Exact H2) as (H3 & _).
  destruct (shr_fexp prec emax _ e' loc_Exact) as [mrs'' e''].
  cbn [fst snd] in *.
  destruct (shr_m mrs'') as [|p|p]; [exact I| |lia].
  destruct (e'' <=? emax - prec); reflexivity.
Qed.

Lemma of_int_nonneg n : 0 <= n -> nonneg (of_int n).
Proof.
  intros Hn. unfold of_int. destruct n as [|p|p]; cbn [binary_normalize];
    [exact I | | lia].
  unfold binary_round. destruct (shl_align p 0 _) as [mz ez].
  apply round_aux_nonneg. lia.
Qed.

Lemma div_nonneg x m e : nonneg x -> nonneg (x / S754_finite false m e)%f32.
Proof.
  destruct x as [s|s| |s mx ex]; cbn [nonneg]; try contradiction.
  - intros _. exact I.
  - intros ->. reflexivity.
  - intros ->. unfold F32.div, SFdiv, SFdiv_core_binary.
    match goal with |- context [Z.div_eucl ?a ?b] =>
      pose proof (Z_div_mod a b eq_refl) as Hdiv;
      assert (Ha : 0 <= a);
      [| destruct (Z.div_eucl a b) as [q r] ] end.
    + match goal with |- 0 <= match ?s with _ => _ end =>
        destruct s as [|p|p] eqn:Es end; try lia.
      apply Z.shiftl_nonneg. lia.
    + destruct Hdiv as [Hq Hr]. cbn [xorb]. apply round_aux_nonneg. nia.
Qed.

Lemma mul_nonneg x m e : nonneg x -> nonneg (x * S754_finite false m e)%f32.
Proof.
  destruct x as [s|s| |s mx ex]; cbn [nonneg]; try contradiction.
  - intros _. exact I.
  - intros ->. reflexivity.
  - intros ->. unfold F32.mul, SFmul. cbn [xorb]. apply round_aux_nonneg. lia.
Qed.

Lemma nonneg_leb x : nonneg x -> (f0 <=? x)%f32 = true.
Proof.
  destruct x as [s|s| |s m e]; cbn [nonneg]; try contradiction;
    try (intros ->); reflexivity.
Qed.

Lemma u32_nonneg z : 0 <= u32 z.
Proof. unfold u32. apply Z.mod_pos_bound. reflexivity. Qed.

(** X6. On the ESP32-S3 path a wired sensor never reads negative:
    for every value [analogReadMilliVolts] may return, [readVbusVolts]
    takes one ADC sample and returns a voltage [>= 0] (so not a NaN
    either), and the guard's tests reduce to [vb > LIMIT] and
    [vb < CLEAR]. *)
Theorem X6_readVbusVolts_s3_not_negative cfg sig w :
  IDF_TARGET_ESP32S3 cfg = true -> 0 <= SUPPLY_ADC_PIN cfg ->
  exists v w',
    readVbusVolts cfg sig w = Ok v w' /\
    adc_reads w' = S (adc_reads w) /\
    (f0 <=? v)%f32 = true /\
    ov_trip v = (VBUS_OV_LIMIT_VOLTS <? v)%f32 /\
    ov_clear v = (v <? VBUS_CLEAR_HYS_VOLTS)%f32.
Proof.
  intros Hs3 Hpin.
  assert (Hp : (SUPPLY_ADC_PIN cfg <? 0) = false) by (apply Z.ltb_ge; lia).
  rewrite (readVbusVolts_enabled cfg sig w Hp).
  eexists _, _. split; [reflexivity|]. split; [reflexivity|].
  assert (Hv : (f0 <=? vbus_at cfg sig (adc_reads w))%f32 = true).
  { unfold vbus_at, volts_of_sample. rewrite Hs3. cbv zeta.
    apply nonneg_leb. apply mul_nonneg. apply div_nonneg.
    apply of_int_nonneg, u32_nonneg. }
  unfold ov_trip, ov_clear. rewrite Hv. repeat split.
Qed.

Lemma X6_readVbusVolts_s3_not_negative_witness :
  exists v w',
    readVbusVolts armed (bus 0 30000 0) w0 = Ok v w' /\
    (f0 <=? v)%f32 = true.
Proof.
  destruct (X6_readVbusVolts_s3_not_negative armed (bus 0 30000 0) w0)
    as (v & w' & H1 & _ & H2 & _); [reflexivity | vm_compute; discriminate |].
  exists v, w'. split; assumption.
Defined.

(** Conversion of a small integer. *)
Lemma of_int_below n M E :
  0 <= n -> -24 <= E <= 0 -> Zpos M < 2 ^ 24 ->
  n * 2 ^ (- E) <= Zpos M ->
  below M E (of_int n).
Proof.
  intros Hn HE HM Hle. unfold of_int.
  destruct n as [|p|p]; cbn [binary_normalize]; [exact I | | lia].
  unfold binary_round.
  pose proof (shl_align_spec p 0 (fexp prec emax (Zpos (digits2_pos p) + 0)))
    as (E1 & E2 & E3).
  rewrite fexp_32 in *.
  destruct (shl_align p 0 _) as [mz ez]. cbn [fst snd] in *.
  assert (Hpow : 0 < 2 ^ (- E)) by (apply Z.pow_pos_nonneg; lia).
  assert (Hp : Zpos p < 2 ^ (24 + E)).
  { apply Z.mul_lt_mono_pos_r with (p := 2 ^ (- E)); [exact Hpow|].
    rewrite <- pow2_split by lia. replace (24 + E + - E) with 24 by lia. lia. }
  assert (Hd : Zpos (digits2_pos p) <= 24 + E).
  { apply (Zdigits2_le (Zpos p)); [lia | rewrite Z.abs_eq by lia; exact Hp]. }
  assert (Hez : ez = Z.min 0 (fexp32 (Zpos (digits2_pos p) + 0))) by exact E2.
  rewrite <- Hez in E3. unfold fexp32 in Hez.
  apply round_aux_below; try assumption; try reflexivity; try lia.
  rewrite E3.
  assert (Hsp : 2 ^ (0 - ez) = 2 ^ (- E) * 2 ^ (E - ez)).
  { rewrite <- pow2_split by lia. f_equal. lia. }
  rewrite Hsp.
  assert (0 < 2 ^ (E - ez)) by (apply Z.pow_pos_nonneg; lia).
  destruct (Z.eq_dec (Zpos p * (2 ^ (- E) * 2 ^ (E - ez))) (Zpos M * 2 ^ (E - ez)))
    as [Heq|Hne]; [right; split; [exact Heq | reflexivity] | left; nia].
Qed.

Lemma below_nonneg M E x : below M E x -> nonneg x.
Proof. destruct x; cbn [below nonneg]; tauto. Qed.

Lemma below_ltb M E M' E' x :
  below M E x -> E < E' \/ (E = E' /\ Zpos M < Zpos M') ->
  (x <? S754_finite false M' E')%f32 = true.
Proof.
  destruct x as [s|s| |s p e]; cbn [below]; try contradiction.
  - intros _ _. reflexivity.
  - intros (-> & _ & H) H'. unfold F32.ltb, SFltb, SFcompare.
    destruct (Z.compare_spec e E') as [->|Hlt|Hgt]; [|reflexivity|lia].
    change (Pos.compare_cont Eq p M') with (p ?= M')%positive.
    assert (Hp : (p < M')%positive) by lia.
    apply Pos.compare_lt_iff in Hp. now rewrite Hp.
Qed.

Lemma below_weaken M M' E x :
  below M E x -> Zpos M <= Zpos M' -> below M' E x.
Proof.
  destruct x as [s|s| |s p e]; cbn [below]; try tauto.
  intros (Hs & Hd & H) HM. repeat split; try assumption. lia.
Qed.

Lemma s32_small z : 0 <= z < 2 ^ 31 -> s32 z = z.
Proof.
  intros Hz. unfold s32. rewrite Z.mod_small; [lia|].
  change (2 ^ 32) with (2 * 2 ^ 31). lia.
Qed.

(** The generic ADC path on 12-bit counts: the bus never reads above
    16 V. *)
Lemma raw_volts_below cfg z :
  IDF_TARGET_ESP32S3 cfg = false -> 0 <= z <= 4095 ->
  below 8388608 (-19) (volts_of_sample cfg z).
Proof.
  intros Hs3 Hz. unfold volts_of_sample. rewrite Hs3. cbv zeta.
  rewrite s32_small by (change (2 ^ 31) with 2147483648; lia).
  apply (mul_below 9227469 (-23) _ 11534336 (-20));
    [ | discriminate | lia | lia | reflexivity | discriminate ].
  apply (div_below 9011200 (-13) _ 16384000 (-14));
    [ | discriminate | reflexivity | lia | lia | reflexivity | discriminate ].
  apply (mul_below 8388608 (-23) _ 9011200 (-13));
    [ | discriminate | lia | lia | reflexivity | discriminate ].
  apply (div_below 16773120 (-12) _ 16773120 (-12));
    [ | discriminate | reflexivity | lia | lia | reflexivity | discriminate ].
  apply of_int_below; [lia | lia | reflexivity |].
  change (2 ^ (- -12)) with 4096. lia.
Qed.

(** X9. On the generic ADC path ([analogRead] counts scaled by
    [1100 / 4095]) a 12-bit count cannot trip the guard: for every
    sample in [0, 4095] the computed bus voltage is at most 16 V, so
    [guardOverVoltage] returns false without coasting or waiting,
    whether the sensor is wired or not. *)
Theorem X9_guard_inert_on_raw_adc cfg sig w :
  IDF_TARGET_ESP32S3 cfg = false ->
  0 <= adc_sample sig (adc_reads w) <= 4095 ->
  ov_trip (vbus_at cfg sig (adc_reads w)) = false /\
  exists w', guardOverVoltage cfg sig w = Ok false w' /\
             trace w' = trace w /\ now w' = now w.
Proof.
  intros Hs3 Hz.
  pose proof (raw_volts_below cfg _ Hs3 Hz) as Hb.
  assert (Htrip : ov_trip (vbus_at cfg sig (adc_reads w)) = false).
  { unfold ov_trip, vbus_at.
    rewrite (leb_not_ltb _ VBUS_OV_LIMIT_VOLTS); [apply andb_false_r|].
    apply (below_leb 14680064 (-19)).
    apply (below_weaken 8388608); [exact Hb | discriminate]. }
  split; [exact Htrip|].
  destruct (SUPPLY_ADC_PIN cfg <? 0) eqn:Hpin.
  - exists w. rewrite guardOverVoltage_disabled by assumption. repeat split.
  - unfold guardOverVoltage, guardOverVoltage_vb. rewrite Hpin.
    unfold bind at 1 2. rewrite readVbusVolts_enabled by assumption.
    rewrite Htrip. unfold ret. cbn [fst]. eexists. repeat split.
Qed.

Lemma X9_guard_inert_on_raw_adc_witness :
  ov_trip (vbus_at armed_raw (bus 0 4095 0) 0) = false /\
  exists w', guardOverVoltage armed_raw (bus 0 4095 0) w0 = Ok false w'.
Proof.
  destruct (X9_guard_inert_on_raw_adc armed_raw (bus 0 4095 0) w0)
    as (H1 & w' & H2 & _); [reflexivity | vm_compute; split; discriminate |].
  split; [exact H1|]. exists w'. exact H2.
Defined.

(* ================================================================== *)
(** ** Bounds from below, and the thresholds of the guard *)
(* ================================================================== *)

Lemma Zdigits2_lower m : 0 < m -> 2 ^ (Zdigits2 m - 1) <= m.
Proof.
  destruct m as [|p|p]; try lia. intros _. cbn [Zdigits2].
  apply digits2_pos_bounds.
Qed.

Lemma Zdigits2_ge m k : 0 <= k -> 2 ^ k <= m -> k + 1 <= Zdigits2 m.
Proof.
  intros Hk Hm.
  assert (0 < 2 ^ k) by (apply Z.pow_pos_nonneg; lia).
  pose proof (Zdigits2_upper m ltac:(lia)) as Hu.
  pose proof (Zdigits2_nonneg m) as Hn.
  destruct (Z_lt_le_dec (Zdigits2 m) (k + 1)) as [Hlt|]; [|assumption].
  assert (2 ^ Zdigits2 m <= 2 ^ k) by (apply Z.pow_le_mono_r; lia). lia.
Qed.

(** Rounding does not cross a binary32 number from above either. *)
Lemma round_aux_above s m e l M E :
  24 <= Zdigits2 m -> -149 <= E -> 2 ^ 23 <= Zpos M ->
  ((e <= E /\ Zpos M * 2 ^ (E - e) <= m) \/
   (E < e /\ Zpos M <= m * 2 ^ (e - E))) ->
  s = false ->
  above M E (binary_round_aux prec emax s m e l).
Proof.
  intros HD HE HM Hv ->.
  assert (Hm : 0 < m).
  { destruct m as [|p|p]; cbn [Zdigits2] in HD; lia. }
  assert (Hm0 : 0 <= m) by lia.
  unfold binary_round_aux.
  pose proof (shr_fexp_spec m e l Hm0) as (H1 & E1 & B1).
  pose proof (shr_fexp_value m e l Hm0) as (L1 & V1 & _). cbv zeta in V1, L1.
  pose proof (shr_fexp_digits m e l Hm0) as D1.
  destruct (shr_fexp prec emax m e l) as [mrs' e'] eqn:Hs1. cbn [fst snd] in *.
  pose proof (round_nearest_even_spec (shr_m mrs') (loc_of_shr_record mrs') H1)
    as [H2 B2].
  pose proof (round_nearest_even_value (shr_m mrs') (loc_of_shr_record mrs'))
    as [V2 _].
  set (m2 := round_nearest_even (shr_m mrs') (loc_of_shr_record mrs')) in *.
  pose proof (shr_fexp_spec m2 e' loc_Exact H2) as (H3 & E3 & B3).
  pose proof (shr_fexp_value m2 e' loc_Exact H2) as (L3 & V3 & _).
  cbv zeta in V3, L3.
  pose proof (shr_fexp_digits m2 e' loc_Exact H2) as D3.
  destruct (shr_fexp prec emax m2 e' loc_Exact) as [mrs'' e''] eqn:Hs2.
  cbn [fst snd] in *.
  (* the magnitude of the input is at least that of the bound *)
  assert (Hmag : 24 + E <= Zdigits2 m + e).
  { destruct Hv as [[He Hv] | [He Hv]]; [|lia].
    assert (Hp : 2 ^ (23 + (E - e)) <= m).
    { rewrite pow2_split by lia.
      assert (0 < 2 ^ (E - e)) by (apply Z.pow_pos_nonneg; lia). nia. }
    pose proof (Zdigits2_ge m (23 + (E - e)) ltac:(lia) Hp). lia. }
  unfold fexp32 in *.
  assert (He' : e' = Zdigits2 m + e - 24) by lia.
  assert (Dm' : Zdigits2 (shr_m mrs') = 24) by lia.
  assert (Hm' : E < e' \/ (e' = E /\ Zpos M <= shr_m mrs')).
  { destruct (Z_lt_le_dec E e') as [|Hle]; [now left|]. right.
    split; [lia|]. assert (HeE : e' = E) by lia. rewrite HeE in V1.
    destruct Hv as [[He Hv] | [He Hv]]; [|lia].
    assert (Ha : 0 < 2 ^ (E - e)) by (apply Z.pow_pos_nonneg; lia).
    assert (Hlt : Zpos M * 2 ^ (E - e) < (shr_m mrs' + 1) * 2 ^ (E - e)) by lia.
    apply Z.mul_lt_mono_pos_r in Hlt; [lia | exact Ha]. }
  assert (Hm2 : 0 < m2).
  { pose proof (Zdigits2_lower (shr_m mrs')) as Hl.
    destruct (shr_m mrs') as [|q|q]; cbn [Zdigits2] in Dm'; lia. }
  assert (Dm2 : 24 <= Zdigits2 m2).
  { apply (Zdigits2_ge m2 23); [lia|].
    pose proof (Zdigits2_lower (shr_m mrs')) as Hl. rewrite Dm' in Hl.
    change (24 - 1) with 23 in Hl.
    destruct (shr_m mrs') as [|q|q]; cbn [Zdigits2] in Dm'; lia. }
  assert (He'' : e'' = Zdigits2 m2 + e' - 24) by lia.
  assert (Dm'' : Zdigits2 (shr_m mrs'') = 24) by lia.
  destruct (shr_m mrs'') as [|p|p] eqn:Hm3; cbn [Zdigits2] in Dm''; try lia.
  destruct (e'' <=? emax - prec); [|reflexivity].
  cbn [above]. split; [reflexivity|]. split; [exact Dm''|].
  destruct Hm' as [Hlt | [Heq HMm]]; [left; lia|].
  destruct (Z.eq_dec (Zdigits2 m2) 24) as [D24|]; [|left; lia].
  right. split; [lia|].
  replace (e'' - e') with 0 in V3 by lia. change (2 ^ 0) with 1 in V3. lia.
Qed.

Lemma above_value M E p e :
  above M E (S754_finite false p e) ->
  2 ^ 23 <= Zpos p < 2 ^ 24 /\ E <= e /\ Zpos M < 2 ^ 24 ->
  Zpos M <= Zpos p * 2 ^ (e - E).
Proof.
  intros (_ & Hd & H) (Hp & He & HM).
  destruct H as [H | [-> H]].
  - assert (2 ^ 1 <= 2 ^ (e - E)) by (apply Z.pow_le_mono_r; lia).
    change (2 ^ 1) with 2 in *. change (2 ^ 24) with (2 * 2 ^ 23) in *. nia.
  - rewrite Z.sub_diag. change (2 ^ 0) with 1. lia.
Qed.

Lemma above_shape M E p e :
  above M E (S754_finite false p e) -> 2 ^ 23 <= Zpos p < 2 ^ 24 /\ E <= e.
Proof.
  intros (_ & Hd & H). pose proof (digits2_pos_bounds p) as Hb.
  rewrite Hd in Hb. change (24 - 1) with 23 in Hb. split; [exact Hb | lia].
Qed.

Lemma above_ltb M E M' E' x :
  above M E x -> E' < E \/ (E' = E /\ Zpos M' < Zpos M) ->
  (S754_finite false M' E' <? x)%f32 = true.
Proof.
  destruct x as [s|s| |s p e]; cbn [above]; try contradiction.
  - intros -> _. reflexivity.
  - intros (-> & _ & H) H'. unfold F32.ltb, SFltb, SFcompare.
    destruct (Z.compare_spec E' e) as [->|Hlt|Hgt]; [|reflexivity|lia].
    change (Pos.compare_cont Eq M' p) with (M' ?= p)%positive.
    assert (Hp : (M' < p)%positive) by lia.
    apply Pos.compare_lt_iff in Hp. now rewrite Hp.
Qed.

Lemma above_leb M E x : above M E x -> (S754_finite false M E <=? x)%f32 = true.
Proof.
  destruct x as [s|s| |s p e]; cbn [above]; try contradiction.
  - intros ->. reflexivity.
  - intros (-> & _ & H). unfold F32.leb, SFleb, SFcompare.
    destruct H as [H | [-> H]].
    + apply Z.compare_lt_iff in H. now rewrite H.
    + rewrite Z.compare_refl. apply compare_cont_le in H.
      destruct (Pos.compare_cont Eq M p); [reflexivity|reflexivity|congruence].
Qed.

(** Multiplying a number that is not below [Mx * 2^Ex] by a positive
    constant. *)
Lemma mul_above Mx Ex x mc ec M E :
  above Mx Ex x -> Zpos Mx < 2 ^ 24 ->
  0 <= E - Ex - ec -> -149 <= E -> 2 ^ 23 <= Zpos M ->
  Zpos M * 2 ^ (E - Ex - ec) <= Zpos Mx * Zpos mc ->
  above M E (x * S754_finite false mc ec)%f32.
Proof.
  intros Hx HMx Hk HE HM Hc.
  destruct x as [s|s| |s p e]; cbn [above] in Hx; try contradiction.
  - subst s. reflexivity.
  - assert (Hs : s = false) by tauto. subst s.
    destruct (above_shape _ _ _ _ Hx) as [Hp He].
    pose proof (above_value _ _ _ _ Hx (conj Hp (conj He HMx))) as Hv.
    unfold F32.mul, SFmul. cbn [xorb].
    assert (Hk0 : 0 < 2 ^ (E - Ex - ec)) by (apply Z.pow_pos_nonneg; lia).
    assert (Hx0 : 0 < 2 ^ (e - Ex)) by (apply Z.pow_pos_nonneg; lia).
    assert (Hprod : Zpos M * 2 ^ (E - Ex - ec) <= Zpos p * Zpos mc * 2 ^ (e - Ex)).
    { eapply Z.le_trans; [exact Hc|]. nia. }
    apply round_aux_above; try assumption; try reflexivity.
    + apply (Zdigits2_ge _ 23); [lia|]. rewrite Pos2Z.inj_mul. nia.
    + rewrite Pos2Z.inj_mul.
      destruct (Z_le_gt_dec (e + ec) E) as [Hle|Hgt].
      * left. split; [exact Hle|].
        assert (Hs : 2 ^ (E - Ex - ec) = 2 ^ (E - (e + ec)) * 2 ^ (e - Ex)).
        { rewrite <- pow2_split by lia. f_equal. lia. }
        rewrite Hs in Hprod.
        apply Z.mul_le_mono_pos_r with (p := 2 ^ (e - Ex)); [exact Hx0|]. lia.
      * right. split; [lia|].
        assert (Hs : 2 ^ (e - Ex) = 2 ^ (e + ec - E) * 2 ^ (E - Ex - ec)).
        { rewrite <- pow2_split by lia. f_equal. lia. }
        rewrite Hs in Hprod.
        apply Z.mul_le_mono_pos_r with (p := 2 ^ (E - Ex - ec)); [exact Hk0|]. lia.
Qed.

(** Dividing a number that is not below [Mx * 2^Ex] by a positive
    constant of 24 digits. *)
Lemma div_above Mx Ex x md ed M E :
  above Mx Ex x -> Zpos Mx < 2 ^ 24 ->
  Zpos (digits2_pos md) = 24 ->
  0 <= Ex - ed - E <= 24 -> -125 <= E -> 2 ^ 23 <= Zpos M < 2 ^ 24 ->
  Zpos M * Zpos md <= Zpos Mx * 2 ^ (Ex - ed - E) ->
  above M E (x / S754_finite false md ed)%f32.
Proof.
  intros Hx HMx Hdd Hk HE [HM HM'] Hc.
  destruct x as [s|s| |s p e]; cbn [above] in Hx; try contradiction.
  - subst s. reflexivity.
  - assert (Hs : s = false) by tauto. subst s.
    destruct (above_shape _ _ _ _ Hx) as [Hp He].
    pose proof (above_value _ _ _ _ Hx (conj Hp (conj He HMx))) as Hv.
    destruct Hx as (_ & Hdp & _).
    pose proof (digits2_pos_bounds md) as Hmd. rewrite Hdd in Hmd.
    change (24 - 1) with 23 in Hmd.
    unfold F32.div, SFdiv, SFdiv_core_binary. cbn [xorb Zdigits2].
    rewrite fexp_32, Hdd, Hdp.
    assert (He' : Z.min (fexp32 (24 + e - (24 + ed))) (e - ed) = e - ed - 24)
      by (unfold fexp32; lia).
    rewrite He'. replace (e - ed - (e - ed - 24)) with 24 by lia.
    cbv iota. rewrite Z.shiftl_mul_pow2 by lia.
    pose proof (Z_div_mod (Zpos p * 2 ^ 24) (Zpos md) eq_refl) as Hdiv.
    destruct (Z.div_eucl (Zpos p * 2 ^ 24) (Zpos md)) as [q r].
    destruct Hdiv as [Hq Hr].
    assert (Hq23 : 2 ^ 23 <= q).
    { change (2 ^ 24) with (2 * 2 ^ 23) in *. nia. }
    assert (Hk0 : 0 < 2 ^ (Ex - ed - E)) by (apply Z.pow_pos_nonneg; lia).
    assert (Hx0 : 0 < 2 ^ (e - Ex)) by (apply Z.pow_pos_nonneg; lia).
    apply round_aux_above; try assumption; try reflexivity; try lia.
    + apply (Zdigits2_ge _ 23); [lia | exact Hq23].
    + destruct (Z_le_gt_dec (e - ed - 24) E) as [Hle|Hgt].
      * left. split; [exact Hle|].
        set (j := E - (e - ed - 24)) in *.
        assert (Hj0 : 0 < 2 ^ j) by (apply Z.pow_pos_nonneg; lia).
        assert (Hsp : 2 ^ j * (2 ^ (Ex - ed - E) * 2 ^ (e - Ex)) = 2 ^ 24).
        { rewrite <- !pow2_split by lia. f_equal. unfold j. lia. }
        (* M * 2^j * md <= p * 2^24 *)
        assert (Hle2 : Zpos M * 2 ^ j * Zpos md <= Zpos p * 2 ^ 24).
        { rewrite <- Hsp.
          assert (Zpos M * Zpos md <= Zpos p * 2 ^ (e - Ex) * 2 ^ (Ex - ed - E)).
          { eapply Z.le_trans; [exact Hc|]. nia. }
          nia. }
        assert (Hlt : Zpos M * 2 ^ j * Zpos md < (q + 1) * Zpos md) by lia.
        apply Z.mul_lt_mono_pos_r in Hlt; lia.
      * right. split; [lia|].
        assert (2 ^ 1 <= 2 ^ (e - ed - 24 - E)) by (apply Z.pow_le_mono_r; lia).
        change (2 ^ 1) with 2 in *. change (2 ^ 24) with (2 * 2 ^ 23) in *. nia.
Qed.

(** Conversion of an integer that is not below a bound. *)
Lemma of_int_above n M E :
  0 <= n < 2 ^ 32 -> -24 <= E <= 0 -> 2 ^ 23 <= Zpos M ->
  Zpos M <= n * 2 ^ (- E) ->
  above M E (of_int n).
Proof.
  intros Hn HE HM Hle. unfold of_int.
  assert (Hpow : 0 < 2 ^ (- E)) by (apply Z.pow_pos_nonneg; lia).
  destruct n as [|p|p]; cbn [binary_normalize]; [lia | | lia].
  unfold binary_round.
  pose proof (shl_align_spec p 0 (fexp prec emax (Zpos (digits2_pos p) + 0)))
    as (E1 & E2 & E3).
  rewrite fexp_32 in *.
  destruct (shl_align p 0 _) as [mz ez]. cbn [fst snd] in *.
  assert (Hd32 : Zpos (digits2_pos p) <= 32).
  { apply (Zdigits2_le (Zpos p)); [lia | rewrite Z.abs_eq by lia; lia]. }
  assert (Hez : ez = Z.min 0 (Zpos (digits2_pos p) - 24)).
  { rewrite E2. unfold fexp32. lia. }
  rewrite <- E2 in E3.
  assert (Hez0 : 0 < 2 ^ (0 - ez)) by (apply Z.pow_pos_nonneg; lia).
  apply round_aux_above; try assumption; try reflexivity; try lia.
  - cbn [Zdigits2]. lia.
  - rewrite E3.
    destruct (Z_le_gt_dec ez E) as [Hl|Hg].
    + left. split; [exact Hl|].
      assert (Hs : 2 ^ (0 - ez) = 2 ^ (- E) * 2 ^ (E - ez)).
      { rewrite <- pow2_split by lia. f_equal. lia. }
      rewrite Hs.
      assert (0 < 2 ^ (E - ez)) by (apply Z.pow_pos_nonneg; lia). nia.
    + right. split; [lia|].
      assert (Hs : 2 ^ (- E) = 2 ^ (0 - ez) * 2 ^ (ez - E)).
      { rewrite <- pow2_split by lia. f_equal. lia. }
      rewrite Hs in Hle. lia.
Qed.

Lemma u32_range z : 0 <= u32 z < 2 ^ 32.
Proof. unfold u32. apply Z.mod_pos_bound. reflexivity. Qed.

Lemma s3_volts_below mv Mi M1 M2 :
  0 <= mv -> mv * 4096 <= Zpos Mi -> Zpos Mi < 2 ^ 24 -> 2 ^ 23 <= Zpos Mi ->
  Zpos Mi * 2 ^ 24 <= Zpos M1 * 16384000 ->
  2 ^ 23 <= Zpos M1 < 2 ^ 24 ->
  Zpos M1 * 11534336 <= Zpos M2 * 2 ^ 23 ->
  Zpos M2 < 2 ^ 24 ->
  below M2 (-19) ((of_int mv / f1000) * VDIV_RATIO)%f32.
Proof.
  intros Hmv Hi Hi24 Hi23 H1 [H1a H1b] H2 H2b.
  apply (mul_below M1 (-22) _ 11534336 (-20));
    [ | exact H1a | lia | lia | exact H2b | exact H2 ].
  apply (div_below Mi (-12) _ 16384000 (-14));
    [ | exact Hi23 | reflexivity | lia | lia | exact H1b | exact H1 ].
  apply of_int_below; [exact Hmv | lia | exact Hi24 |].
  change (2 ^ (- -12)) with 4096. exact Hi.
Qed.

Lemma s3_volts_above mv Mi M1 M2 :
  0 <= mv < 2 ^ 32 -> Zpos Mi <= mv * 4096 ->
  2 ^ 23 <= Zpos Mi < 2 ^ 24 ->
  Zpos M1 * 16384000 <= Zpos Mi * 2 ^ 24 ->
  2 ^ 23 <= Zpos M1 < 2 ^ 24 ->
  Zpos M2 * 2 ^ 23 <= Zpos M1 * 11534336 ->
  2 ^ 23 <= Zpos M2 ->
  above M2 (-19) ((of_int mv / f1000) * VDIV_RATIO)%f32.
Proof.
  intros Hmv Hi [Hi23 Hi24] H1 [H1a H1b] H2 H2a.
  apply (mul_above M1 (-22) _ 11534336 (-20));
    [ | exact H1b | lia | lia | exact H2a | exact H2 ].
  apply (div_above Mi (-12) _ 16384000 (-14));
    [ | exact Hi24 | reflexivity | lia | lia | split; assumption | exact H1 ].
  apply of_int_above; [exact Hmv | lia | exact Hi23 |].
  change (2 ^ (- -12)) with 4096. lia.
Qed.

Lemma s3_trip_clear cfg z :
  IDF_TARGET_ESP32S3 cfg = true ->
  ov_trip (volts_of_sample cfg z) = (2546 <=? u32 z) /\
  ov_clear (volts_of_sample cfg z) = (u32 z <=? 2409).
Proof.
  intros Hs3. unfold volts_of_sample. rewrite Hs3. cbv zeta.
  pose proof (u32_range z) as Hr. set (mv := u32 z) in *.
  split.
  - destruct (2546 <=? mv) eqn:Hc.
    + apply Z.leb_le in Hc. apply over_limit_trips.
      apply (above_ltb 14680065 (-19)); [|right; split; [reflexivity | reflexivity]].
      apply (s3_volts_above mv 10428416 10678697); try lia;
        try (split; [discriminate | reflexivity]); try discriminate.
    + apply Z.leb_gt in Hc. unfold ov_trip.
      rewrite (leb_not_ltb _ VBUS_OV_LIMIT_VOLTS); [apply andb_false_r|].
      apply (below_leb 14680064 (-19)).
      apply (s3_volts_below mv 10424320 10674504); try lia;
        try (split; [discriminate | reflexivity]); try discriminate;
        try reflexivity.
  - destruct (mv <=? 2409) eqn:Hc.
    + apply Z.leb_le in Hc. unfold ov_clear.
      assert (Hb : below 13893631 (-19) ((of_int mv / f1000) * VDIV_RATIO)%f32).
      { apply (s3_volts_below mv 9867264 10104079); try lia;
          try (split; [discriminate | reflexivity]); try discriminate;
          try reflexivity. }
      rewrite (nonneg_leb _ (below_nonneg _ _ _ Hb)).
      apply (below_ltb _ _ _ _ _ Hb). right. split; reflexivity.
    + apply Z.leb_gt in Hc. apply above_clear_holds.
      apply (above_leb 13893632 (-19)).
      apply (s3_volts_above mv 9871360 10108272); try lia;
        try (split; [discriminate | reflexivity]); try discriminate.
Qed.

(** X7. The guard in ADC millivolts on the ESP32-S3 path.  For every
    value of the [uint32_t] reading the trip test ([vb > 28.0]) holds
    exactly from 2546 mV on and the clear test ([vb < 26.5]) exactly
    up to 2409 mV (proved through the roundings of [(mv / 1000) * 11],
    not by enumeration).  So a wired guard trips exactly when its
    sample reads 2546 mV or more; it then coasts and polls every 10 ms
    past every reading of 2410 mV or more, until a poll reads 2409 mV
    or less or 300 polls have been made. *)
Theorem X7_s3_guard_thresholds cfg sig w :
  IDF_TARGET_ESP32S3 cfg = true ->
  (forall z,
     ov_trip (volts_of_sample cfg z) = (2546 <=? u32 z) /\
     ov_clear (volts_of_sample cfg z) = (u32 z <=? 2409)) /\
  (0 <= SUPPLY_ADC_PIN cfg ->
   let mv := fun i => u32 (adc_sample sig (adc_reads w + i)) in
   exists b w' k,
     guardOverVoltage cfg sig w = Ok b w' /\
     b = (2546 <=? mv O) /\
     (b = true ->
      trace w' = trace w ++ Coast :: repeat (Delay OV_POLL_MS) k /\
      (forall i, (i < k)%nat -> 2410 <= mv (S i)) /\
      (k = 300%nat \/ ((k < 300)%nat /\ mv (S k) <= 2409)))).
Proof.
  intros Hs3. split; [intros z; now apply s3_trip_clear|].
  intros Hpin mv.
  assert (Hp : (SUPPLY_ADC_PIN cfg <? 0) = false) by (apply Z.ltb_ge; lia).
  assert (Hclr : forall j, ov_clear (vbus_at cfg sig j)
                           = (u32 (adc_sample sig j) <=? 2409)).
  { intros j. unfold vbus_at. now apply s3_trip_clear. }
  destruct (ov_trip (vbus_at cfg sig (adc_reads w))) eqn:Htrip.
  - destruct (guard_trip_flag cfg sig w Hp Htrip)
      as (k & vb' & w' & Hrun & _ & Htr & _ & Hall & Hend).
    exists true, w', k. split; [exact Hrun|]. split.
    + unfold mv. rewrite Nat.add_0_r. unfold vbus_at in Htrip.
      rewrite (proj1 (s3_trip_clear cfg _ Hs3)) in Htrip. now rewrite Htrip.
    + intros _. split; [exact Htr|]. split.
      * intros i Hi. specialize (Hall i Hi). rewrite Hclr in Hall.
        apply Z.leb_gt in Hall. unfold mv.
        replace (adc_reads w + S i)%nat with (S (adc_reads w) + i)%nat by lia.
        lia.
      * unfold OV_POLL_MS, OV_WAIT_MS in Hend.
        destruct Hend as [[Hk _] | (Hk & _ & -> & Hc)]; [left; lia|].
        right. split; [lia|]. rewrite Hclr in Hc. apply Z.leb_le in Hc.
        unfold mv.
        replace (adc_reads w + S k)%nat with (S (adc_reads w) + k)%nat by lia.
        exact Hc.
  - unfold guardOverVoltage, guardOverVoltage_vb. rewrite Hp.
    unfold bind at 1 2. rewrite readVbusVolts_enabled by assumption.
    rewrite Htrip. unfold ret. cbn [fst].
    eexists false, _, O. split; [reflexivity|]. split; [|discriminate].
    unfold mv. rewrite Nat.add_0_r. unfold vbus_at in Htrip.
    rewrite (proj1 (s3_trip_clear cfg _ Hs3)) in Htrip. now rewrite Htrip.
Qed.

Lemma X7_s3_guard_thresholds_witness :
  ov_trip (volts_of_sample armed 2546) = true /\
  ov_clear (volts_of_sample armed 2409) = true /\
  exists w' k, guardOverVoltage armed (bus 0 30000 30000) w0 = Ok true w' /\
               trace w' = trace w0 ++ Coast :: repeat (Delay OV_POLL_MS) k.
Proof.
  destruct (X7_s3_guard_thresholds armed (bus 0 30000 30000) w0 eq_refl)
    as [H1 H2].
  split; [rewrite (proj1 (H1 2546)); reflexivity|].
  split; [rewrite (proj2 (H1 2409)); reflexivity|].
  destruct H2 as (b & w' & k & Hrun & Hb & Htr); [vm_compute; discriminate|].
  change (b = true) in Hb. subst b.
  exists w', k. split; [exact Hrun | exact (proj1 (Htr eq_refl))].
Defined.

Lemma raw_chain_below n Mi M1 M2 M3 M4 :
  0 <= n -> n * 1024 <= Zpos Mi -> 2 ^ 23 <= Zpos Mi < 2 ^ 24 ->
  Zpos Mi * 2 ^ 24 <= Zpos M1 * 16773120 -> 2 ^ 23 <= Zpos M1 < 2 ^ 24 ->
  Zpos M1 * 9011200 <= Zpos M2 * 2 ^ 23 -> 2 ^ 23 <= Zpos M2 < 2 ^ 24 ->
  Zpos M2 * 2 ^ 24 <= Zpos M3 * 16384000 -> 2 ^ 23 <= Zpos M3 < 2 ^ 24 ->
  Zpos M3 * 11534336 <= Zpos M4 * 2 ^ 23 -> Zpos M4 < 2 ^ 24 ->
  below M4 (-19)
    ((((of_int n / f4095) * f1100) / f1000) * VDIV_RATIO)%f32.
Proof.
  intros Hn Hi [Hia Hib] H1 [H1a H1b] H2 [H2a H2b] H3 [H3a H3b] H4 H4b.
  apply (mul_below M3 (-22) _ 11534336 (-20));
    [ | exact H3a | lia | lia | exact H4b | exact H4 ].
  apply (div_below M2 (-12) _ 16384000 (-14));
    [ | exact H2a | reflexivity | lia | lia | exact H3b | exact H3 ].
  apply (mul_below M1 (-22) _ 9011200 (-13));
    [ | exact H1a | lia | lia | exact H2b | exact H2 ].
  apply (div_below Mi (-10) _ 16773120 (-12));
    [ | exact Hia | reflexivity | lia | lia | exact H1b | exact H1 ].
  apply of_int_below; [exact Hn | lia | exact Hib |].
  change (2 ^ (- -10)) with 1024. exact Hi.
Qed.

Lemma raw_chain_above n Mi M1 M2 M3 M4 :
  0 <= n < 2 ^ 32 -> Zpos Mi <= n * 1024 -> 2 ^ 23 <= Zpos Mi < 2 ^ 24 ->
  Zpos M1 * 16773120 <= Zpos Mi * 2 ^ 24 -> 2 ^ 23 <= Zpos M1 < 2 ^ 24 ->
  Zpos M2 * 2 ^ 23 <= Zpos M1 * 9011200 -> 2 ^ 23 <= Zpos M2 < 2 ^ 24 ->
  Zpos M3 * 16384000 <= Zpos M2 * 2 ^ 24 -> 2 ^ 23 <= Zpos M3 < 2 ^ 24 ->
  Zpos M4 * 2 ^ 23 <= Zpos M3 * 11534336 -> 2 ^ 23 <= Zpos M4 ->
  above M4 (-19)
    ((((of_int n / f4095) * f1100) / f1000) * VDIV_RATIO)%f32.
Proof.
  intros Hn Hi [Hia Hib] H1 [H1a H1b] H2 [H2a H2b] H3 [H3a H3b] H4 H4a.
  apply (mul_above M3 (-22) _ 11534336 (-20));
    [ | exact H3b | lia | lia | exact H4a | exact H4 ].
  apply (div_above M2 (-12) _ 16384000 (-14));
    [ | exact H2b | reflexivity | lia | lia | split; assumption | exact H3 ].
  apply (mul_above M1 (-22) _ 9011200 (-13));
    [ | exact H1b | lia | lia | exact H2a | exact H2 ].
  apply (div_above Mi (-10) _ 16773120 (-12));
    [ | exact Hib | reflexivity | lia | lia | split; assumption | exact H1 ].
  apply of_int_above; [exact Hn | lia | exact Hia |].
  change (2 ^ (- -10)) with 1024. lia.
Qed.

Ltac bounds :=
  first [ lia | discriminate | reflexivity
        | split; [discriminate | reflexivity] ].

(** X8. The thresholds of the guard in ADC counts on the generic
    path, for every non-negative [int] reading: the guard trips
    exactly from 9477 counts on and a poll clears exactly up to 8968
    counts.  Proved through the four roundings of
    [((raw / 4095) * 1100 / 1000) * 11]. *)
Theorem X8_raw_guard_thresholds cfg z :
  IDF_TARGET_ESP32S3 cfg = false -> 0 <= s32 z ->
  ov_trip (volts_of_sample cfg z) = (9477 <=? s32 z) /\
  ov_clear (volts_of_sample cfg z) = (s32 z <=? 8968).
Proof.
  intros Hs3 Hz. unfold volts_of_sample. rewrite Hs3. cbv zeta.
  assert (Hr : s32 z < 2 ^ 32).
  { unfold s32. pose proof (Z.mod_pos_bound (z + 2 ^ 31) (2 ^ 32) eq_refl). lia. }
  set (raw := s32 z) in *.
  split.
  - destruct (9477 <=? raw) eqn:Hc.
    + apply Z.leb_le in Hc. apply over_limit_trips.
      apply (above_ltb 14681558 (-19)); [|right; split; reflexivity].
      apply (raw_chain_above raw 9704448 9706817 10427244 10677497); bounds.
    + apply Z.leb_gt in Hc. unfold ov_trip.
      rewrite (leb_not_ltb _ VBUS_OV_LIMIT_VOLTS); [apply andb_false_r|].
      apply (below_leb 14680064 (-19)).
      apply (raw_chain_below raw 9703424 9705794 10426146 10676374); bounds.
  - destruct (raw <=? 8968) eqn:Hc.
    + apply Z.leb_le in Hc. unfold ov_clear.
      assert (Hb : below 13893033 (-19)
                     ((((of_int raw / f4095) * f1100) / f1000) * VDIV_RATIO)%f32).
      { apply (raw_chain_below raw 9183232 9185475 9867210 10104024); bounds. }
      rewrite (nonneg_leb _ (below_nonneg _ _ _ Hb)).
      apply (below_ltb _ _ _ _ _ Hb). right. split; reflexivity.
    + apply Z.leb_gt in Hc. apply above_clear_holds.
      apply (above_leb 13893632 (-19)).
      apply (raw_chain_above raw 9184256 9186498 9868308 10105147); bounds.
Qed.

Lemma X8_raw_guard_thresholds_witness :
  ov_trip (volts_of_sample armed_raw 9477) = true /\
  ov_clear (volts_of_sample armed_raw 8968) = true.
Proof.
  destruct (X8_raw_guard_thresholds armed_raw 9477 eq_refl) as [H1 _];
    [vm_compute; discriminate|].
  destruct (X8_raw_guard_thresholds armed_raw 8968 eq_refl) as [_ H2];
    [vm_compute; discriminate|].
  split; [rewrite H1 | rewrite H2]; reflexivity.
Defined.

(* ================================================================== *)
(** ** Time and counts of a ramp *)
(* ================================================================== *)

Lemma busy_app evs evs' : busy (evs ++ evs') = busy evs + busy evs'.
Proof.
  induction evs as [|[| |ms] evs IH]; cbn [app busy]; rewrite ?IH; lia.
Qed.

Lemma busy_repeat ms k : busy (repeat (Delay ms) k) = ms * Z.of_nat k.
Proof.
  induction k as [|k IH]; [simpl; lia|].
  cbn [repeat busy]. rewrite IH. lia.
Qed.

Lemma coast_calls_repeat ms k : coast_calls (repeat (Delay ms) k) = O.
Proof. induction k as [|k IH]; [reflexivity | exact IH]. Qed.

Lemma busy_ramp_events n s x :
  busy (ramp_events n s x) = SLEW_STEP_MS * Z.of_nat n.
Proof.
  revert x. induction n as [|n IH]; intros x; [simpl; lia|].
  cbn [ramp_events busy]. rewrite IH. lia.
Qed.

Lemma u32_add_l a b : u32 (u32 a + b) = u32 (a + b).
Proof. unfold u32. apply Zplus_mod_idemp_l. Qed.

Lemma u32_sub_l a b : u32 (u32 a - b) = u32 (a - b).
Proof. unfold u32. apply Zminus_mod_idemp_l. Qed.

(** The clock moves by the delays of the trace, modulo [2^32]. *)
Lemma advance_busy evs : forall t, u32 (advance evs t - t) = u32 (busy evs).
Proof.
  induction evs as [|[| |ms] evs IH]; intros t; cbn [advance busy].
  - now rewrite Z.sub_diag.
  - apply IH.
  - apply IH.
  - replace (advance evs (u32 (t + ms)) - t)
      with ((advance evs (u32 (t + ms)) - u32 (t + ms)) + (u32 (t + ms) - t))
      by lia.
    rewrite <- u32_add_l, IH, u32_add_l.
    replace (busy evs + (u32 (t + ms) - t)) with (u32 (t + ms) - (t - busy evs))
      by lia.
    rewrite u32_sub_l. f_equal. lia.
Qed.

Lemma u32_delay t ms : u32 (u32 (t + ms) - t) = u32 ms.
Proof. rewrite u32_sub_l. f_equal. lia. Qed.

Lemma u32_chain a b c x y :
  u32 (b - a) = u32 x -> u32 (c - b) = u32 y -> u32 (c - a) = u32 (x + y).
Proof.
  intros H1 H2. replace (c - a) with ((c - b) + (b - a)) by lia.
  rewrite <- u32_add_l, H2, u32_add_l, Z.add_comm.
  rewrite <- u32_add_l, H1, u32_add_l. reflexivity.
Qed.



(** X10. [guardOverVoltage] always returns, and soon: for every
    configuration, world and input signals it returns whether the
    sample it took trips ([false] at once, with the trace and the clock
    untouched, when the sensor is disabled or the sample does not
    trip); when it trips it has called [coast()] once and then only
    waited, [k <= 300] polls of 10 ms, so at most 3000 ms; it never
    reads the fault pin and takes at most 301 ADC samples. *)
Theorem X10_guardOverVoltage_bounded cfg sig w :
  exists b w' k,
    guardOverVoltage cfg sig w = Ok b w' /\
    b = trip_at cfg sig (adc_reads w) /\
    (k <= 300)%nat /\
    trace w' = trace w
               ++ (if b then Coast :: repeat (Delay OV_POLL_MS) k else []) /\
    u32 (now w' - now w) = (if b then OV_POLL_MS * Z.of_nat k else 0) /\
    pin_reads w' = pin_reads w /\
    (adc_reads w <= adc_reads w' <= adc_reads w + 301)%nat.
Proof.
  unfold trip_at. destruct (SUPPLY_ADC_PIN cfg <? 0) eqn:Hpin; cbn [negb andb].
  - exists false, w, O. rewrite guardOverVoltage_disabled by assumption.
    rewrite app_nil_r, Z.sub_diag. repeat split; lia.
  - destruct (ov_trip (vbus_at cfg sig (adc_reads w))) eqn:Htrip.
    + destruct (guard_trip_flag cfg sig w Hpin Htrip)
        as (k & vb' & w' & Hrun & Hp & Htr & Ht & _ & Hend).
      exists true, w', k. split; [exact Hrun|]. split; [reflexivity|].
      unfold OV_POLL_MS, OV_WAIT_MS in Hend.
      split; [destruct Hend as [[Hk _] | [Hk _]]; lia|].
      split; [exact Htr|]. split; [exact Ht|]. split; [exact Hp|].
      destruct Hend as [[Hk ->] | [Hk [-> _]]]; lia.
    + unfold guardOverVoltage, guardOverVoltage_vb. rewrite Hpin.
      unfold bind at 1 2. rewrite readVbusVolts_enabled by assumption.
      rewrite Htrip. unfold ret. cbn [fst].
      eexists false, _, O. split; [reflexivity|].
      cbn [trace now pin_reads adc_reads].
      rewrite app_nil_r, Z.sub_diag. repeat split; lia.
Qed.

Lemma guard_run cfg sig w :
  exists b w' k,
    guardOverVoltage cfg sig w = Ok b w' /\
    (k <= 300)%nat /\
    trace w' = trace w
               ++ (if b then Coast :: repeat (Delay OV_POLL_MS) k else []) /\
    u32 (now w' - now w) = (if b then OV_POLL_MS * Z.of_nat k else 0).
Proof.
  destruct (SUPPLY_ADC_PIN cfg <? 0) eqn:Hpin.
  - exists false, w, O. rewrite guardOverVoltage_disabled by assumption.
    rewrite app_nil_r, Z.sub_diag. repeat split; lia.
  - destruct (ov_trip (vbus_at cfg sig (adc_reads w))) eqn:Htrip.
    + destruct (guard_trip_flag cfg sig w Hpin Htrip)
        as (k & vb' & w' & Hrun & Hp & Htr & Ht & _ & Hend).
      exists true, w', k. split; [exact Hrun|].
      unfold OV_POLL_MS, OV_WAIT_MS in Hend.
      split; [destruct Hend as [[Hk _] | [Hk _]]; lia|].
      split; [exact Htr | exact Ht].
    + unfold guardOverVoltage, guardOverVoltage_vb. rewrite Hpin.
      unfold bind at 1 2. rewrite readVbusVolts_enabled by assumption.
      rewrite Htrip. unfold ret. cbn [fst].
      eexists false, _, O. split; [reflexivity|]. cbn [trace now].
      rewrite app_nil_r, Z.sub_diag. repeat split; lia.
Qed.

(* ---------------------------------------------------------------- *)
(** *** The time a ramp takes *)



Lemma busy_bracket_before delta :
  busy (bracket_before delta) = if is_jump delta then COAST_BEFORE_JUMP_MS else 0.
Proof. unfold bracket_before. destruct (is_jump delta); reflexivity. Qed.

Lemma busy_bracket_after delta :
  busy (bracket_after delta) = if is_jump delta then COAST_AFTER_JUMP_MS else 0.
Proof. unfold bracket_after. destruct (is_jump delta); reflexivity. Qed.

(** X11. The time and the samples of an uninterrupted ramp: when the
    entry check and the checks of its [n] steps find neither a fault
    nor an over-voltage, [safeRampTo] returns after [18 * n] ms of
    delay, 150 ms more (90 before, 60 after) when the change is a jump
    of at least 12 percent, measured on the [uint32_t] clock; it has
    sampled each wired interlock exactly [n + 1] times. *)
Theorem X11_uninterrupted_ramp_duration cfg sig L T w n :
  let delta := (clampPct T - L)%f32 in
  ramp_steps delta = Some n ->
  quiet cfg sig w (S (Z.to_nat n)) = true ->
  exists x w',
    safeRampTo cfg sig L T w = Ok x w' /\
    u32 (now w' - now w)
    = u32 (SLEW_STEP_MS * n
           + (if is_jump delta
              then COAST_BEFORE_JUMP_MS + COAST_AFTER_JUMP_MS else 0)) /\
    pin_reads w' = (if FAULT_PIN cfg <? 0 then pin_reads w
                    else (pin_reads w + S (Z.to_nat n))%nat) /\
    adc_reads w' = (if SUPPLY_ADC_PIN cfg <? 0 then adc_reads w
                    else (adc_reads w + S (Z.to_nat n))%nat).
Proof.
  intros delta Hn Hq.
  pose proof (safeRampTo_quiet cfg sig L T w n Hn (quiet_upto cfg sig w _ Hq))
    as Hrun. cbv zeta in Hrun. fold delta in Hrun.
  eexists _, _. split; [exact Hrun|]. unfold after. cbn [now pin_reads adc_reads].
  split; [|split; reflexivity].
  rewrite advance_busy, !busy_app, busy_bracket_before, busy_bracket_after,
    busy_ramp_events.
  pose proof (ramp_steps_pos _ _ Hn). rewrite Z2Nat.id by lia.
  f_equal. destruct (is_jump delta); lia.
Qed.

Lemma X11_uninterrupted_ramp_duration_witness :
  exists x w',
    safeRampTo armed idle (of_int 20) (of_int 75) w0 = Ok x w' /\
    u32 (now w' - now w0) = 18 * 19 + 150 /\
    pin_reads w' = 20%nat /\ adc_reads w' = 20%nat.
Proof.
  assert (H1 : ramp_steps (clampPct (of_int 75) - of_int 20)%f32 = Some 19)
    by (vm_compute; reflexivity).
  assert (H2 : quiet armed idle w0 (S (Z.to_nat 19)) = true)
    by (vm_compute; reflexivity).
  pose proof (X11_uninterrupted_ramp_duration armed idle (of_int 20)
                (of_int 75) w0 19 H1 H2) as H.
  cbv zeta in H. destruct H as (x & w' & Hrun & Ht & Hp & Ha).
  exists x, w'. split; [exact Hrun|].
  split; [rewrite Ht; vm_compute; reflexivity|].
  split; [rewrite Hp | rewrite Ha]; reflexivity.
Defined.

(* ---------------------------------------------------------------- *)
(** *** Bounds on every run *)



Section Counts.

Variable cfg : Config.
Variable sig : Signals.

Lemma faultActive_run w :
  exists b w', faultActive cfg sig w = Ok b w' /\
               trace w' = trace w /\ now w' = now w.
Proof.
  unfold faultActive. destruct (FAULT_PIN cfg <? 0).
  - exists false, w. repeat split.
  - unfold bind, digitalRead, ret. eexists _, _. repeat split.
Qed.

Lemma guard_counts w :
  exists b w' evs,
    guardOverVoltage cfg sig w = Ok b w' /\
    trace w' = trace w ++ evs /\
    drive_calls evs = [] /\
    coast_calls evs = (if b then 1 else 0)%nat /\
    0 <= busy evs <= (if b then OV_WAIT_MS else 0) /\
    u32 (now w' - now w) = u32 (busy evs).
Proof.
  destruct (guard_run cfg sig w) as (b & w' & k & Hrun & Hk & Htr & Ht).
  exists b, w', (if b then Coast :: repeat (Delay OV_POLL_MS) k else []).
  split; [exact Hrun|]. split; [exact Htr|]. rewrite Ht.
  destruct b.
  - split; [apply drive_calls_wait|]. cbn [coast_calls busy].
    rewrite coast_calls_repeat, busy_repeat.
    unfold OV_POLL_MS, OV_WAIT_MS. split; [reflexivity|]. split; [lia|].
    rewrite u32_small; [reflexivity|]. change (2 ^ 32) with 4294967296. lia.
  - repeat split; simpl; lia.
Qed.

Lemma ramp_loop_counts n s : forall x w,
  exists b x' w' evs,
    ramp_loop cfg sig n s x w = Ok (b, x') w' /\
    trace w' = trace w ++ evs /\
    (length (drive_calls evs) <= n)%nat /\
    coast_calls evs = (if b then 1 else 0)%nat /\
    0 <= busy evs
      <= SLEW_STEP_MS * Z.of_nat n + (if b then OV_WAIT_MS else 0) /\
    u32 (now w' - now w) = u32 (busy evs).
Proof.
  unfold SLEW_STEP_MS, OV_WAIT_MS.
  induction n as [|n IH]; intros x w.
  - exists false, x, w, []. rewrite app_nil_r, Z.sub_diag.
    repeat split; simpl; lia.
  - cbn [ramp_loop].
    destruct (faultActive_run w) as (b1 & w1 & Hf & Htr1 & Hn1).
    rewrite (bind_run _ _ _ _ _ Hf). destruct b1.
    + unfold bind, coast, emit, ret. cbn [trace now].
      eexists true, _, _, [Coast]. split; [reflexivity|].
      rewrite Htr1, Hn1, Z.sub_diag. repeat split; simpl; lia.
    + destruct (guard_counts w1)
        as (b2 & w2 & evs2 & Hg & Htr2 & Hd2 & Hc2 & Hb2 & Ht2).
      rewrite (bind_run _ _ _ _ _ Hg). destruct b2.
      * unfold ret. exists true, f0, w2, evs2. rewrite Htr2, Htr1, <- Hn1.
        unfold OV_WAIT_MS in Hb2.
        repeat split; try assumption; try lia. rewrite Hd2. simpl. lia.
      * unfold bind at 1, drive at 1, emit at 1.
        unfold bind at 1, delay at 1.
        match goal with |- context [ramp_loop cfg sig n s ?x1 ?w3] =>
          destruct (IH x1 w3)
            as (b & x' & w' & evs & Hrun & Htr & Hd & Hc & Hb & Ht)
        end.
        cbn [trace now pin_reads adc_reads] in Htr, Ht.
        exists b, x', w',
          (evs2 ++ [Drive (x + s)%f32; Delay SLEW_STEP_MS] ++ evs).
        split; [exact Hrun|]. split.
        { rewrite Htr, Htr2, Htr1, <- !app_assoc. reflexivity. }
        rewrite !drive_calls_app, !coast_calls_app, !busy_app, Hd2, Hc2.
        cbn [app drive_calls coast_calls busy length Nat.add].
        unfold SLEW_STEP_MS in *.
        split; [lia|]. split; [exact Hc|]. split; [lia|].
        rewrite <- Hn1.
        apply (u32_chain _ (now w2)); [exact Ht2|].
        replace (18 + 0 + busy evs) with (18 + busy evs) by lia.
        apply (u32_chain _ (u32 (now w2 + 18))); [|exact Ht].
        apply u32_delay.
Qed.

Lemma bracket_counts (ms : Z) (j : bool) w :
  0 <= ms ->
  exists w' evs,
    (if j then coast ;; delay ms else ret tt) w = Ok tt w' /\
    trace w' = trace w ++ evs /\
    drive_calls evs = [] /\
    coast_calls evs = (if j then 1 else 0)%nat /\
    busy evs = (if j then ms else 0) /\
    u32 (now w' - now w) = u32 (busy evs).
Proof.
  intros Hms. destruct j.
  - eexists _, [Coast; Delay ms]. unfold bind, coast, emit, delay.
    cbn [trace now]. split; [reflexivity|]. rewrite <- app_assoc.
    repeat split; try (simpl; lia).
    cbn [busy]. rewrite Z.add_0_r. apply u32_delay.
  - exists w, []. rewrite app_nil_r, Z.sub_diag. repeat split.
Qed.

Lemma safeRampTo_counts L T w n :
  ramp_steps (clampPct T - L)%f32 = Some n ->
  exists x w' evs,
    safeRampTo cfg sig L T w = Ok x w' /\
    trace w' = trace w ++ evs /\
    (length (drive_calls evs) <= Z.to_nat n)%nat /\
    (coast_calls evs <= 2)%nat /\
    0 <= busy evs <= SLEW_STEP_MS * n + COAST_BEFORE_JUMP_MS + OV_WAIT_MS /\
    u32 (now w' - now w) = u32 (busy evs).
Proof.
  intros Hn. pose proof (ramp_steps_pos _ _ Hn) as Hpos.
  unfold safeRampTo. set (delta := (clampPct T - L)%f32) in *.
  destruct (faultActive_run w) as (b1 & w1 & Hf & Htr1 & Hn1).
  rewrite (bind_run _ _ _ _ _ Hf). destruct b1.
  - unfold bind, coast, emit, ret. cbn [trace now].
    eexists L, _, [Coast]. split; [reflexivity|].
    rewrite Htr1, Hn1, Z.sub_diag.
    unfold SLEW_STEP_MS, COAST_BEFORE_JUMP_MS, OV_WAIT_MS.
    cbn [trace drive_calls coast_calls busy length]. repeat split; lia.
  - destruct (guard_counts w1)
      as (b2 & w2 & evs2 & Hg & Htr2 & Hd2 & Hc2 & Hb2 & Ht2).
    rewrite (bind_run _ _ _ _ _ Hg). destruct b2.
    + unfold ret. exists f0, w2, evs2. rewrite Htr2, Htr1, <- Hn1, Hd2, Hc2.
      unfold SLEW_STEP_MS, COAST_BEFORE_JUMP_MS, OV_WAIT_MS in *.
      cbn [length]. repeat split; try assumption; lia.
    + rewrite Hn.
      destruct (bracket_counts COAST_BEFORE_JUMP_MS (is_jump delta) w2)
        as (w3 & evs3 & Hp & Htr3 & Hd3 & Hc3 & Hb3 & Ht3);
        [unfold COAST_BEFORE_JUMP_MS; lia|].
      rewrite (bind_run _ _ _ _ _ Hp).
      destruct (ramp_loop_counts (Z.to_nat n) (delta / of_int n)%f32 L w3)
        as (b & x' & w4 & evs4 & Hrun & Htr4 & Hd4 & Hc4 & Hb4 & Ht4).
      rewrite (bind_run _ _ _ _ _ Hrun). cbn [fst snd].
      rewrite Z2Nat.id in Hb4 by lia.
      assert (Ht24 : u32 (now w4 - now w) = u32 (busy evs2 + busy evs3 + busy evs4)).
      { rewrite <- Hn1. apply (u32_chain _ (now w3)); [|exact Ht4].
        apply (u32_chain _ (now w2)); assumption. }
      destruct b.
      * unfold ret. exists x', w4, (evs2 ++ evs3 ++ evs4).
        split; [reflexivity|]. split.
        { rewrite Htr4, Htr3, Htr2, Htr1, <- !app_assoc. reflexivity. }
        rewrite !drive_calls_app, !coast_calls_app, !busy_app, Hd2, Hd3, Hc2,
          Hc3, Hc4, Hb3.
        unfold SLEW_STEP_MS, COAST_BEFORE_JUMP_MS, OV_WAIT_MS in *.
        cbn [app]. split; [exact Hd4|].
        split; [destruct (is_jump delta); simpl; lia|].
        split; [destruct (is_jump delta); lia|].
        rewrite Ht24, Hb3. f_equal. lia.
      * destruct (bracket_counts COAST_AFTER_JUMP_MS (is_jump delta) w4)
          as (w5 & evs5 & Hq & Htr5 & Hd5 & Hc5 & Hb5 & Ht5);
          [unfold COAST_AFTER_JUMP_MS; lia|].
        rewrite (bind_run _ _ _ _ _ Hq). unfold ret.
        exists x', w5, (evs2 ++ evs3 ++ evs4 ++ evs5).
        split; [reflexivity|]. split.
        { rewrite Htr5, Htr4, Htr3, Htr2, Htr1, <- !app_assoc. reflexivity. }
        rewrite !drive_calls_app, !coast_calls_app, !busy_app, Hd2, Hd3, Hd5,
          Hc2, Hc3, Hc4, Hc5, Hb3, Hb5, app_nil_r.
        unfold SLEW_STEP_MS, COAST_BEFORE_JUMP_MS, COAST_AFTER_JUMP_MS,
          OV_WAIT_MS in *.
        cbn [app]. split; [exact Hd4|].
        split; [destruct (is_jump delta); simpl; lia|].
        split; [destruct (is_jump delta); lia|].
        replace (busy evs2 + ((if is_jump delta then 90 else 0)
                              + (busy evs4 + (if is_jump delta then 60 else 0))))
          with ((busy evs2 + busy evs3 + busy evs4) + busy evs5)
          by (rewrite Hb3, Hb5; lia).
        apply (u32_chain _ (now w4)); assumption.
Qed.

End Counts.

(** X12. Every ramp ends in bounded time, whatever the fault and
    voltage inputs do: from a well-formed LastCommandedDuty in [0, 100]
    and a well-formed target that is not a NaN, [safeRampTo] returns
    after at most [n <= 256] [drive()] calls ([n] the step count), at
    most two [coast()] calls, and at most [18 * n + 90 + 3000] ms of
    delay (7698 ms at most); the clock has advanced by exactly the
    delays of the trace. *)
Theorem X12_safeRampTo_bounded cfg sig w (L T : f32) :
  valid L = true -> (f0 <=? L)%f32 = true -> (L <=? f100)%f32 = true ->
  valid T = true -> is_nan T = false ->
  exists n x w' evs,
    ramp_steps (clampPct T - L)%f32 = Some n /\ 1 <= n <= 256 /\
    safeRampTo cfg sig L T w = Ok x w' /\
    trace w' = trace w ++ evs /\
    (length (drive_calls evs) <= Z.to_nat n)%nat /\
    (coast_calls evs <= 2)%nat /\
    0 <= busy evs <= SLEW_STEP_MS * n + COAST_BEFORE_JUMP_MS + OV_WAIT_MS /\
    u32 (now w' - now w) = busy evs.
Proof.
  intros HvL H0 H1 HvT HnT.
  pose proof (in_range_shape L HvL H0 H1) as HL.
  pose proof (clampPct_shape T HvT HnT) as HT.
  destruct (ramp_steps_defined L _ HL HT) as (n & Hn & Hnr).
  destruct (safeRampTo_counts cfg sig L T w n Hn)
    as (x & w' & evs & Hrun & Htr & Hd & Hc & Hb & Ht).
  exists n, x, w', evs. repeat split; try assumption; try lia.
  rewrite Ht. apply u32_small.
  unfold SLEW_STEP_MS, COAST_BEFORE_JUMP_MS, OV_WAIT_MS in Hb.
  change (2 ^ 32) with 4294967296. lia.
Qed.

Lemma X12_safeRampTo_bounded_witness :
  exists x w' evs,
    safeRampTo armed (bus 0 30000 30000) f0 (of_int 1000) w0 = Ok x w' /\
    trace w' = trace w0 ++ evs /\
    (coast_calls evs <= 2)%nat /\ busy evs <= 7698.
Proof.
  assert (H1 : valid f0 = true) by (vm_compute; reflexivity).
  assert (H2 : (f0 <=? f0)%f32 = true) by (vm_compute; reflexivity).
  assert (H3 : (f0 <=? f100)%f32 = true) by (vm_compute; reflexivity).
  assert (H4 : valid (of_int 1000) = true) by (vm_compute; reflexivity).
  assert (H5 : is_nan (of_int 1000) = false) by (vm_compute; reflexivity).
  destruct (X12_safeRampTo_bounded armed (bus 0 30000 30000) w0 f0
              (of_int 1000) H1 H2 H3 H4 H5)
    as (n & x & w' & evs & _ & Hn & Hrun & Htr & _ & Hc & Hb & _).
  exists x, w', evs. split; [exact Hrun|]. split; [exact Htr|].
  split; [exact Hc|].
  unfold SLEW_STEP_MS, COAST_BEFORE_JUMP_MS, OV_WAIT_MS in Hb. lia.
Defined.

(* ---------------------------------------------------------------- *)
(** *** The duty the LEDC backend writes *)



Lemma round_aux_digits_ok s m e l :
  0 <= m -> digits_ok (binary_round_aux prec emax s m e l).
Proof.
  intros Hm. unfold binary_round_aux.
  pose proof (shr_fexp_spec m e l Hm) as (H1 & _).
  destruct (shr_fexp prec emax m e l) as [mrs' e']. cbn [fst snd] in *.
  pose proof (round_nearest_even_spec (shr_m mrs') (loc_of_shr_record mrs') H1)
    as [H2 _].
  set (m2 := round_nearest_even (shr_m mrs') (loc_of_shr_record mrs')) in *.
  pose proof (shr_fexp_spec m2 e' loc_Exact H2) as (H3 & _).
  pose proof (shr_fexp_digits m2 e' loc_Exact H2) as D3.
  destruct (shr_fexp prec emax m2 e' loc_Exact) as [mrs'' e''].
  cbn [fst snd] in *. unfold fexp32 in D3.
  destruct (shr_m mrs'') as [|p|p]; [exact I| |lia].
  destruct (e'' <=? emax - prec); [|exact I].
  cbn [digits_ok]. cbn [Zdigits2] in D3. lia.
Qed.

Lemma binary_normalize_digits_ok m e sz :
  digits_ok (binary_normalize prec emax m e sz).
Proof.
  destruct m as [|p|p]; cbn [binary_normalize]; [exact I| |];
    unfold binary_round; destruct (shl_align p e _) as [mz ez];
    apply round_aux_digits_ok; lia.
Qed.

Lemma add_digits_ok x y : digits_ok x -> digits_ok y -> digits_ok (x + y)%f32.
Proof.
  intros Hx Hy. unfold F32.add, SFadd.
  destruct x as [sx|sx| |sx mx ex], y as [sy|sy| |sy my ey];
    try exact I; try assumption;
    try (destruct sx, sy; exact I).
  apply binary_normalize_digits_ok.
Qed.

Lemma div_digits_ok x y : digits_ok (x / y)%f32.
Proof.
  unfold F32.div, SFdiv.
  destruct x as [sx|sx| |sx mx ex], y as [sy|sy| |sy my ey]; try exact I.
  unfold SFdiv_core_binary.
  match goal with |- context [Z.div_eucl ?a ?b] =>
    pose proof (Z_div_mod a b eq_refl) as Hdiv;
    assert (Ha : 0 <= a);
    [| destruct (Z.div_eucl a b) as [q r] ] end.
  - match goal with |- 0 <= match ?s with _ => _ end =>
      destruct s as [|p|p] eqn:Es end; try lia.
    apply Z.shiftl_nonneg. lia.
  - destruct Hdiv as [Hq Hr]. apply round_aux_digits_ok. nia.
Qed.

Lemma ramp_final_digits_ok s j : forall x,
  digits_ok s -> digits_ok x -> digits_ok (ramp_final j s x).
Proof.
  induction j as [|j IH]; intros x Hs Hx; [exact Hx|].
  cbn [ramp_final]. apply IH; [exact Hs | now apply add_digits_ok].
Qed.

Lemma ledc_drive_range d :
  digits_ok d -> is_nan d = false ->
  exists duty, ledc_drive d = Some duty /\ 0 <= duty <= 2 ^ LEDC_BITS - 1.
Proof.
  intros Hd Hn. unfold ledc_drive, ledc_drive_pct, MIN_EFFECTIVE_LEDC.
  destruct (clampPct d <? f0)%f32.
  - exists 0. split; [reflexivity | unfold LEDC_BITS; simpl; lia].
  - apply pctToDuty10_digits_ok.
    + now apply clampPct_digits_ok.
    + now rewrite clampPct_nan.
Qed.

(** X5. The LEDC duty register is never written out of range during
    a ramp: from a well-formed LastCommandedDuty in [0, 100] and a
    well-formed target that is not a NaN, whatever the inputs do, for
    every duty [safeRampTo] passes to [drive()] the conversion of
    [ledc_drive] is defined and the duty it writes lies in [0, 1023],
    although the percentage itself may exceed 100 by rounding. *)
Theorem X5_ledc_duty_in_any_ramp cfg sig w (L T : f32) :
  valid L = true -> (f0 <=? L)%f32 = true -> (L <=? f100)%f32 = true ->
  valid T = true -> is_nan T = false ->
  exists x w' evs,
    safeRampTo cfg sig L T w = Ok x w' /\
    trace w' = trace w ++ evs /\
    Forall (fun d => exists duty,
              ledc_drive d = Some duty /\ 0 <= duty <= 2 ^ LEDC_BITS - 1)
           (drive_calls evs).
Proof.
  intros HvL H0 H1 HvT HnT.
  pose proof (in_range_shape L HvL H0 H1) as HL.
  pose proof (clampPct_shape T HvT HnT) as HT.
  destruct (ramp_steps_defined L _ HL HT) as (n & Hn & Hnr).
  pose proof (step_summable L _ n HL HT Hnr) as Hsum.
  destruct (safeRampTo_any cfg sig L T w n Hn)
    as (x & w' & evs & Hrun & Htr & (k & Hkn & Hk) & Hx).
  exists x, w', evs. split; [exact Hrun|]. split; [exact Htr|].
  eapply Forall_drive_calls_prefix; [|exact Hk].
  intros j. cbv beta. apply ledc_drive_range.
  - apply ramp_final_digits_ok; [apply div_digits_ok | now apply valid_digits_ok].
  - eapply summable_not_nan, summable_ramp_final, Hsum.
Qed.

Lemma X5_ledc_duty_in_any_ramp_witness :
  exists x w' evs,
    safeRampTo shipped idle f0 f100 w0 = Ok x w' /\
    trace w' = trace w0 ++ evs /\
    Forall (fun d => exists duty,
              ledc_drive d = Some duty /\ 0 <= duty <= 2 ^ LEDC_BITS - 1)
           (drive_calls evs).
Proof.
  assert (H1 : valid f0 = true) by (vm_compute; reflexivity).
  assert (H2 : (f0 <=? f0)%f32 = true) by (vm_compute; reflexivity).
  assert (H3 : (f0 <=? f100)%f32 = true) by (vm_compute; reflexivity).
  assert (H4 : valid f100 = true) by (vm_compute; reflexivity).
  assert (H5 : is_nan f100 = false) by (vm_compute; reflexivity).
  exact (X5_ledc_duty_in_any_ramp shipped idle w0 f0 f100 H1 H2 H3 H4 H5).
Defined.

(* ================================================================== *)
(** ** A held fault *)
(* ================================================================== *)

Section Stopped.

Variable cfg : Config.
Variable sig : Signals.

Lemma safeRampTo_fault_after L T w kp ka evs :
  fault_at cfg sig (pin_reads w + kp) = true ->
  safeRampTo cfg sig L T (after cfg w kp ka evs)
  = Ok L (after cfg w (S kp) ka (evs ++ [Coast])).
Proof.
  intros Hf. unfold safeRampTo.
  rewrite (bind_run _ _ _ _ _ (faultActive_after cfg sig w kp ka evs)), Hf.
  now rewrite (bind_run _ _ _ _ _ (coast_after _ _ _ _ _)).
Qed.

(** A pass of a phase loop that finds the fault input active twice:
    at the entry of [safeRampTo] and at the check of the phase. *)
Lemma pass_fault {St} (L T : f32) (brk cont : f32 -> St) (hold : Z) w kp ka evs :
  fault_at cfg sig (pin_reads w + kp) = true ->
  fault_at cfg sig (pin_reads w + S kp) = true ->
  (lastPct <- safeRampTo cfg sig L T ;;
   f <- faultActive cfg sig ;;
   if f then coast ;; ret (true, brk lastPct)
   else delay hold ;; ret (false, cont lastPct)) (after cfg w kp ka evs)
  = Ok (true, brk L) (after cfg w (S (S kp)) ka (evs ++ [Coast; Coast])).
Proof.
  intros H1 H2.
  rewrite (bind_run _ _ _ _ _ (safeRampTo_fault_after L T w kp ka evs H1)).
  rewrite (bind_run _ _ _ _ _ (faultActive_after cfg sig w (S kp) ka _)), H2.
  rewrite (bind_run _ _ _ _ _ (coast_after _ _ _ _ _)).
  unfold ret. now rewrite <- app_assoc.
Qed.

Lemma now_after w kp ka evs : now (after cfg w kp ka evs) = advance evs (now w).
Proof. reflexivity. Qed.

(** A phase loop entered at its start time runs its body. *)
Lemma while_elapsed_enter {St} fuel limit (body : St -> M (bool * St)) s w :
  0 < limit ->
  while_elapsed (S fuel) (now w) limit body s w
  = (r <- body s ;;
     if fst r then ret (snd r)
     else while_elapsed fuel (now w) limit body (snd r)) w.
Proof.
  intros Hl. cbn [while_elapsed]. unfold bind at 1, millis at 1.
  rewrite Z.sub_diag. change (u32 0) with 0.
  destruct (0 <? limit) eqn:E; [reflexivity | apply Z.ltb_ge in E; lia].
Qed.

Lemma do_warmup_fault fuel L w kp ka evs :
  fault_at cfg sig (pin_reads w + kp) = true ->
  fault_at cfg sig (pin_reads w + S kp) = true ->
  do_warmup cfg sig (S fuel) L (after cfg w kp ka evs)
  = Ok L (after cfg w (S (S kp)) ka (evs ++ stopped BURST_COAST_MS)).
Proof.
  intros H1 H2. unfold do_warmup. unfold bind at 1, millis at 1.
  unfold bind at 1. rewrite while_elapsed_enter by reflexivity.
  unfold bind at 1, warmup_body at 1.
  rewrite (pass_fault L WARMUP_DUTY (fun l => l) (fun l => l) 10 w kp ka evs H1 H2).
  cbn [fst snd]. unfold ret at 1.
  rewrite (bind_run _ _ _ _ _ (coast_after _ _ _ _ _)).
  rewrite (bind_run _ _ _ _ _ (delay_after _ _ _ _ _ _)).
  unfold ret, stopped. now rewrite <- !app_assoc.
Qed.

Lemma do_step_load_fault fuel L w kp ka evs :
  fault_at cfg sig (pin_reads w + kp) = true ->
  fault_at cfg sig (pin_reads w + S kp) = true ->
  do_step_load cfg sig (S fuel) L (after cfg w kp ka evs)
  = Ok L (after cfg w (S (S kp)) ka (evs ++ stopped BURST_COAST_MS)).
Proof.
  intros H1 H2. unfold do_step_load. unfold bind at 1, millis at 1.
  unfold bind at 1. rewrite while_elapsed_enter by reflexivity.
  unfold bind at 1.
  change (step_load_body cfg sig (false, L))
    with (lastPct <- safeRampTo cfg sig L STEP_LOW ;;
          f <- faultActive cfg sig ;;
          if f then coast ;; ret (true, (false, lastPct))
          else delay STEP_HOLD_MS ;; ret (false, (true, lastPct))).
  rewrite (pass_fault L STEP_LOW (fun l => (false, l)) (fun l => (true, l))
             STEP_HOLD_MS w kp ka evs H1 H2).
  cbn [fst snd]. unfold ret at 1.
  rewrite (bind_run _ _ _ _ _ (coast_after _ _ _ _ _)).
  rewrite (bind_run _ _ _ _ _ (delay_after _ _ _ _ _ _)).
  unfold ret, stopped. cbn [snd]. now rewrite <- !app_assoc.
Qed.

Lemma do_bursts_fault fuel L w kp ka evs :
  fault_at cfg sig (pin_reads w + kp) = true ->
  fault_at cfg sig (pin_reads w + S kp) = true ->
  do_bursts cfg sig (S fuel) L (after cfg w kp ka evs)
  = Ok L (after cfg w (S (S kp)) ka (evs ++ stopped_bursts)).
Proof.
  intros H1 H2. unfold do_bursts. unfold bind at 1, millis at 1.
  unfold bind at 1. rewrite while_elapsed_enter by reflexivity.
  unfold bind at 1, bursts_body at 1.
  rewrite (bind_run _ _ _ _ _ (coast_after _ _ _ _ _)).
  rewrite (bind_run _ _ _ _ _ (delay_after _ _ _ _ _ _)).
  rewrite (pass_fault L BURST_DUTY (fun l => l) (fun l => l) BURST_ON_MS
             w kp ka _ H1 H2).
  cbn [fst snd]. unfold ret at 1.
  rewrite (bind_run _ _ _ _ _ (coast_after _ _ _ _ _)).
  rewrite (bind_run _ _ _ _ _ (delay_after _ _ _ _ _ _)).
  unfold ret, stopped_bursts. now rewrite <- !app_assoc.
Qed.

Lemma do_soak_fault fuel L w kp ka evs :
  fault_at cfg sig (pin_reads w + kp) = true ->
  fault_at cfg sig (pin_reads w + S kp) = true ->
  do_soak cfg sig (S fuel) L (after cfg w kp ka evs)
  = Ok L (after cfg w (S (S kp)) ka (evs ++ stopped GAP_MS)).
Proof.
  intros H1 H2. unfold do_soak. unfold bind at 1, millis at 1.
  unfold bind at 1. rewrite while_elapsed_enter by reflexivity.
  unfold bind at 1, soak_body at 1.
  rewrite (pass_fault L SOAK_DUTY (fun l => l) (fun l => l) 20 w kp ka evs H1 H2).
  cbn [fst snd]. unfold ret at 1.
  rewrite (bind_run _ _ _ _ _ (coast_after _ _ _ _ _)).
  rewrite (bind_run _ _ _ _ _ (delay_after _ _ _ _ _ _)).
  unfold ret, stopped. now rewrite <- !app_assoc.
Qed.

End Stopped.

Lemma run_phases_fault cfg sig fuel L w kp ka evs :
  (forall k, (k < 8)%nat -> fault_at cfg sig (pin_reads w + (kp + k)) = true) ->
  run_phases cfg sig (S fuel) L (after cfg w kp ka evs)
  = Ok L (after cfg w (8 + kp) ka
            (evs ++ stopped BURST_COAST_MS ++ stopped BURST_COAST_MS
             ++ stopped_bursts ++ stopped GAP_MS)).
Proof.
  intros H. unfold run_phases.
  assert (Hk : forall k, (k < 8)%nat ->
            fault_at cfg sig (pin_reads w + Nat.iter k S kp) = true).
  { intros k Hk. replace (Nat.iter k S kp) with (kp + k)%nat; [now apply H|].
    clear. induction k as [|k IH]; simpl; lia. }
  rewrite (bind_run _ _ _ _ _
             (do_warmup_fault cfg sig fuel L w kp ka evs
                (Hk 0%nat ltac:(lia)) (Hk 1%nat ltac:(lia)))).
  rewrite (bind_run _ _ _ _ _
             (do_step_load_fault cfg sig fuel L w _ ka _
                (Hk 2%nat ltac:(lia)) (Hk 3%nat ltac:(lia)))).
  rewrite (bind_run _ _ _ _ _
             (do_bursts_fault cfg sig fuel L w _ ka _
                (Hk 4%nat ltac:(lia)) (Hk 5%nat ltac:(lia)))).
  rewrite (do_soak_fault cfg sig fuel L w _ ka _
             (Hk 6%nat ltac:(lia)) (Hk 7%nat ltac:(lia))).
  now rewrite <- !app_assoc.
Qed.

(** X15. A held fault stops every stress routine at once.  When the
    fault input is active at the next two samples (the entry check of
    [safeRampTo] and the check of the routine), [do_warmup],
    [do_step_load], [do_bursts] and [do_soak] return after a single
    pass without one [drive()] call, with LastCommandedDuty as it was
    (whatever it was): three [coast()] calls ([safeRampTo], the
    [break], the end of the routine) and the closing gap; [do_bursts]
    adds the coast gap that opens its pass. *)
Theorem X15_phases_stop_on_fault cfg sig w fuel L :
  fault_at cfg sig (pin_reads w) = true ->
  fault_at cfg sig (S (pin_reads w)) = true ->
  do_warmup cfg sig (S fuel) L w
  = Ok L (after cfg w 2 0 (stopped BURST_COAST_MS)) /\
  do_step_load cfg sig (S fuel) L w
  = Ok L (after cfg w 2 0 (stopped BURST_COAST_MS)) /\
  do_bursts cfg sig (S fuel) L w
  = Ok L (after cfg w 2 0 stopped_bursts) /\
  do_soak cfg sig (S fuel) L w
  = Ok L (after cfg w 2 0 (stopped GAP_MS)).
Proof.
  intros H1 H2.
  rewrite <- (Nat.add_0_r (pin_reads w)) in H1.
  rewrite <- (Nat.add_1_r (pin_reads w)) in H2.
  rewrite <- (after_start cfg w) at 1 3 5 7.
  rewrite do_warmup_fault, do_step_load_fault, do_bursts_fault, do_soak_fault
    by assumption.
  repeat split.
Qed.

Lemma X15_phases_stop_on_fault_witness :
  do_warmup armed (fault_from 0) 1 WARMUP_DUTY w0
  = Ok WARMUP_DUTY (after armed w0 2 0 (stopped BURST_COAST_MS)).
Proof.
  apply (X15_phases_stop_on_fault armed (fault_from 0) w0 0 WARMUP_DUTY);
    reflexivity.
Defined.

(** X16. Under a held fault a whole bench cycle makes no [drive()]
    call.  When the fault input is active at the next 16 samples, one
    pass of [loop()] runs the four routines of both backends without a
    single [drive()] call and returns with both LastCommandedDuty
    values as they were: 28 [coast()] calls, and 603460 ms of delay
    (the gaps, the two [delay(50)] of the end of a phase and the two
    cool-downs of 300000 ms, which are not shortened). *)
Theorem X16_loop_stops_on_fault cfg sig w fuel st :
  (forall k, (k < 16)%nat -> fault_at cfg sig (pin_reads w + k) = true) ->
  loop cfg sig (S fuel) st w
  = Ok st (after cfg w 16 0 (stopped_backend ++ stopped_backend)) /\
  drive_calls (stopped_backend ++ stopped_backend) = [] /\
  coast_calls (stopped_backend ++ stopped_backend) = 28%nat /\
  busy (stopped_backend ++ stopped_backend)
  = 2 * (4 * BURST_COAST_MS + GAP_MS + 50 + COOLDOWN_MS).
Proof.
  intros H. split; [|repeat split].
  destruct st as [m l]. unfold loop. cbn [fst snd].
  rewrite <- (after_start cfg w) at 1.
  rewrite (bind_run _ _ _ _ _ (run_phases_fault cfg sig fuel m w 0 0 []
             (fun k Hk => H (0 + k)%nat ltac:(lia)))).
  unfold end_phase.
  rewrite (bind_run _ _ _ _ _ (coast_delay_after _ _ _ _ _ _)).
  rewrite (bind_run _ _ _ _ _ (delay_after _ _ _ _ _ _)).
  rewrite (bind_run _ _ _ _ _ (run_phases_fault cfg sig fuel l w 8 0 _
             (fun k Hk => H (8 + k)%nat ltac:(lia)))).
  rewrite (bind_run _ _ _ _ _ (coast_delay_after _ _ _ _ _ _)).
  rewrite (bind_run _ _ _ _ _ (delay_after _ _ _ _ _ _)).
  unfold ret, stopped_backend. cbn [app Nat.add]. rewrite <- !app_assoc.
  reflexivity.
Qed.

Lemma X16_loop_stops_on_fault_witness :
  loop armed (fault_from 0) 1 (f0, f0) w0
  = Ok (f0, f0) (after armed w0 16 0 (stopped_backend ++ stopped_backend)).
Proof.
  apply (X16_loop_stops_on_fault armed (fault_from 0) w0 0 (f0, f0)).
  intros k Hk. reflexivity.
Defined.

(* ================================================================== *)
(** ** The pins of the backends *)
(* ================================================================== *)

Lemma apply_calls_app cs cs' p :
  apply_calls (cs ++ cs') p = apply_calls cs' (apply_calls cs p).
Proof. apply fold_left_app. Qed.

Lemma ledc_calls_state evs : forall cs p c,
  Backend.ledc_calls evs = Some cs ->
  ledc_state p c ->
  ledc_state (apply_calls cs p) (last_command evs c).
Proof.
  induction evs as [|e evs IH]; intros cs p c Hcs Hp.
  - inversion Hcs. exact Hp.
  - cbn [Backend.ledc_calls] in Hcs.
    destruct e as [|pct|ms].
    + destruct (Backend.ledc_calls evs) as [cs'|] eqn:E; [|discriminate].
      injection Hcs as <-.
      cbn [last_command]. apply (IH cs'); [reflexivity|].
      destruct Hp as [H1 H2]. repeat split.
    + unfold Backend.ledc_drive in Hcs.
      destruct (ledc_drive pct) as [duty|] eqn:Ed; [|discriminate].
      destruct (Backend.ledc_calls evs) as [cs'|] eqn:E; [|discriminate].
      injection Hcs as <-.
      cbn [last_command]. apply (IH cs'); [reflexivity|].
      repeat split. cbn. now rewrite Ed.
    + destruct (Backend.ledc_calls evs) as [cs'|] eqn:E; [|discriminate].
      injection Hcs as <-.
      cbn [last_command]. apply (IH cs'); [reflexivity|]. exact Hp.
Qed.

(** The calls of the LEDC backend are defined for the duties that are
    numbers. *)
Lemma ledc_calls_defined evs :
  Forall (fun d => digits_ok d /\ is_nan d = false) (drive_calls evs) ->
  exists cs, Backend.ledc_calls evs = Some cs.
Proof.
  induction evs as [|e evs IH]; intros H; [now exists []|].
  cbn [Backend.ledc_calls].
  destruct e as [|pct|ms]; cbn [drive_calls] in H.
  - destruct (IH H) as [cs' ->]. eexists. reflexivity.
  - inversion H as [|d ds [Hd Hn] Hrest]. subst.
    destruct (IH Hrest) as [cs' ->].
    destruct (ledc_drive_range pct Hd Hn) as (duty & Hduty & _).
    unfold Backend.ledc_drive. rewrite Hduty. eexists. reflexivity.
  - destruct (IH H) as [cs' ->]. eexists. reflexivity.
Qed.

(** X17. The pins of the LEDC backend follow the last command.  The
    calls of [ledc_begin_phase()], [ledc_drive()] and [ledc_coast()] are
    defined for every trace whose duties are numbers; after
    [ledc_begin_phase()] and the commands of any trace, LPWM is low; the
    bridge is enabled (EN high) exactly when the last command was a
    [drive()] (or none was made yet), and then the channel carries the
    duty of that [drive()]; after a [coast()] EN is low and the duty
    is 0, and a [delay()] changes nothing.  After [ledc_end_phase()] the
    three pins are inputs, with EN written low and duty 0 before. *)
Theorem X17_ledc_pins_follow_last_command evs :
  (Forall (fun d => valid d = true /\ is_nan d = false) (drive_calls evs) ->
   exists cs, Backend.ledc_calls evs = Some cs) /\
  (forall cs p,
     Backend.ledc_calls evs = Some cs ->
     ledc_state (apply_calls (Backend.ledc_begin_phase ++ cs) p)
                (last_command evs None) /\
     let q := apply_calls (Backend.ledc_begin_phase ++ cs
                           ++ Backend.ledc_end_phase) p in
     released q /\ ledc_state q (Some Coast)).
Proof.
  split.
  - intros H. apply ledc_calls_defined.
    eapply Forall_impl; [|exact H]. cbv beta.
    intros d [Hv Hn]. split; [now apply valid_digits_ok | exact Hn].
  - intros cs p Hcs.
    assert (Hs : forall p0, ledc_state
                   (apply_calls cs (apply_calls Backend.ledc_begin_phase p0))
                   (last_command evs None)).
    { intros p0. apply (ledc_calls_state evs); [exact Hcs|]. repeat split. }
    split.
    + rewrite apply_calls_app. apply Hs.
    + cbv zeta. rewrite !apply_calls_app.
      generalize (apply_calls cs (apply_calls Backend.ledc_begin_phase p)).
      intros q. repeat split.
Qed.

Lemma X17_ledc_pins_follow_last_command_witness :
  exists cs,
    Backend.ledc_calls [Drive WARMUP_DUTY; Delay 18; Coast] = Some cs /\
    forall p,
      ledc_state (apply_calls (Backend.ledc_begin_phase ++ cs) p) (Some Coast).
Proof.
  destruct (X17_ledc_pins_follow_last_command
              [Drive WARMUP_DUTY; Delay 18; Coast]) as [H1 H2].
  destruct H1 as [cs Hcs].
  { repeat constructor. }
  exists cs. split; [exact Hcs|].
  intros p. exact (proj1 (H2 cs p Hcs)).
Defined.

Lemma loops_inited bodies :
  Forall no_setup bodies ->
  fst (Backend.loops true bodies) = true /\
  filter is_setup (snd (Backend.loops true bodies)) = [].
Proof.
  induction 1 as [|b bs [Hm Hl] Hbs [IH1 IH2]]; [split; reflexivity|].
  cbn [Backend.loops Backend.loop fst snd Backend.mcpwm_begin_phase].
  split; [exact IH1|]. rewrite !filter_app, Hm, Hl, IH2. reflexivity.
Qed.

Lemma loops_end i body bodies :
  exists pre,
    snd (Backend.loops i (body :: bodies))
    = pre ++ Backend.ledc_end_phase ++ [DelayMs 300000].
Proof.
  revert i body. induction bodies as [|b bs IH]; intros i body.
  - exists (snd (Backend.mcpwm_begin_phase i) ++ fst body
            ++ Backend.mcpwm_end_phase ++ [DelayMs 300000]
            ++ Backend.ledc_begin_phase ++ snd body).
    cbn [Backend.loops Backend.loop fst snd]. rewrite app_nil_r.
    rewrite <- !app_assoc. reflexivity.
  - destruct (IH (fst (Backend.loop i (fst body) (snd body))) b) as [pre Hpre].
    exists (snd (Backend.loop i (fst body) (snd body)) ++ pre).
    change (snd (Backend.loops i (body :: b :: bs)))
      with (snd (Backend.loop i (fst body) (snd body))
            ++ snd (Backend.loops (fst (Backend.loop i (fst body) (snd body)))
                      (b :: bs))).
    rewrite Hpre, <- !app_assoc. reflexivity.
Qed.

(** X18. The motor library is set up once.  Over any number of passes
    of [loop()], starting with [mcpwmInited] false, whatever the stress
    routines command in between (they never call [Motor::setup]),
    [mcpwm_begin_phase()] calls [Motor::setup] in the first pass only:
    exactly one call, with the configuration of the source, and the
    flag is set afterwards.  Every pass ends with RPWM, LPWM and EN
    released as inputs, EN written low and LEDC duty 0. *)
Theorem X18_mcpwm_setup_once body bodies p :
  Forall no_setup (body :: bodies) ->
  let r := Backend.loops false (body :: bodies) in
  fst r = true /\
  filter is_setup (snd r) = [Motor_setup Backend.motor_config] /\
  released (apply_calls (snd r) p) /\
  ledc_state (apply_calls (snd r) p) (Some Coast).
Proof.
  intros H r. inversion H as [|b bs [Hm Hl] Hbs]. subst.
  destruct (loops_inited bodies Hbs) as [Hi Hf].
  split; [exact Hi|]. split.
  - unfold r.
    cbn [Backend.loops Backend.loop fst snd Backend.mcpwm_begin_phase].
    rewrite !filter_app, Hm, Hl, Hf. reflexivity.
  - destruct (loops_end false body bodies) as [pre Hpre].
    unfold r. rewrite Hpre, apply_calls_app.
    generalize (apply_calls pre p). intros q. repeat split.
Qed.

Lemma X18_mcpwm_setup_once_witness :
  filter is_setup
    (snd (Backend.loops false
            [(Backend.mcpwm_drive WARMUP_DUTY, Backend.ledc_coast);
             (Backend.mcpwm_coast, Backend.ledc_coast)]))
  = [Motor_setup Backend.motor_config].
Proof.
  refine (proj1 (proj2 (X18_mcpwm_setup_once _ _
            {| mode := fun _ => None; out := fun _ => None;
               ledc_duty := fun _ => None |} _))).
  repeat constructor.
Defined.

(* ================================================================== *)
(** ** The step computation *)
(* ================================================================== *)

Lemma grid_slew :
  forallb (fun l => forallb (grid_slew_ok l) (seq 0 101)) (seq 0 101) = true.
Proof. vm_compute. reflexivity. Qed.

(** X14. The slew limit between whole-number duties: for every
    LastCommandedDuty and target among 0, 1, ..., 100 the change is
    bracketed by coasts exactly when [|t - l| >= 12], the step count
    computed in single precision is the exact
    [max(1, ceil(|t - l| / 3))], at most 34, and the step
    [delta / steps] is at most [MAX_SLEW_STEP_PCT] = 3 percent in
    magnitude.  By evaluation of the 101 x 101 pairs. *)
Theorem X14_slew_limit_on_whole_duties (l t : nat) :
  (l <= 100)%nat -> (t <= 100)%nat ->
  let delta := (clampPct (of_int (Z.of_nat t)) - of_int (Z.of_nat l))%f32 in
  is_jump delta = (12 <=? Z.abs (Z.of_nat t - Z.of_nat l)) /\
  exists n,
    ramp_steps delta = Some n /\
    n = Z.max 1 ((Z.abs (Z.of_nat t - Z.of_nat l) + 2) / 3) /\
    1 <= n <= 34 /\
    (fabsf (delta / of_int n) <=? MAX_SLEW_STEP_PCT)%f32 = true.
Proof.
  intros Hl Ht delta. pose proof grid_slew as H.
  rewrite forallb_forall in H. specialize (H l).
  rewrite in_seq in H. specialize (H ltac:(lia)).
  rewrite forallb_forall in H. specialize (H t).
  rewrite in_seq in H. specialize (H ltac:(lia)).
  unfold grid_slew_ok in H. cbv zeta in H. fold delta in H.
  apply andb_true_iff in H. destruct H as [Hj H].
  split; [now apply eqb_prop|].
  destruct (ramp_steps delta) as [n|]; [|discriminate].
  apply andb_true_iff in H. destruct H as [Hn Hs]. apply Z.eqb_eq in Hn.
  exists n. split; [reflexivity|]. split; [exact Hn|]. split; [|exact Hs].
  assert ((Z.abs (Z.of_nat t - Z.of_nat l) + 2) / 3 <= 34).
  { apply Z.div_le_upper_bound; lia. }
  lia.
Qed.

Lemma X14_slew_limit_on_whole_duties_witness :
  exists n,
    ramp_steps (clampPct (of_int 75) - of_int 20)%f32 = Some n /\ n = 19.
Proof.
  destruct (X14_slew_limit_on_whole_duties 20 75) as (_ & n & H1 & H2 & _);
    [lia | lia |].
  exists n. split; [exact H1 | exact H2].
Defined.

Lemma duty_grid : forallb duty_exact (seq 0 101) = true.
Proof. vm_compute. reflexivity. Qed.

(** X20. The duty of a whole-number percentage is exact: for
    [p] = 0, 1, ..., 100, [pctToDuty10(p)] computed in single precision
    is [p * 1023 / 100] rounded to the nearest integer, halves up
    (512 for 50 percent).  By evaluation of the 101 values. *)
Theorem X20_duty_of_whole_percent (p : nat) :
  (p <= 100)%nat ->
  pctToDuty10 (of_int (Z.of_nat p)) = Some ((2046 * Z.of_nat p + 100) / 200).
Proof.
  intros Hp. pose proof duty_grid as H.
  rewrite forallb_forall in H. specialize (H p).
  rewrite in_seq in H. specialize (H ltac:(lia)).
  unfold duty_exact in H.
  destruct (pctToDuty10 (of_int (Z.of_nat p))) as [d|]; [|discriminate].
  apply Z.eqb_eq in H. now subst d.
Qed.

Lemma X20_duty_of_whole_percent_witness :
  pctToDuty10 (of_int 50) = Some 512 /\ pctToDuty10 (of_int 42) = Some 430.
Proof.
  split.
  - exact (X20_duty_of_whole_percent 50 ltac:(lia)).
  - exact (X20_duty_of_whole_percent 42 ltac:(lia)).
Defined.
Lemma clampPct_not_infinite T s : clampPct T <> S754_infinity s.
Proof.
  unfold clampPct.
  destruct (T <? f0)%f32 eqn:H0; [discriminate|].
  destruct (f100 <? T)%f32 eqn:H1; [discriminate|].
  destruct T as [s'|[]| |s' m e]; discriminate.
Qed.

Lemma ramp_steps_nan : ramp_steps S754_nan = None.
Proof. reflexivity. Qed.

Lemma ramp_steps_infinite s : ramp_steps (S754_infinity s) = None.
Proof. destruct s; reflexivity. Qed.

(** X13. A NaN is never recovered from.  If LastCommandedDuty or the
    target is a NaN, or LastCommandedDuty is infinite, the step count
    [static_cast<int>(ceilf(fabsf(delta) / 3))] converts a NaN or an
    infinity to [int], which C++ leaves undefined: when the entry
    checks pass, [safeRampTo] reaches that conversion.  (An infinite
    target is harmless: it is clamped.) *)
Theorem X13_safeRampTo_undefined_on_nan cfg sig w (L T : f32) :
  quiet cfg sig w 1 = true ->
  is_nan L = true \/ is_nan T = true \/ (exists s, L = S754_infinity s) ->
  ramp_steps (clampPct T - L)%f32 = None /\
  safeRampTo cfg sig L T w = Undefined.
Proof.
  intros Hq HLT.
  assert (Hn : ramp_steps (clampPct T - L)%f32 = None).
  { destruct HLT as [HL | [HT | [s ->]]].
    - destruct L; try discriminate.
      destruct (clampPct T); reflexivity.
    - destruct T; try discriminate. destruct L; reflexivity.
    - pose proof (clampPct_not_infinite T) as Hc.
      destruct (clampPct T) as [s'|s'| |s' m e]; cbn [F32.sub SFsub].
      + apply ramp_steps_infinite.
      + now elim (Hc s').
      + reflexivity.
      + apply ramp_steps_infinite. }
  split; [exact Hn|].
  destruct (quiet_upto cfg sig w O Hq O (le_n _)) as [Hf Ht].
  rewrite <- (after_start cfg w) at 1. unfold safeRampTo.
  rewrite (check_quiet_after cfg sig _ w O O [] Hf Ht). rewrite Hn.
  destruct (is_jump (clampPct T - L)%f32).
  - now rewrite (bind_run _ _ _ _ _ (coast_delay_after _ _ _ _ _ _)).
  - reflexivity.
Qed.

Lemma X13_safeRampTo_undefined_on_nan_witness :
  safeRampTo shipped idle S754_nan f100 w0 = Undefined.
Proof.
  apply (X13_safeRampTo_undefined_on_nan shipped idle w0 S754_nan f100);
    [reflexivity | left; reflexivity].
Defined.

(* ================================================================== *)
(** ** Ramps that end early *)
(* ================================================================== *)

Lemma last_command_app evs evs' d :
  last_command (evs ++ evs') d = last_command evs' (last_command evs d).
Proof.
  revert d. induction evs as [|[| |ms] evs IH]; intros d; cbn [app last_command];
    auto.
Qed.

Lemma last_command_wait k d :
  last_command (Coast :: repeat (Delay OV_POLL_MS) k) d = Some Coast.
Proof.
  cbn [last_command]. induction k as [|k IH]; [reflexivity | exact IH].
Qed.

Section Aborts.

Variable cfg : Config.
Variable sig : Signals.

(** The [for] loop on any signals: it either makes all its steps, or
    leaves early, right after a [coast()]. *)
Lemma ramp_loop_ends n s : forall x w,
  exists b x' w' evs,
    ramp_loop cfg sig n s x w = Ok (b, x') w' /\
    trace w' = trace w ++ evs /\
    (if b
     then (forall d, last_command evs d = Some Coast) /\
          (length (drive_calls evs) < n)%nat
     else evs = ramp_events n s x /\ x' = ramp_final n s x).
Proof.
  induction n as [|n IH]; intros x w.
  - exists false, x, w, []. rewrite app_nil_r. repeat split.
  - cbn [ramp_loop].
    destruct (faultActive_run cfg sig w) as (b1 & w1 & Hf & Htr1 & _).
    rewrite (bind_run _ _ _ _ _ Hf). destruct b1.
    + unfold bind, coast, emit, ret. cbn [trace].
      eexists true, _, _, [Coast]. split; [reflexivity|].
      rewrite Htr1. repeat split. simpl. lia.
    + destruct (guard_run cfg sig w1) as (b2 & w2 & k & Hg & _ & Htr2 & _).
      rewrite (bind_run _ _ _ _ _ Hg). destruct b2.
      * unfold ret. eexists true, f0, w2, _. split; [reflexivity|].
        rewrite Htr2, Htr1. split; [reflexivity|]. split.
        { intros d. apply last_command_wait. }
        { rewrite drive_calls_wait. simpl. lia. }
      * rewrite app_nil_r in Htr2.
        unfold bind at 1, drive at 1, emit at 1.
        unfold bind at 1, delay at 1.
        match goal with |- context [ramp_loop cfg sig n s ?x1 ?w3] =>
          destruct (IH x1 w3) as (b & x' & w' & evs & Hrun & Htr & Hend)
        end.
        cbn [trace now pin_reads adc_reads] in Htr.
        exists b, x', w',
          ([Drive (x + s)%f32; Delay SLEW_STEP_MS] ++ evs).
        split; [exact Hrun|]. split.
        { rewrite Htr, Htr2, Htr1, <- !app_assoc. reflexivity. }
        destruct b.
        { destruct Hend as [Hl Hd]. split.
          - intros d. rewrite last_command_app. apply Hl.
          - cbn [app drive_calls length]. lia. }
        { destruct Hend as [-> ->]. split; reflexivity. }
Qed.

End Aborts.

(** X19. A ramp is made in full or ends coasting.  Whatever the fault
    and voltage inputs do, a [safeRampTo] call whose step count is
    defined either makes all its steps (the bracketed trace of an
    uninterrupted ramp, LastCommandedDuty at its last value), or returns
    early after fewer than [n] [drive()] calls and with a [coast()] as
    its last command: it never returns early with the bridge still
    driven. *)
Theorem X19_safeRampTo_completes_or_coasts cfg sig L T w n :
  let delta := (clampPct T - L)%f32 in
  let s := (delta / of_int n)%f32 in
  ramp_steps delta = Some n ->
  exists x w' evs,
    safeRampTo cfg sig L T w = Ok x w' /\
    trace w' = trace w ++ evs /\
    ((evs = bracket_before delta ++ ramp_events (Z.to_nat n) s L
            ++ bracket_after delta /\
      x = ramp_final (Z.to_nat n) s L)
     \/
     (last_command evs None = Some Coast /\
      (length (drive_calls evs) < Z.to_nat n)%nat)).
Proof.
  intros delta s Hn. pose proof (ramp_steps_pos _ _ Hn) as Hpos.
  unfold safeRampTo. fold delta.
  destruct (faultActive_run cfg sig w) as (b1 & w1 & Hf & Htr1 & _).
  rewrite (bind_run _ _ _ _ _ Hf). destruct b1.
  - unfold bind, coast, emit, ret. cbn [trace].
    eexists L, _, [Coast]. split; [reflexivity|]. rewrite Htr1.
    split; [reflexivity|]. right. split; [reflexivity | simpl; lia].
  - destruct (guard_run cfg sig w1) as (b2 & w2 & k & Hg & _ & Htr2 & _).
    rewrite (bind_run _ _ _ _ _ Hg). destruct b2.
    + unfold ret. eexists f0, w2, _. split; [reflexivity|].
      rewrite Htr2, Htr1. split; [reflexivity|]. right.
      split; [apply last_command_wait|]. rewrite drive_calls_wait. simpl. lia.
    + rewrite app_nil_r in Htr2. rewrite Hn. fold s.
      destruct (bracket_counts COAST_BEFORE_JUMP_MS (is_jump delta) w2)
        as (w3 & evs3 & Hp & Htr3 & Hd3 & _); [unfold COAST_BEFORE_JUMP_MS; lia|].
      assert (He3 : evs3 = bracket_before delta).
      { revert Hp Htr3. unfold bracket_before. destruct (is_jump delta).
        - unfold bind, coast, emit, delay. intros Hp Htr3.
          injection Hp as <-. cbn [trace] in Htr3.
          rewrite <- app_assoc in Htr3. now apply app_inv_head in Htr3.
        - unfold ret. intros Hp Htr3. injection Hp as <-.
          rewrite <- (app_nil_r (trace w2)) in Htr3 at 1.
          now apply app_inv_head in Htr3. }
      rewrite (bind_run _ _ _ _ _ Hp).
      destruct (ramp_loop_ends cfg sig (Z.to_nat n) s L w3)
        as (b & x' & w4 & evs4 & Hrun & Htr4 & Hend).
      rewrite (bind_run _ _ _ _ _ Hrun). cbn [fst snd].
      destruct b.
      * destruct Hend as [Hl Hd]. unfold ret.
        exists x', w4, (evs3 ++ evs4). split; [reflexivity|]. split.
        { rewrite Htr4, Htr3, Htr2, Htr1, <- !app_assoc. reflexivity. }
        right. split; [rewrite last_command_app; apply Hl|].
        now rewrite drive_calls_app, Hd3.
      * destruct Hend as [-> ->].
        destruct (bracket_counts COAST_AFTER_JUMP_MS (is_jump delta) w4)
          as (w5 & evs5 & Hq & Htr5 & _); [unfold COAST_AFTER_JUMP_MS; lia|].
        assert (He5 : evs5 = bracket_after delta).
        { revert Hq Htr5. unfold bracket_after. destruct (is_jump delta).
          - unfold bind, coast, emit, delay. intros Hq Htr5.
            injection Hq as <-. cbn [trace] in Htr5.
            rewrite <- app_assoc in Htr5. now apply app_inv_head in Htr5.
          - unfold ret. intros Hq Htr5. injection Hq as <-.
            rewrite <- (app_nil_r (trace w4)) in Htr5 at 1.
            now apply app_inv_head in Htr5. }
        rewrite (bind_run _ _ _ _ _ Hq). unfold ret.
        exists (ramp_final (Z.to_nat n) s L), w5,
          (evs3 ++ ramp_events (Z.to_nat n) s L ++ evs5).
        split; [reflexivity|]. split.
        { rewrite Htr5, Htr4, Htr3, Htr2, Htr1, <- !app_assoc. reflexivity. }
        left. rewrite He3, He5. split; reflexivity.
Qed.

Lemma X19_safeRampTo_completes_or_coasts_witness :
  exists x w' evs,
    safeRampTo armed (fault_from 3) (of_int 20) (of_int 75) w0 = Ok x w' /\
    trace w' = trace w0 ++ evs.
Proof.
  assert (H1 : ramp_steps (clampPct (of_int 75) - of_int 20)%f32 = Some 19)
    by (vm_compute; reflexivity).
  pose proof (X19_safeRampTo_completes_or_coasts armed (fault_from 3)
                (of_int 20) (of_int 75) w0 19 H1) as H.
  cbv zeta in H. destruct H as (x & w' & evs & Hrun & Htr & _).
  exists x, w', evs. split; [exact Hrun | exact Htr].
Defined.

(* ================================================================== *)
(** ** The error of a rounding *)
(* ================================================================== *)

Lemma shr_1_rec a D mrs :
  0 < D -> 0 <= shr_m mrs -> rec_ok a D mrs -> rec_ok a (2 * D) (shr_1 mrs).
Proof.
  intros HD Hm (r & Ha & Hr & Hl).
  destruct mrs as [m b s]. cbn [shr_m] in *.
  destruct m as [|[p|p|]|p]; try lia;
    destruct b, s; cbn [loc_of_shr_record loc_ok] in Hl;
    cbn [shr_1 orb shr_m loc_of_shr_record];
    first [ exists r; cbn [shr_m loc_of_shr_record loc_ok];
            repeat split; lia
          | exists (D + r); cbn [shr_m loc_of_shr_record loc_ok];
            repeat split; lia ].
Qed.

Lemma iter_shr_1_rec a p : forall D mrs,
  0 < D -> 0 <= shr_m mrs -> rec_ok a D mrs ->
  rec_ok a (D * 2 ^ Zpos p) (iter_pos shr_1 p mrs).
Proof.
  induction p as [p IH|p IH|]; intros D mrs HD Hm H; cbn [iter_pos].
  - assert (Ha : 0 < 2 ^ Zpos p) by (apply Z.pow_pos_nonneg; lia).
    replace (D * 2 ^ Zpos p~1) with (2 * D * 2 ^ Zpos p * 2 ^ Zpos p).
    2:{ replace (Zpos p~1) with (Zpos p + Zpos p + 1) by lia.
        rewrite !Z.pow_add_r by lia. change (2 ^ 1) with 2. lia. }
    destruct (shr_1_spec mrs Hm) as [H1 _].
    destruct (iter_shr_1_spec p _ H1) as [H2 _].
    apply IH; [nia | exact H2|]. apply IH; [lia | exact H1|].
    now apply shr_1_rec.
  - assert (Ha : 0 < 2 ^ Zpos p) by (apply Z.pow_pos_nonneg; lia).
    replace (D * 2 ^ Zpos p~0) with (D * 2 ^ Zpos p * 2 ^ Zpos p).
    2:{ replace (Zpos p~0) with (Zpos p + Zpos p) by lia.
        rewrite !Z.pow_add_r by lia. lia. }
    destruct (iter_shr_1_spec p _ Hm) as [H2 _].
    apply IH; [nia | exact H2|]. now apply IH.
  - change (2 ^ 1) with 2. rewrite Z.mul_comm. now apply shr_1_rec.
Qed.

Lemma rec_of_loc a d m r l :
  a = m * d + r -> 0 <= r < d -> loc_ok d r l ->
  rec_ok a d (shr_record_of_loc m l).
Proof.
  intros Ha Hr Hl. exists r. rewrite shr_m_of_loc.
  split; [exact Ha|]. split; [exact Hr|].
  destruct l as [|[]]; exact Hl.
Qed.

(** [shr_fexp] keeps the place of the exact value. *)
Lemma shr_fexp_rec a d m r e l :
  0 < d -> 0 <= m -> a = m * d + r -> 0 <= r < d -> loc_ok d r l ->
  let e' := snd (shr_fexp prec emax m e l) in
  rec_ok a (d * 2 ^ (e' - e)) (fst (shr_fexp prec emax m e l)).
Proof.
  intros Hd Hm Ha Hr Hl. pose proof (rec_of_loc a d m r l Ha Hr Hl) as H.
  unfold shr_fexp, shr. rewrite fexp_32.
  destruct (fexp32 (Zdigits2 m + e) - e) as [|p|p] eqn:Hn; cbn [fst snd].
  - rewrite Z.sub_diag. change (2 ^ 0) with 1. now rewrite Z.mul_1_r.
  - replace (e + Zpos p - e) with (Zpos p) by lia.
    apply iter_shr_1_rec; [exact Hd | now rewrite shr_m_of_loc | exact H].
  - rewrite Z.sub_diag. change (2 ^ 0) with 1. now rewrite Z.mul_1_r.
Qed.

(** Rounding to nearest is within half a unit of the exact value. *)
Lemma round_nearest_even_rec a D mrs :
  0 < D -> rec_ok a D mrs ->
  let m2 := round_nearest_even (shr_m mrs) (loc_of_shr_record mrs) in
  Z.abs (2 * m2 * D - 2 * a) <= D.
Proof.
  intros HD (r & Ha & Hr & Hl). cbv zeta. unfold round_nearest_even.
  destruct (loc_of_shr_record mrs) as [|[]]; cbn [loc_ok] in Hl;
    try destruct (Z.even (shr_m mrs)); lia.
Qed.

Lemma Zdigits2_mono a b : 0 < a -> a <= b -> Zdigits2 a <= Zdigits2 b.
Proof.
  intros Ha Hab. pose proof (Zdigits2_lower a Ha) as Hl.
  pose proof (Zdigits2_nonneg a) as Hn.
  destruct (Z.eq_dec (Zdigits2 a) 0) as [H0|H0].
  - pose proof (Zdigits2_nonneg b). lia.
  - pose proof (Zdigits2_ge b (Zdigits2 a - 1) ltac:(lia) ltac:(lia)). lia.
Qed.

(** The result of a rounding: it is well-formed, it has the sign it
    was given, and it is within half a unit in the last place of a
    number below [2^K] of the exact value [a / d * 2^e]. *)
Lemma round_aux_err s m e l a d r K :
  0 < d -> 0 <= m -> a = m * d + r -> 0 <= r < d -> loc_ok d r l ->
  -149 <= e -> e <= fexp32 (Zdigits2 m + e) ->
  a < d * 2 ^ (K - e) -> K <= 127 ->
  let x := binary_round_aux prec emax s m e l in
  canon x /\ val x = cond_Zopp s (Z.abs (val x)) /\
  Z.abs (2 * Z.abs (val x) * d - 2 * a * 2 ^ (e + 149))
  <= d * 2 ^ (fexp32 K + 149).
Proof.
  intros Hd Hm Ha Hr Hl He Hfe HK HK127. cbv zeta.
  (* the magnitude *)
  assert (HKe : 0 <= K - e).
  { destruct (Z_lt_le_dec (K - e) 0) as [Hneg|]; [|assumption].
    rewrite Z.pow_neg_r in HK by lia. nia. }
  assert (Hp : 0 < 2 ^ (K - e)) by (apply Z.pow_pos_nonneg; lia).
  assert (Hmk : m < 2 ^ (K - e)) by nia.
  assert (Dm : Zdigits2 m <= K - e)
    by (apply Zdigits2_le; [lia | rewrite Z.abs_eq by lia; exact Hmk]).
  pose proof (Zdigits2_nonneg m) as Hd0.
  unfold binary_round_aux.
  pose proof (shr_fexp_spec m e l Hm) as (H1 & E1 & _).
  pose proof (shr_fexp_digits m e l Hm) as D1.
  pose proof (shr_fexp_rec a d m r e l Hd Hm Ha Hr Hl) as R1. cbv zeta in R1.
  destruct (shr_fexp prec emax m e l) as [mrs' e'] eqn:Hs1. cbn [fst snd] in *.
  assert (Ee' : e' = fexp32 (Zdigits2 m + e)) by lia.
  assert (Le' : e <= e') by lia.
  assert (Hpe : 0 < 2 ^ (e' - e)) by (apply Z.pow_pos_nonneg; lia).
  assert (HD : 0 < d * 2 ^ (e' - e)) by nia.
  pose proof (round_nearest_even_rec a _ mrs' HD R1) as R2. cbv zeta in R2.
  pose proof (round_nearest_even_spec (shr_m mrs') (loc_of_shr_record mrs') H1)
    as [H2 B2].
  pose proof (round_nearest_even_value (shr_m mrs') (loc_of_shr_record mrs'))
    as [V2 _].
  set (m' := shr_m mrs') in *.
  set (m2 := round_nearest_even m' (loc_of_shr_record mrs')) in *.
  assert (D1' : Zdigits2 m' <= 24) by (unfold fexp32 in *; lia).
  assert (Hm'24 : m' < 2 ^ 24).
  { eapply Z.lt_le_trans; [apply Zdigits2_upper; exact H1|].
    apply Z.pow_le_mono_r; lia. }
  pose proof (shr_fexp_spec m2 e' loc_Exact H2) as (H3 & E3 & _).
  pose proof (shr_fexp_value m2 e' loc_Exact H2) as (L3 & V3 & _).
  pose proof (shr_fexp_digits m2 e' loc_Exact H2) as D3.
  cbv zeta in V3, L3.
  destruct (shr_fexp prec emax m2 e' loc_Exact) as [mrs'' e''] eqn:Hs2.
  cbn [fst snd] in *.
  set (m'' := shr_m mrs'') in *.
  pose proof (Zdigits2_nonneg m2) as Hd2.
  (* the second shift is exact, and leaves a canonical mantissa *)
  assert (Hex : m'' * 2 ^ (e'' - e') = m2 /\ e'' <= 104 /\
                (0 < m'' -> fexp32 (Zdigits2 m'' + e'') = e'')).
  { destruct (Z_le_gt_dec (Zdigits2 m2) 24) as [Hs|Hb].
    - (* no carry *)
      assert (Ee'' : e'' = e').
      { rewrite E3. unfold fexp32 in *. lia. }
      rewrite Ee'' in *. rewrite Z.sub_diag in *. change (2 ^ 0) with 1 in *.
      split; [lia|]. split; [unfold fexp32 in *; lia|].
      intros Hpos. assert (m'' = m2) by lia.
      assert (Hm2pos : 0 < m2) by lia.
      rewrite H. unfold fexp32 in *.
      destruct (Z_le_gt_dec (Zdigits2 m + e - 24) (-149)) as [Hsub|Hnorm].
      + lia.
      + assert (Zdigits2 m' = 24) by lia.
        assert (0 < m').
        { destruct (Z.eq_dec m' 0) as [Hz|]; [|lia].
          rewrite Hz in *. cbn in H0. lia. }
        pose proof (Zdigits2_mono m' m2 ltac:(lia) ltac:(lia)). lia.
    - (* a carry into the 25th digit *)
      assert (Hm2 : m2 = 2 ^ 24).
      { assert (2 ^ 24 <= m2); [|lia].
        assert (Hm2pos : 0 < m2).
        { destruct (Z.eq_dec m2 0) as [Hz|]; [|lia].
          rewrite Hz in Hb. cbn in Hb. lia. }
        pose proof (Zdigits2_lower m2 Hm2pos) as Hl2.
        eapply Z.le_trans; [|exact Hl2]. apply Z.pow_le_mono_r; lia. }
      assert (Hd25 : Zdigits2 m2 = 25) by (rewrite Hm2; reflexivity).
      assert (Ee'' : e'' = e' + 1).
      { rewrite E3, Hd25. unfold fexp32 in *. lia. }
      replace (e'' - e') with 1 in * by lia. change (2 ^ 1) with 2 in *.
      assert (Hm'' : m'' = 2 ^ 23).
      { rewrite Hm2 in V3. change (2 ^ 24) with (2 ^ 23 * 2) in V3. lia. }
      split; [rewrite Hm'', Hm2; reflexivity|].
      split; [unfold fexp32 in *; lia|].
      intros _. rewrite Hm''. change (Zdigits2 (2 ^ 23)) with 24.
      unfold fexp32 in *. lia. }
  destruct Hex as (Hex & Hov & Hcan).
  assert (Le'' : e' <= e'') by lia.
  assert (HE : e' <= fexp32 K) by (unfold fexp32 in *; lia).
  assert (Hpw : 2 ^ (fexp32 K + 149)
                = 2 ^ (fexp32 K - e') * 2 ^ (e' - e) * 2 ^ (e + 149)).
  { rewrite <- !pow2_split by lia. f_equal. lia. }
  assert (Hq : 0 < 2 ^ (fexp32 K - e')) by (apply Z.pow_pos_nonneg; lia).
  assert (Hu : 0 < 2 ^ (e + 149)) by (apply Z.pow_pos_nonneg; lia).
  assert (Hbound : Z.abs (2 * (m2 * (2 ^ (e' - e) * 2 ^ (e + 149))) * d
                          - 2 * a * 2 ^ (e + 149))
                   <= d * 2 ^ (fexp32 K + 149)).
  { rewrite Hpw.
    replace (2 * (m2 * (2 ^ (e' - e) * 2 ^ (e + 149))) * d
             - 2 * a * 2 ^ (e + 149))
      with ((2 * m2 * (d * 2 ^ (e' - e)) - 2 * a) * 2 ^ (e + 149)) by ring.
    rewrite Z.abs_mul, (Z.abs_eq (2 ^ (e + 149))) by lia.
    set (A := Z.abs (2 * m2 * (d * 2 ^ (e' - e)) - 2 * a)) in *.
    set (P := 2 ^ (e' - e)) in *. set (Q := 2 ^ (fexp32 K - e')) in *.
    set (U := 2 ^ (e + 149)) in *.
    assert (A * U <= d * P * U) by nia.
    assert (d * P * U <= d * (Q * P * U)) by nia. lia. }
  destruct m'' as [|p|p] eqn:Hm3; [| |lia].
  - (* the result is a zero *)
    cbn [canon val]. split; [exact I|].
    split; [destruct s; reflexivity|].
    assert (m2 = 0) by lia. rewrite H in Hbound.
    exact Hbound.
  - change (emax - prec) with 104.
    destruct (e'' <=? 104) eqn:Hle; [|apply Z.leb_gt in Hle; lia].
    cbn [canon val]. split.
    { unfold bounded, canonical_mantissa. rewrite fexp_32.
      cbn [Zdigits2] in Hcan. rewrite (Hcan ltac:(lia)), Z.eqb_refl.
      change (emax - prec) with 104. now rewrite Hle. }
    assert (Hv : Zpos p * 2 ^ (e'' + 149)
                 = m2 * (2 ^ (e' - e) * 2 ^ (e + 149))).
    { rewrite <- Hex.
      replace (e'' + 149) with ((e'' - e') + ((e' - e) + (e + 149))) by lia.
      rewrite !pow2_split by lia. ring. }
    assert (Hpos : 0 < Zpos p * 2 ^ (e'' + 149)).
    { assert (0 < 2 ^ (e'' + 149)) by (apply Z.pow_pos_nonneg; lia). lia. }
    assert (Habs : Z.abs (cond_Zopp s (Zpos p * 2 ^ (e'' + 149)))
                   = Zpos p * 2 ^ (e'' + 149)).
    { destruct s; cbn [cond_Zopp]; lia. }
    rewrite Habs. split; [reflexivity|].
    rewrite Hv. exact Hbound.
Qed.

(* ================================================================== *)
(** ** Exact values: comparisons, sums, differences and quotients *)
(* ================================================================== *)

Lemma canon_finite s m e :
  canon (S754_finite s m e) ->
  -149 <= e <= 104 /\ Zpos (digits2_pos m) <= 24 /\
  e = fexp32 (Zpos (digits2_pos m) + e).
Proof.
  cbn [canon]. unfold bounded, canonical_mantissa. rewrite fexp_32.
  change (emax - prec) with 104. intros H.
  apply andb_prop in H as [H1 H2]. apply Z.eqb_eq in H1. apply Z.leb_le in H2.
  unfold fexp32 in *. lia.
Qed.

Lemma valid_canon x :
  valid x = true -> (f0 <=? x)%f32 = true -> (x <=? f100)%f32 = true -> canon x.
Proof.
  intros Hv H0 H1. destruct x as [s|s| |s m e]; try discriminate.
  - exact I.
  - destruct s; discriminate.
  - exact Hv.
Qed.

Lemma abs_cond_Zopp b v : Z.abs (cond_Zopp b v) = Z.abs v.
Proof. destruct b; cbn [cond_Zopp]; lia. Qed.

Lemma val_finite_pos m e : -149 <= e -> 0 < Zpos m * 2 ^ (e + 149).
Proof.
  intros He. assert (0 < 2 ^ (e + 149)) by (apply Z.pow_pos_nonneg; lia). lia.
Qed.

Lemma val_fabsf x : val (fabsf x) = Z.abs (val x).
Proof.
  destruct x as [s|s| |s m e]; try reflexivity.
  cbn [fabsf SFabs val cond_Zopp].
  pose proof (Z.pow_nonneg 2 (e + 149) ltac:(lia)).
  destruct s; cbn [cond_Zopp]; lia.
Qed.

Lemma canon_fabsf x : canon x -> canon (fabsf x).
Proof. destruct x; cbn; auto. Qed.

(* ------------------------------------------------------------------ *)
(** *** Comparisons *)

(** Of two well-formed positive numbers, the one with the smaller
    exponent is the smaller. *)
Lemma canon_exp_lt s1 m1 e1 s2 m2 e2 :
  canon (S754_finite s1 m1 e1) -> canon (S754_finite s2 m2 e2) -> e1 < e2 ->
  Zpos m1 * 2 ^ (e1 + 149) < Zpos m2 * 2 ^ (e2 + 149).
Proof.
  intros H1 H2 Hlt.
  apply canon_finite in H1 as (R1 & D1 & C1).
  apply canon_finite in H2 as (R2 & D2 & C2).
  pose proof (digits2_pos_bounds m1) as [_ U1].
  pose proof (digits2_pos_bounds m2) as [L2 _].
  assert (Hd2 : Zpos (digits2_pos m2) = 24) by (unfold fexp32 in *; lia).
  rewrite Hd2 in L2. change (2 ^ (24 - 1)) with (2 ^ 23) in L2.
  assert (Hm1 : Zpos m1 < 2 ^ 24).
  { eapply Z.lt_le_trans; [exact U1|]. apply Z.pow_le_mono_r; lia. }
  assert (Hp1 : 0 < 2 ^ (e1 + 149)) by (apply Z.pow_pos_nonneg; lia).
  assert (Hp2 : 2 * 2 ^ (e1 + 149) <= 2 ^ (e2 + 149)).
  { replace (2 * 2 ^ (e1 + 149)) with (2 ^ (e1 + 150)).
    - apply Z.pow_le_mono_r; lia.
    - replace (e1 + 150) with (1 + (e1 + 149)) by lia.
      rewrite pow2_split by lia. reflexivity. }
  change (2 ^ 24) with (2 * 2 ^ 23) in Hm1.
  set (P1 := 2 ^ (e1 + 149)) in *. set (P2 := 2 ^ (e2 + 149)) in *.
  assert (Zpos m1 * P1 < 2 ^ 23 * (2 * P1)) by nia.
  assert (2 ^ 23 * (2 * P1) <= 2 ^ 23 * P2) by nia.
  assert (2 ^ 23 * P2 <= Zpos m2 * P2) by nia.
  lia.
Qed.

Lemma mul_compare_pos a b c : 0 < c -> (a * c ?= b * c) = (a ?= b).
Proof.
  intros Hc. destruct (Z.compare_spec a b) as [->|H|H].
  - apply Z.compare_refl.
  - apply Z.compare_lt_iff. nia.
  - apply Z.compare_gt_iff. nia.
Qed.

Lemma compare_cont_eq p q : Pos.compare_cont Eq p q = (Zpos p ?= Zpos q).
Proof. reflexivity. Qed.

(** Comparing well-formed numbers is comparing what they stand for. *)
Lemma compare_val x y :
  canon x -> canon y -> SFcompare x y = Some (val x ?= val y).
Proof.
  intros Hx Hy.
  destruct x as [sx|sx| |sx mx ex], y as [sy|sy| |sy my ey];
    cbn [canon] in Hx, Hy; try contradiction.
  - reflexivity.
  - pose proof (canon_finite sy my ey Hy) as (Ry & _).
    pose proof (val_finite_pos my ey ltac:(lia)) as Hp.
    cbn [SFcompare val]. destruct sy; cbn [cond_Zopp]; f_equal; symmetry.
    + apply Z.compare_gt_iff. lia.
    + apply Z.compare_lt_iff. lia.
  - pose proof (canon_finite sx mx ex Hx) as (Rx & _).
    pose proof (val_finite_pos mx ex ltac:(lia)) as Hp.
    cbn [SFcompare val]. destruct sx; cbn [cond_Zopp]; f_equal; symmetry.
    + apply Z.compare_lt_iff. lia.
    + apply Z.compare_gt_iff. lia.
  - pose proof (canon_finite sx mx ex Hx) as (Rx & _).
    pose proof (canon_finite sy my ey Hy) as (Ry & _).
    pose proof (val_finite_pos mx ex ltac:(lia)) as Px.
    pose proof (val_finite_pos my ey ltac:(lia)) as Py.
    cbn [SFcompare val].
    destruct sx, sy; cbn [cond_Zopp]; f_equal.
    + (* both negative *)
      destruct (Z.compare_spec ex ey) as [->|Hlt|Hgt].
      * rewrite compare_cont_eq, Z.compare_opp.
        rewrite mul_compare_pos by (apply Z.pow_pos_nonneg; lia).
        symmetry. apply Z.compare_antisym.
      * pose proof (canon_exp_lt true mx ex true my ey Hx Hy Hlt).
        symmetry. apply Z.compare_gt_iff. lia.
      * pose proof (canon_exp_lt true my ey true mx ex Hy Hx ltac:(lia)).
        symmetry. apply Z.compare_lt_iff. lia.
    + symmetry. apply Z.compare_lt_iff. lia.
    + symmetry. apply Z.compare_gt_iff. lia.
    + destruct (Z.compare_spec ex ey) as [->|Hlt|Hgt].
      * rewrite compare_cont_eq. symmetry.
        apply mul_compare_pos. apply Z.pow_pos_nonneg; lia.
      * pose proof (canon_exp_lt false mx ex false my ey Hx Hy Hlt).
        symmetry. apply Z.compare_lt_iff. lia.
      * pose proof (canon_exp_lt false my ey false mx ex Hy Hx ltac:(lia)).
        symmetry. apply Z.compare_gt_iff. lia.
Qed.

Lemma leb_val x y : canon x -> canon y -> (x <=? y)%f32 = (val x <=? val y).
Proof.
  intros Hx Hy. unfold F32.leb, SFleb. rewrite (compare_val x y Hx Hy).
  unfold Z.leb. destruct (val x ?= val y); reflexivity.
Qed.

(* ------------------------------------------------------------------ *)
(** *** The error of a sum, a difference and a quotient *)

Lemma binary_round_err s p e K :
  -149 <= e -> -149 <= K <= 127 ->
  Zpos p * 2 ^ (e + 149) < 2 ^ (K + 149) ->
  let x := binary_round prec emax s p e in
  canon x /\ val x = cond_Zopp s (Z.abs (val x)) /\
  Z.abs (2 * Z.abs (val x) - 2 * (Zpos p * 2 ^ (e + 149)))
  <= 2 ^ (fexp32 K + 149).
Proof.
  intros He HK Hv. cbv zeta. unfold binary_round.
  pose proof (shl_align_spec p e (fexp prec emax (Zpos (digits2_pos p) + e)))
    as (E1 & E2 & E3).
  rewrite fexp_32 in *.
  destruct (shl_align p e _) as [mz ez]. cbn [fst snd] in *.
  assert (Hez : -149 <= ez) by (unfold fexp32 in *; lia).
  assert (Hpe : 0 < 2 ^ (e + 149)) by (apply Z.pow_pos_nonneg; lia).
  assert (HeK : e < K).
  { assert (e + 149 < K + 149); [|lia].
    apply (Z.pow_lt_mono_r_iff 2); [lia | lia |].
    eapply Z.le_lt_trans; [|exact Hv]. nia. }
  assert (Hsplit : 2 ^ (e + 149) = 2 ^ (e - ez) * 2 ^ (ez + 149)).
  { rewrite <- pow2_split by lia. f_equal. lia. }
  assert (Hval : Zpos mz * 2 ^ (ez + 149) = Zpos p * 2 ^ (e + 149)).
  { rewrite E3, E2, Hsplit, <- E2. ring. }
  assert (Hpz : 0 < 2 ^ (ez + 149)) by (apply Z.pow_pos_nonneg; lia).
  assert (HKz : 2 ^ (K + 149) = 2 ^ (K - ez) * 2 ^ (ez + 149)).
  { rewrite <- pow2_split by lia. f_equal. lia. }
  destruct (round_aux_err s (Zpos mz) ez loc_Exact (Zpos mz) 1 0 K)
    as (C & S & B); try lia; try reflexivity.
  - cbn [Zdigits2]. rewrite E1. lia.
  - rewrite Z.mul_1_l. rewrite <- Hval, HKz in Hv. nia.
  - split; [exact C|]. split; [exact S|].
    rewrite Z.mul_1_r, Z.mul_1_l in B. rewrite <- Hval.
    replace (2 * (Zpos mz * 2 ^ (ez + 149)))
      with (2 * Zpos mz * 2 ^ (ez + 149)) by ring.
    exact B.
Qed.

Lemma normalize_err m e sz K :
  -149 <= e -> -149 <= K <= 127 ->
  Z.abs m * 2 ^ (e + 149) < 2 ^ (K + 149) ->
  let x := binary_normalize prec emax m e sz in
  canon x /\
  Z.abs (2 * val x - 2 * (m * 2 ^ (e + 149))) <= 2 ^ (fexp32 K + 149).
Proof.
  intros He HK Hv. cbv zeta.
  assert (Hpos : 0 <= 2 ^ (fexp32 K + 149))
    by (apply Z.pow_nonneg; lia).
  destruct m as [|p|p]; cbn [binary_normalize].
  - cbn [canon val]. split; [exact I|]. simpl. exact Hpos.
  - destruct (binary_round_err false p e K He HK Hv) as (C & S & B).
    split; [exact C|]. cbn [cond_Zopp] in S. rewrite S. exact B.
  - destruct (binary_round_err true p e K He HK Hv) as (C & S & B).
    split; [exact C|]. cbn [cond_Zopp] in S. rewrite S.
    replace (2 * - Z.abs (val (binary_round prec emax true p e))
             - 2 * (Z.neg p * 2 ^ (e + 149)))
      with (- (2 * Z.abs (val (binary_round prec emax true p e))
               - 2 * (Zpos p * 2 ^ (e + 149)))) by lia.
    rewrite Z.abs_opp. exact B.
Qed.

Lemma val_aligned s m e ez :
  -149 <= ez -> ez <= e ->
  cond_Zopp s (Zpos (fst (shl_align m e ez))) * 2 ^ (ez + 149)
  = val (S754_finite s m e).
Proof.
  intros Hz Hle. pose proof (shl_align_spec m e ez) as (_ & _ & E3).
  rewrite E3. replace (Z.min e ez) with ez by lia.
  cbn [val].
  replace (e + 149) with ((e - ez) + (ez + 149)) by lia.
  rewrite (pow2_split (e - ez) (ez + 149)) by lia.
  destruct s; cbn [cond_Zopp]; ring.
Qed.

(** The sum of two numbers whose exact sum is below [2^K] in
    magnitude: well-formed, and within half a unit in the last place
    of the exact sum. *)
Lemma add_err x y K :
  canon x -> canon y -> -149 <= K <= 127 ->
  Z.abs (val x + val y) < 2 ^ (K + 149) ->
  canon (x + y)%f32 /\
  Z.abs (2 * val (x + y)%f32 - 2 * (val x + val y)) <= 2 ^ (fexp32 K + 149).
Proof.
  intros Hx Hy HK Hv.
  assert (Hpos : 0 <= 2 ^ (fexp32 K + 149))
    by (apply Z.pow_nonneg; unfold fexp32; lia).
  destruct x as [sx|sx| |sx mx ex], y as [sy|sy| |sy my ey];
    cbn [canon] in Hx, Hy; try contradiction.
  - split; [destruct sx, sy; exact I|].
    destruct sx, sy; simpl; exact Hpos.
  - cbn [F32.add SFadd]. unfold F32.add, SFadd. split; [exact Hy|].
    cbn [val]. rewrite Z.add_0_l, Z.sub_diag. exact Hpos.
  - unfold F32.add, SFadd. split; [exact Hx|].
    cbn [val]. rewrite Z.add_0_r, Z.sub_diag. exact Hpos.
  - pose proof (canon_finite sx mx ex Hx) as (Rx & _).
    pose proof (canon_finite sy my ey Hy) as (Ry & _).
    unfold F32.add, SFadd.
    set (ez := Z.min ex ey).
    pose proof (val_aligned sx mx ex ez ltac:(unfold ez; lia)
                  ltac:(unfold ez; lia)) as Vx.
    pose proof (val_aligned sy my ey ez ltac:(unfold ez; lia)
                  ltac:(unfold ez; lia)) as Vy.
    set (ax := cond_Zopp sx (Zpos (fst (shl_align mx ex ez)))) in *.
    set (ay := cond_Zopp sy (Zpos (fst (shl_align my ey ez)))) in *.
    assert (Hsum : (ax + ay) * 2 ^ (ez + 149)
                   = val (S754_finite sx mx ex) + val (S754_finite sy my ey))
      by (rewrite <- Vx, <- Vy; ring).
    assert (Hpz : 0 < 2 ^ (ez + 149))
      by (apply Z.pow_pos_nonneg; unfold ez; lia).
    destruct (normalize_err (ax + ay) ez false K) as (C & B);
      [unfold ez; lia | exact HK | | ].
    + rewrite <- (Z.abs_eq (2 ^ (ez + 149))) by lia.
      rewrite <- Z.abs_mul, Hsum. exact Hv.
    + split; [exact C|]. rewrite <- Hsum. exact B.
Qed.

(** The same for a difference. *)
Lemma sub_err x y K :
  canon x -> canon y -> -149 <= K <= 127 ->
  Z.abs (val x - val y) < 2 ^ (K + 149) ->
  canon (x - y)%f32 /\
  Z.abs (2 * val (x - y)%f32 - 2 * (val x - val y)) <= 2 ^ (fexp32 K + 149).
Proof.
  intros Hx Hy HK Hv.
  assert (Hpos : 0 <= 2 ^ (fexp32 K + 149))
    by (apply Z.pow_nonneg; unfold fexp32; lia).
  destruct x as [sx|sx| |sx mx ex], y as [sy|sy| |sy my ey];
    cbn [canon] in Hx, Hy; try contradiction.
  - split; [destruct sx, sy; exact I|].
    destruct sx, sy; simpl; exact Hpos.
  - unfold F32.sub, SFsub. split; [exact Hy|].
    cbn [val].
    replace (2 * cond_Zopp (negb sy) (Zpos my * 2 ^ (ey + 149))
             - 2 * (0 - cond_Zopp sy (Zpos my * 2 ^ (ey + 149)))) with 0
      by (destruct sy; cbn [negb cond_Zopp]; lia).
    exact Hpos.
  - unfold F32.sub, SFsub. split; [exact Hx|].
    cbn [val]. rewrite Z.sub_0_r, Z.sub_diag. exact Hpos.
  - pose proof (canon_finite sx mx ex Hx) as (Rx & _).
    pose proof (canon_finite sy my ey Hy) as (Ry & _).
    unfold F32.sub, SFsub.
    set (ez := Z.min ex ey).
    pose proof (val_aligned sx mx ex ez ltac:(unfold ez; lia)
                  ltac:(unfold ez; lia)) as Vx.
    pose proof (val_aligned sy my ey ez ltac:(unfold ez; lia)
                  ltac:(unfold ez; lia)) as Vy.
    set (ax := cond_Zopp sx (Zpos (fst (shl_align mx ex ez)))) in *.
    set (ay := cond_Zopp sy (Zpos (fst (shl_align my ey ez)))) in *.
    assert (Hsum : (ax - ay) * 2 ^ (ez + 149)
                   = val (S754_finite sx mx ex) - val (S754_finite sy my ey))
      by (rewrite <- Vx, <- Vy; ring).
    assert (Hpz : 0 < 2 ^ (ez + 149))
      by (apply Z.pow_pos_nonneg; unfold ez; lia).
    destruct (normalize_err (ax - ay) ez false K) as (C & B);
      [unfold ez; lia | exact HK | | ].
    + rewrite <- (Z.abs_eq (2 ^ (ez + 149))) by lia.
      rewrite <- Z.abs_mul, Hsum. exact Hv.
    + split; [exact C|]. rewrite <- Hsum. exact B.
Qed.

(** What [new_location] says of a remainder. *)
Lemma new_location_ok d r :
  0 <= r < d -> loc_ok d r (new_location d r).
Proof.
  intros Hr. unfold new_location, new_location_even, new_location_odd.
  destruct (Z.even d) eqn:Hev.
  - destruct (r =? 0) eqn:H0; [apply Z.eqb_eq in H0; exact H0|].
    apply Z.eqb_neq in H0. cbn [loc_ok].
    destruct (Z.compare_spec (2 * r) d); lia.
  - destruct (r =? 0) eqn:H0; [apply Z.eqb_eq in H0; exact H0|].
    apply Z.eqb_neq in H0.
    assert (Hodd : Z.odd d = true) by (rewrite <- Z.negb_even, Hev; reflexivity).
    apply Z.odd_spec in Hodd. destruct Hodd as [k Hk].
    destruct (Z.compare_spec (2 * r + 1) d); cbn [loc_ok]; lia.
Qed.

(** The quotient by a positive number of 24 digits, when the exact
    quotient is below [2^K] in magnitude: well-formed, and within half
    a unit in the last place of the exact quotient. *)
Lemma div_err x md ed K :
  canon x -> Zpos (digits2_pos md) = 24 -> -149 <= ed <= 0 ->
  -149 <= K <= 127 ->
  Z.abs (val x) * 2 ^ 149 < Zpos md * 2 ^ (ed + 149) * 2 ^ (K + 149) ->
  let y := S754_finite false md ed in
  canon (x / y)%f32 /\
  Z.abs (2 * val (x / y)%f32 * val y - 2 * val x * 2 ^ 149)
  <= val y * 2 ^ (fexp32 K + 149).
Proof.
  intros Hx Hdd Hed HK Hv. cbv zeta.
  assert (Hpd : 0 < 2 ^ (ed + 149)) by (apply Z.pow_pos_nonneg; lia).
  assert (Hpf : 0 <= 2 ^ (fexp32 K + 149))
    by (apply Z.pow_nonneg; unfold fexp32; lia).
  destruct x as [sx|sx| |sx p e]; cbn [canon] in Hx; try contradiction.
  - unfold F32.div, SFdiv. cbn [canon val cond_Zopp]. split; [exact I|].
    simpl (Z.abs _). nia.
  - pose proof (canon_finite sx p e Hx) as (Re & Dp & _).
    unfold F32.div, SFdiv, SFdiv_core_binary. cbn [Zdigits2].
    rewrite fexp_32, Hdd, xorb_false_r.
    set (d1 := Zpos (digits2_pos p)) in *.
    set (D := d1 + e - (24 + ed)).
    set (e' := Z.min (fexp32 D) (e - ed)).
    assert (Le' : -149 <= e') by (unfold e', fexp32; lia).
    assert (Ls : 0 <= e - ed - e') by (unfold e'; lia).
    assert (Hm' : match e - ed - e' with
                  | 0 => Zpos p
                  | Zpos _ => Z.shiftl (Zpos p) (e - ed - e')
                  | Zneg _ => 0
                  end = Zpos p * 2 ^ (e - ed - e')).
    { destruct (e - ed - e') as [|k|k] eqn:Hk'; [simpl; lia | | lia].
      rewrite Z.shiftl_mul_pow2 by lia. reflexivity. }
    rewrite Hm'. clear Hm'.
    set (sh := e - ed - e') in *.
    set (a := Zpos p * 2 ^ sh).
    pose proof (Z_div_mod a (Zpos md) eq_refl) as Hdiv.
    destruct (Z.div_eucl a (Zpos md)) as [q r]. destruct Hdiv as [Hq Hr].
    assert (Hps : 0 < 2 ^ sh) by (apply Z.pow_pos_nonneg; lia).
    assert (Ha : 0 < a) by (unfold a; lia).
    assert (Hq0 : 0 <= q) by nia.
    pose proof (digits2_pos_bounds p) as [Lp Up]. fold d1 in Lp, Up.
    pose proof (digits2_pos_bounds md) as [Lmd Umd]. rewrite Hdd in Lmd, Umd.
    change (2 ^ (24 - 1)) with (2 ^ 23) in Lmd.
    (* the magnitude: the exact quotient is at least 2^(D-1) *)
    cbn [val cond_Zopp] in Hv.
    assert (Habs : Z.abs (cond_Zopp sx (Zpos p * 2 ^ (e + 149)))
                   = Zpos p * 2 ^ (e + 149)).
    { pose proof (val_finite_pos p e ltac:(lia)).
      destruct sx; cbn [cond_Zopp]; lia. }
    rewrite Habs in Hv.
    assert (Hpe' : 0 < 2 ^ (e' + 149)) by (apply Z.pow_pos_nonneg; lia).
    assert (He2 : 2 ^ (e + 149) * 2 ^ 149
                  = 2 ^ sh * 2 ^ (e' + 149) * 2 ^ (ed + 149)).
    { rewrite <- !pow2_split by lia. f_equal. unfold sh. lia. }
    assert (Hv' : a * 2 ^ (e' + 149) < Zpos md * 2 ^ (K + 149)).
    { assert (Zpos p * (2 ^ (e + 149) * 2 ^ 149)
              < Zpos md * 2 ^ (K + 149) * 2 ^ (ed + 149)) by lia.
      rewrite He2 in H. unfold a.
      apply (Z.mul_lt_mono_pos_r (2 ^ (ed + 149))); [exact Hpd|]. lia. }
    assert (HDK : D <= K).
    { assert (Hlt : 2 ^ (d1 - 1 + sh + (e' + 149)) < 2 ^ (24 + (K + 149))).
      { rewrite (pow2_split (d1 - 1 + sh) (e' + 149)) by (unfold d1; lia).
        rewrite (pow2_split (d1 - 1) sh) by (unfold d1; lia).
        rewrite (pow2_split 24 (K + 149)) by lia.
        assert (HKp : 0 < 2 ^ (K + 149)) by (apply Z.pow_pos_nonneg; lia).
        assert (H1 : 2 ^ (d1 - 1) * 2 ^ sh <= a).
        { unfold a. apply Z.mul_le_mono_nonneg_r; lia. }
        assert (H2 : 2 ^ (d1 - 1) * 2 ^ sh * 2 ^ (e' + 149)
                     <= a * 2 ^ (e' + 149)).
        { apply Z.mul_le_mono_nonneg_r; lia. }
        assert (H3 : Zpos md * 2 ^ (K + 149) < 2 ^ 24 * 2 ^ (K + 149)).
        { apply Z.mul_lt_mono_pos_r; lia. }
        lia. }
      apply Z.pow_lt_mono_r_iff in Hlt; [|lia|lia].
      unfold D, sh in *. lia. }
    assert (HeK : e' <= K) by (unfold e', fexp32; lia).
    assert (HKs : 2 ^ (K + 149) = 2 ^ (K - e') * 2 ^ (e' + 149)).
    { rewrite <- pow2_split by lia. f_equal. lia. }
    assert (Hlt : a < Zpos md * 2 ^ (K - e')).
    { rewrite HKs in Hv'.
      apply (Z.mul_lt_mono_pos_r (2 ^ (e' + 149))); [exact Hpe'|]. lia. }
    (* enough digits in the quotient *)
    assert (Hfe : e' <= fexp32 (Zdigits2 q + e')).
    { destruct (Z.eq_dec e' (-149)) as [->|Hne]; [unfold fexp32; lia|].
      assert (Hsh : 48 - d1 <= sh) by (unfold sh, e', D, fexp32 in *; lia).
      assert (H47 : 2 ^ 47 <= a).
      { unfold a.
        assert (2 ^ 47 <= 2 ^ (d1 - 1 + sh))
          by (apply Z.pow_le_mono_r; unfold d1 in *; lia).
        rewrite pow2_split in H by (unfold d1; lia). nia. }
      assert (Hq23 : 2 ^ 23 <= q).
      { destruct (Z_lt_le_dec q (2 ^ 23)) as [Hlt'|]; [|assumption].
        change (2 ^ 47) with (2 ^ 23 * 2 ^ 24) in H47.
        assert (q * Zpos md + r < 2 ^ 23 * Zpos md) by nia.
        nia. }
      pose proof (Zdigits2_ge q 23 ltac:(lia) Hq23).
      unfold fexp32. lia. }
    destruct (round_aux_err sx q e' (new_location (Zpos md) r) a (Zpos md) r K)
      as (C & S & B); try lia.
    + apply new_location_ok. lia.
    + split; [exact C|].
      set (z := binary_round_aux prec emax sx q e' (new_location (Zpos md) r))
        in *.
      set (az := Z.abs (val z)) in *.
      cbn [val cond_Zopp].
      assert (Hax : a * 2 ^ (e' + 149) * 2 ^ (ed + 149)
                    = Zpos p * 2 ^ (e + 149) * 2 ^ 149).
      { unfold a. rewrite <- !Z.mul_assoc, (Z.mul_assoc (2 ^ sh)), <- He2.
        ring. }
      replace (2 * val z * (Zpos md * 2 ^ (ed + 149))
               - 2 * cond_Zopp sx (Zpos p * 2 ^ (e + 149)) * 2 ^ 149)
        with (cond_Zopp sx
                ((2 * az * Zpos md - 2 * a * 2 ^ (e' + 149))
                 * 2 ^ (ed + 149))).
      2:{ rewrite S.
          replace (2 * cond_Zopp sx (Zpos p * 2 ^ (e + 149)) * 2 ^ 149)
            with (2 * cond_Zopp sx (Zpos p * 2 ^ (e + 149) * 2 ^ 149))
            by (destruct sx; cbn [cond_Zopp]; ring).
          rewrite <- Hax. destruct sx; cbn [cond_Zopp]; ring. }
      rewrite abs_cond_Zopp, Z.abs_mul, (Z.abs_eq (2 ^ (ed + 149))) by lia.
      set (A := Z.abs (2 * az * Zpos md - 2 * a * 2 ^ (e' + 149))) in *.
      rewrite (Z.mul_comm (Zpos md * 2 ^ (ed + 149))).
      rewrite Z.mul_assoc, (Z.mul_comm (2 ^ (fexp32 K + 149))).
      apply Z.mul_le_mono_nonneg_r; [lia | exact B].
Qed.

(* ================================================================== *)
(** ** The error of a ramp *)
(* ================================================================== *)

Lemma divisors_ok c : 1 <= c <= 256 -> divisor_ok c = true.
Proof.
  intros Hc.
  assert (H : forallb divisor_ok (map Z.of_nat (seq 1 256)) = true)
    by (vm_compute; reflexivity).
  rewrite forallb_forall in H. apply H.
  apply in_map_iff. exists (Z.to_nat c). split; [lia|].
  apply in_seq. lia.
Qed.

Lemma nonneg_fabsf x : is_nan x = false -> nonneg (fabsf x).
Proof. destruct x; cbn; intros; try reflexivity; try exact I; discriminate. Qed.

Lemma canon_not_nan x : canon x -> is_nan x = false.
Proof. destruct x; cbn; intros; try reflexivity; contradiction. Qed.

(** The quotient by a step count. *)
Lemma div_int_err x n K :
  canon x -> 1 <= n <= 256 -> -149 <= K <= 127 ->
  Z.abs (val x) < n * 2 ^ (K + 149) ->
  canon (x / of_int n)%f32 /\
  Z.abs (2 * n * val (x / of_int n)%f32 - 2 * val x)
  <= n * 2 ^ (fexp32 K + 149).
Proof.
  intros Hx Hn HK Hv. pose proof (divisors_ok n Hn) as Hd.
  unfold divisor_ok in Hd.
  destruct (of_int n) as [| | |[] md ed]; try discriminate.
  apply andb_prop in Hd as [Hd H4]. apply andb_prop in Hd as [Hd H3].
  apply andb_prop in Hd as [H1 H2].
  apply Z.eqb_eq in H1, H4. apply Z.leb_le in H2, H3.
  assert (HU : 0 < 2 ^ 149) by reflexivity.
  destruct (div_err x md ed K Hx H1 ltac:(lia) HK) as (C & B).
  { rewrite H4. rewrite <- Z.mul_assoc, (Z.mul_comm (2 ^ 149)), Z.mul_assoc.
    apply Z.mul_lt_mono_pos_r; [exact HU | exact Hv]. }
  split; [exact C|]. cbv zeta in B. cbn [val cond_Zopp] in B.
  rewrite H4 in B.
  set (z := val (x / S754_finite false md ed)%f32) in *.
  replace (2 * z * (n * 2 ^ 149) - 2 * val x * 2 ^ 149)
    with ((2 * n * z - 2 * val x) * 2 ^ 149) in B by ring.
  rewrite Z.abs_mul, (Z.abs_eq (2 ^ 149)) in B by lia.
  replace (n * 2 ^ 149 * 2 ^ (fexp32 K + 149))
    with (n * 2 ^ (fexp32 K + 149) * 2 ^ 149) in B by ring.
  apply Z.mul_le_mono_pos_r in B; [exact B | exact HU].
Qed.

(** The step count of a quotient that is at most [N]: it is defined,
    it is at most [N], and it is less than one above the quotient. *)
Lemma to_int_ceilf_le q N :
  nonneg q -> canon q -> val q <= N * 2 ^ 149 -> 0 <= N <= 256 ->
  exists c, to_int (ceilf q) = Some c /\ 0 <= c <= N /\
            (c - 1) * 2 ^ 149 < val q.
Proof.
  intros Hs Hq Hv HN. assert (HU : 0 < 2 ^ 149) by reflexivity.
  destruct q as [sq|sq| |sq m e]; cbn [canon nonneg] in Hq, Hs;
    try contradiction.
  - exists 0. split; [reflexivity|]. split; [lia|]. cbn [val]. lia.
  - subst sq. pose proof (canon_finite false m e Hq) as (Re & _).
    cbn [val cond_Zopp] in Hv |- *.
    unfold ceilf. destruct (0 <=? e) eqn:He.
    + apply Z.leb_le in He. unfold to_int, trunc.
      rewrite (proj2 (Z.leb_le 0 e) He). cbn [cond_Zopp].
      assert (Hsp : 2 ^ (e + 149) = 2 ^ e * 2 ^ 149) by (apply pow2_split; lia).
      rewrite Hsp, Z.mul_assoc in Hv |- *.
      assert (Hv' : Zpos m * 2 ^ e <= N).
      { apply Z.mul_le_mono_pos_r in Hv; [exact Hv | exact HU]. }
      assert (H0 : 0 <= Zpos m * 2 ^ e)
        by (apply Z.mul_nonneg_nonneg; [|apply Z.pow_nonneg]; lia).
      set (v := Zpos m * 2 ^ e) in *.
      assert (Hin : (INT_MIN <=? v) && (v <=? INT_MAX) = true).
      { unfold INT_MIN, INT_MAX. change (2 ^ 31) with 2147483648.
        apply andb_true_intro. split; apply Z.leb_le; lia. }
      rewrite Hin. exists v. split; [reflexivity|]. split; [lia|].
      apply Z.mul_lt_mono_pos_r; [exact HU | lia].
    + apply Z.leb_gt in He. cbn [cond_Zopp].
      set (p2 := 2 ^ (- e)).
      assert (Hp2 : 0 < p2) by (apply Z.pow_pos_nonneg; lia).
      assert (Hpe : 0 < 2 ^ (e + 149)) by (apply Z.pow_pos_nonneg; lia).
      assert (Hsp : 2 ^ 149 = p2 * 2 ^ (e + 149)).
      { unfold p2. rewrite <- pow2_split by lia. f_equal. lia. }
      assert (Hmb : Zpos m <= N * p2).
      { rewrite Hsp, Z.mul_assoc in Hv.
        apply Z.mul_le_mono_pos_r in Hv; [exact Hv | exact Hpe]. }
      set (c0 := - (- Zpos m / p2)).
      assert (Hc : 1 <= c0 <= N /\ (c0 - 1) * p2 < Zpos m).
      { unfold c0. split; [split|].
        - assert (- Zpos m / p2 < 0)
            by (apply Z.div_lt_upper_bound; lia). lia.
        - assert (- N <= - Zpos m / p2)
            by (apply Z.div_le_lower_bound; lia). lia.
        - pose proof (Z.mul_succ_div_gt (- Zpos m) p2 Hp2) as Hd.
          lia. }
      destruct Hc as (Hc & Hlow).
      destruct (c0 =? 0) eqn:Hc0; [apply Z.eqb_eq in Hc0; lia|].
      exists c0. split.
      * destruct c0 as [|pc|pc]; try lia.
        exact (proj1 (of_int_step (Zpos pc) ltac:(lia))).
      * split; [lia|]. rewrite Hsp, Z.mul_assoc.
        apply Z.mul_lt_mono_pos_r; [exact Hpe | exact Hlow].
Qed.

Lemma between i n v :
  0 <= i <= n -> (0 <= i * v <= n * v) \/ (n * v <= i * v <= 0).
Proof.
  intros [H0 H1]. destruct (Z_le_gt_dec 0 v) as [Hv|Hv].
  - left. split; [apply Z.mul_nonneg_nonneg; lia|].
    apply Z.mul_le_mono_nonneg_r; lia.
  - right. split; [apply Z.mul_le_mono_nonpos_r; lia|].
    apply Z.mul_nonneg_nonpos; lia.
Qed.

(** [j] steps of a ramp: as long as the exact sums stay below 128, each
    step adds at most [2^-18] to the distance from the exact sum. *)
Lemma ramp_final_err s :
  canon s -> forall (j : nat) x,
  canon x ->
  (forall i, 0 <= i <= Z.of_nat j ->
     Z.abs (val x + i * val s) + Z.of_nat j * 2 ^ 131 < 2 ^ 156) ->
  canon (ramp_final j s x) /\
  Z.abs (val (ramp_final j s x) - (val x + Z.of_nat j * val s))
  <= Z.of_nat j * 2 ^ 131.
Proof.
  intros Hs. assert (Hu : 0 < 2 ^ 131) by reflexivity.
  induction j as [|j IH]; intros x Hx Hb.
  - cbn [ramp_final]. split; [exact Hx|].
    change (Z.of_nat 0) with 0. rewrite !Z.mul_0_l, Z.add_0_r, Z.sub_diag.
    reflexivity.
  - cbn [ramp_final].
    destruct (add_err x s 7 Hx Hs ltac:(lia)) as (C1 & E1).
    { specialize (Hb 1 ltac:(lia)). change (2 ^ (7 + 149)) with (2 ^ 156).
      rewrite Z.mul_1_l in Hb. lia. }
    change (2 ^ (fexp32 7 + 149)) with (2 * 2 ^ 131) in E1.
    destruct (IH (x + s)%f32 C1) as (C2 & E2).
    { intros i Hi. specialize (Hb (i + 1) ltac:(lia)).
      set (u := 2 ^ 131) in *. set (M := 2 ^ 156) in *.
      set (v1 := val (x + s)%f32) in *.
      lia. }
    split; [exact C2|].
    set (u := 2 ^ 131) in *.
    set (v1 := val (x + s)%f32) in *.
    set (vj := val (ramp_final j s (x + s)%f32)) in *.
    lia.
Qed.

(** The values of a ramp from a duty within [2^-12] of [0, 100] to a
    duty of [0, 100]: the step count is defined and at most 34, every
    value is again within [2^-12] of [0, 100], and the last one is
    within [52 * 2^-18] of the target. *)
Lemma ramp_bounds L T :
  canon L -> canon T ->
  - (64 * 2 ^ 131) <= val L <= 100 * 2 ^ 149 + 64 * 2 ^ 131 ->
  0 <= val T <= 100 * 2 ^ 149 ->
  exists n,
    ramp_steps (T - L)%f32 = Some n /\ 1 <= n <= 34 /\
    forall j, (j <= Z.to_nat n)%nat ->
      let x := ramp_final j ((T - L) / of_int n)%f32 L in
      canon x /\
      - (64 * 2 ^ 131) <= val x <= 100 * 2 ^ 149 + 64 * 2 ^ 131 /\
      (j = Z.to_nat n -> Z.abs (val x - val T) <= 52 * 2 ^ 131).
Proof.
  intros HL HT VL VT.
  assert (Hu : 0 < 2 ^ 131) by reflexivity.
  change (2 ^ 149) with (262144 * 2 ^ 131) in VL, VT |- *.
  (* the difference *)
  destruct (sub_err T L 7 HT HL ltac:(lia)) as (Cd & Ed).
  { change (2 ^ (7 + 149)) with (33554432 * 2 ^ 131). lia. }
  change (2 ^ (fexp32 7 + 149)) with (2 * 2 ^ 131) in Ed.
  set (delta := (T - L)%f32) in *.
  (* the step count *)
  assert (Cq : canon (fabsf delta)) by now apply canon_fabsf.
  pose proof (val_fabsf delta) as Vq.
  destruct (div_int_err (fabsf delta) 3 6 Cq ltac:(lia) ltac:(lia))
    as (Cq3 & Eq3).
  { rewrite Vq. change (2 ^ (6 + 149)) with (16777216 * 2 ^ 131). lia. }
  change (2 ^ (fexp32 6 + 149)) with (2 ^ 131) in Eq3.
  change (of_int 3) with MAX_SLEW_STEP_PCT in Cq3, Eq3.
  rewrite Vq in Eq3.
  assert (Nq : nonneg (fabsf delta / MAX_SLEW_STEP_PCT)%f32).
  { apply div_nonneg, nonneg_fabsf, canon_not_nan, Cd. }
  destruct (to_int_ceilf_le _ 34 Nq Cq3) as (c & Hc & Hc34 & Hclow);
    [change (2 ^ 149) with (262144 * 2 ^ 131); lia | lia |].
  change (2 ^ 149) with (262144 * 2 ^ 131) in Hclow.
  set (n := if c <? 1 then 1 else c).
  assert (Hn : ramp_steps delta = Some n)
    by (unfold ramp_steps; rewrite Hc; reflexivity).
  assert (Hn34 : 1 <= n <= 34).
  { unfold n. destruct (c <? 1) eqn:Hlt; [lia|].
    apply Z.ltb_ge in Hlt. lia. }
  assert (Hn2 : n <> 1 -> c = n).
  { unfold n. destruct (c <? 1) eqn:Hlt; [congruence | reflexivity]. }
  exists n. split; [exact Hn|]. split; [exact Hn34|].
  set (s := (delta / of_int n)%f32).
  (* the step *)
  assert (Hs : canon s /\
               Z.abs (2 * n * val s - 2 * val delta)
               <= (if n =? 1 then 2 else n) * 2 ^ 131).
  { destruct (n =? 1) eqn:H1.
    - apply Z.eqb_eq in H1.
      destruct (div_int_err delta n 7 Cd ltac:(lia) ltac:(lia)) as (C & B).
      { change (2 ^ (7 + 149)) with (33554432 * 2 ^ 131). lia. }
      split; [exact C|].
      change (2 ^ (fexp32 7 + 149)) with (2 * 2 ^ 131) in B.
      fold s in B. rewrite H1 in B |- *. lia.
    - apply Z.eqb_neq in H1.
      destruct (div_int_err delta n 6 Cd ltac:(lia) ltac:(lia)) as (C & B).
      { change (2 ^ (6 + 149)) with (16777216 * 2 ^ 131). lia. }
      split; [exact C|].
      change (2 ^ (fexp32 6 + 149)) with (2 ^ 131) in B.
      exact B. }
  destruct Hs as (Cs & Es).
  set (u := 2 ^ 131) in *.
  set (W := (if n =? 1 then 2 else n) * u) in *.
  assert (Hnu : n * u <= 34 * u) by (apply Z.mul_le_mono_nonneg_r; lia).
  assert (Hnu0 : 0 <= n * u) by (apply Z.mul_nonneg_nonneg; lia).
  assert (HW : 0 <= W /\ 2 * n * u + W + 2 * u <= 104 * u).
  { unfold W. destruct (n =? 1) eqn:H1.
    - apply Z.eqb_eq in H1. rewrite H1 in *. lia.
    - lia. }
  (* the exact sums lie between the two ends *)
  assert (Hy : forall i, 0 <= i <= n ->
            - (128 * u) <= 2 * (val L + i * val s)
            <= 2 * (100 * (262144 * u)) + 128 * u).
  { intros i Hi. destruct (between i n (val s) Hi) as [Hb|Hb]; lia. }
  intros j Hj.
  assert (Hju : 0 <= Z.of_nat j * u <= n * u).
  { split; [apply Z.mul_nonneg_nonneg; lia|].
    apply Z.mul_le_mono_nonneg_r; lia. }
  destruct (ramp_final_err s Cs j L HL) as (Cj & Ej).
  { intros i Hi. specialize (Hy i ltac:(lia)).
    fold u. change (2 ^ 156) with (33554432 * 2 ^ 131). fold u. lia. }
  fold u in Ej. cbv zeta.
  split; [exact Cj|].
  set (xj := val (ramp_final j s L)) in *.
  split.
  - (* inside the range *)
    destruct (Z.eq_dec n 1) as [H1|H1].
    + (* one step: the value is the start or next to the target *)
      assert (Hj01 : j = O \/ j = 1%nat) by lia.
      destruct Hj01 as [-> | ->].
      * unfold xj. cbn [ramp_final]. lia.
      * unfold W in *. rewrite H1 in *. change (1 =? 1) with true in *.
        cbv iota in *. lia.
    + (* several steps: each one moves by more than its error *)
      assert (Hcn : c = n) by (apply Hn2; exact H1).
      unfold W in *. destruct (n =? 1) eqn:Hn1;
        [apply Z.eqb_eq in Hn1; contradiction|].
      assert (Hbig : u <= val s \/ val s <= - u).
      { destruct (Z_le_gt_dec u (val s)) as [|Hlt]; [now left|].
        destruct (Z_le_gt_dec (val s) (- u)) as [|Hgt]; [now right|].
        exfalso.
        assert (n * val s < n * u) by (apply Z.mul_lt_mono_pos_l; lia).
        assert (n * (- u) < n * val s) by (apply Z.mul_lt_mono_pos_l; lia).
        lia. }
      assert (Hjn : 0 <= n - Z.of_nat j) by lia.
      destruct Hbig as [Hup|Hdn].
      * assert (0 <= Z.of_nat j * (val s - u))
          by (apply Z.mul_nonneg_nonneg; lia).
        assert (0 <= (n - Z.of_nat j) * val s)
          by (apply Z.mul_nonneg_nonneg; lia).
        lia.
      * assert (0 <= Z.of_nat j * (- val s - u))
          by (apply Z.mul_nonneg_nonneg; lia).
        assert (0 <= (n - Z.of_nat j) * (- val s))
          by (apply Z.mul_nonneg_nonneg; lia).
        lia.
  - intros ->. rewrite Z2Nat.id in * by lia. lia.
Qed.

(* ================================================================== *)
(** ** Convergence and the clamp *)
(* ================================================================== *)

(** A well-formed number of [0, 100]. *)
Lemma in_range_val x :
  valid x = true -> (f0 <=? x)%f32 = true -> (x <=? f100)%f32 = true ->
  canon x /\ 0 <= val x <= 100 * 2 ^ 149.
Proof.
  intros Hv H0 H1. pose proof (valid_canon x Hv H0 H1) as Hc.
  split; [exact Hc|].
  rewrite (leb_val f0 x I Hc) in H0. rewrite (leb_val x f100 Hc eq_refl) in H1.
  apply Z.leb_le in H0, H1.
  change (val f0) with 0 in H0. change (val f100) with (100 * 2 ^ 149) in H1.
  lia.
Qed.

Lemma canon_valid x : canon x -> valid x = true.
Proof. destruct x; cbn [canon]; intros H; try contradiction; auto. Qed.

(** A well-formed number within [2^-12] of [0, 100], and back. *)
Lemma in_ramp_range_canon x :
  valid x = true -> in_ramp_range x = true ->
  canon x /\ - (64 * 2 ^ 131) <= val x <= 100 * 2 ^ 149 + 64 * 2 ^ 131.
Proof.
  intros Hv Hr.
  assert (Hc : canon x).
  { destruct x as [s|s| |s m e]; try exact I; try exact Hv.
    - destruct s; discriminate.
    - discriminate. }
  split; [exact Hc|]. unfold in_ramp_range in Hr.
  rewrite (leb_val RAMP_LO x eq_refl Hc), (leb_val x RAMP_HI Hc eq_refl) in Hr.
  apply andb_prop in Hr as [H0 H1]. apply Z.leb_le in H0, H1.
  change (val RAMP_LO) with (- (64 * 2 ^ 131)) in H0.
  change (val RAMP_HI) with (100 * 2 ^ 149 + 64 * 2 ^ 131) in H1.
  lia.
Qed.

Lemma in_ramp_range_val x :
  canon x ->
  - (64 * 2 ^ 131) <= val x <= 100 * 2 ^ 149 + 64 * 2 ^ 131 ->
  in_ramp_range x = true.
Proof.
  intros Hc Hv. unfold in_ramp_range.
  rewrite (leb_val RAMP_LO x eq_refl Hc), (leb_val x RAMP_HI Hc eq_refl).
  change (val RAMP_LO) with (- (64 * 2 ^ 131)).
  change (val RAMP_HI) with (100 * 2 ^ 149 + 64 * 2 ^ 131).
  apply andb_true_intro. split; apply Z.leb_le; lia.
Qed.

(** The duties of [0, 100] are among them. *)
Lemma in_range_in_ramp_range x :
  valid x = true -> (f0 <=? x)%f32 = true -> (x <=? f100)%f32 = true ->
  in_ramp_range x = true.
Proof.
  intros Hv H0 H1. destruct (in_range_val x Hv H0 H1) as (Hc & Hr).
  apply in_ramp_range_val; [exact Hc|].
  assert (Hu : 0 < 2 ^ 131) by reflexivity.
  set (u := 2 ^ 131) in *. set (U := 2 ^ 149) in *. lia.
Qed.

Lemma within_tol_val x t :
  canon x -> canon t -> Z.abs (val x - val t) <= 52 * 2 ^ 131 ->
  within_tol x t = true.
Proof.
  intros Hx Ht Hv. assert (Hu : 0 < 2 ^ 131) by reflexivity.
  assert (Hw : 0 < 2 ^ 113 <= 2 ^ 131) by (split; [reflexivity | discriminate]).
  destruct (sub_err x t (-12) Hx Ht ltac:(lia)) as (C & B).
  { change (2 ^ (-12 + 149)) with (64 * 2 ^ 131). lia. }
  change (2 ^ (fexp32 (-12) + 149)) with (2 ^ 113) in B.
  unfold within_tol.
  rewrite (leb_val _ RAMP_TOL (canon_fabsf _ C) eq_refl), val_fabsf.
  change (val RAMP_TOL) with (64 * 2 ^ 131).
  set (u := 2 ^ 131) in *. set (u' := 2 ^ 113) in *.
  apply Z.leb_le. lia.
Qed.

(** Every duty an uninterrupted loop of [k] steps passes to [drive()]
    is the value after some [j <= k] steps. *)
Lemma drive_calls_ramp_events_upto (P : f32 -> Prop) s k : forall x,
  (forall j, (1 <= j <= k)%nat -> P (ramp_final j s x)) ->
  Forall P (drive_calls (ramp_events k s x)).
Proof.
  induction k as [|k IH]; intros x HP; [constructor|].
  cbn [ramp_events drive_calls]. constructor.
  - exact (HP 1%nat ltac:(lia)).
  - apply IH. intros j Hj. exact (HP (S j) ltac:(lia)).
Qed.

(** The ramp of [safeRampTo] from a duty within [RAMP_TOL] of [0, 100]:
    the step count is defined and at most 34, every value is again
    within [RAMP_TOL] of [0, 100], and the last one is within
    [RAMP_TOL] of the clamped target. *)
Lemma ramp_in_tolerance L targetPct :
  valid L = true -> in_ramp_range L = true ->
  valid targetPct = true -> is_nan targetPct = false ->
  let delta := (clampPct targetPct - L)%f32 in
  exists n,
    ramp_steps delta = Some n /\ 1 <= n <= 34 /\
    (forall j, (j <= Z.to_nat n)%nat ->
       valid (ramp_final j (delta / of_int n)%f32 L) = true /\
       in_ramp_range (ramp_final j (delta / of_int n)%f32 L) = true) /\
    within_tol (ramp_final (Z.to_nat n) (delta / of_int n)%f32 L)
      (clampPct targetPct) = true.
Proof.
  intros HvL HrL HvT HnT delta.
  destruct (in_ramp_range_canon L HvL HrL) as (CL & VL).
  destruct (clampPct_in_range targetPct HnT) as [HT0 HT1].
  destruct (in_range_val _ (clampPct_valid _ HvT) HT0 HT1) as (CT & VT).
  destruct (ramp_bounds L (clampPct targetPct) CL CT VL VT)
    as (n & Hn & Hn34 & Hb).
  exists n. split; [exact Hn|]. split; [exact Hn34|]. split.
  - intros j Hj. destruct (Hb j Hj) as (Cj & Vj & _).
    split; [now apply canon_valid | now apply in_ramp_range_val].
  - destruct (Hb (Z.to_nat n) ltac:(lia)) as (Cj & _ & Vn).
    apply within_tol_val; [exact Cj | exact CT | now apply Vn].
Qed.

(** C1 (as the code has it). For every well-formed LastCommandedDuty
    [L] within [2^-12] of [0,100] (every duty of [0,100] is) and every
    well-formed target that is not a NaN, the step count
    [max(1, ceil(|T' - L| / MAX_SLEW_STEP_PCT))] is defined and at most
    34 (T' the clamped target, all of it in binary32); if neither a
    fault nor an over-voltage trip occurs at entry or at a step,
    [safeRampTo] returns after exactly that many [drive()] calls, and
    LastCommandedDuty is the duty of the last one: [L] advanced that
    many times by [stepSize = (T' - L) / steps].  That value need not
    be T', but it is within [2^-12] of it, whatever [L] and the target
    are; between whole-number duties of [0,100] it is within [2^-14].
    With L = 20, T = 75 there are exactly 19 [drive()] calls and the
    last one drives 9830401 * 2^-17 = 75.00000762939453125. *)
Theorem C1_uninterrupted_ramp cfg sig w :
  (forall L : f32,
     valid L = true -> (f0 <=? L)%f32 = true -> (L <=? f100)%f32 = true ->
     in_ramp_range L = true)
  /\
  (forall L targetPct : f32,
     valid L = true -> in_ramp_range L = true ->
     valid targetPct = true -> is_nan targetPct = false ->
     let delta := (clampPct targetPct - L)%f32 in
     exists c n,
       to_int (ceilf (fabsf delta / MAX_SLEW_STEP_PCT)%f32) = Some c /\
       n = Z.max 1 c /\ n <= 34 /\
       ramp_steps delta = Some n /\
       (quiet cfg sig w (S (Z.to_nat n)) = true ->
        let stepSize := (delta / of_int n)%f32 in
        exists w' evs,
          safeRampTo cfg sig L targetPct w
          = Ok (ramp_final (Z.to_nat n) stepSize L) w' /\
          trace w' = trace w ++ evs /\
          length (drive_calls evs) = Z.to_nat n /\
          last (drive_calls evs) L = ramp_final (Z.to_nat n) stepSize L /\
          within_tol (ramp_final (Z.to_nat n) stepSize L)
            (clampPct targetPct) = true))
  /\
  (forall (l t : nat) n,
     (l <= 100)%nat -> (t <= 100)%nat ->
     let L := of_int (Z.of_nat l) in
     let targetPct := of_int (Z.of_nat t) in
     ramp_steps (clampPct targetPct - L)%f32 = Some n ->
     quiet cfg sig w (S (Z.to_nat n)) = true ->
     exists x w',
       safeRampTo cfg sig L targetPct w = Ok x w' /\
       near x (clampPct targetPct) = true)
  /\
  match safeRampTo shipped idle (of_int 20) (of_int 75) w0 with
  | Ok x w' =>
      x = S754_finite false 9830401 (-17) /\
      length (drive_calls (trace w')) = 19%nat /\
      last (drive_calls (trace w')) f0 = S754_finite false 9830401 (-17)
  | _ => False
  end.
Proof.
  split; [exact in_range_in_ramp_range|]. split; [|split].
  - intros L targetPct HvL HrL HvT HnT delta.
    destruct (ramp_in_tolerance L targetPct HvL HrL HvT HnT)
      as (n & Hn & Hn34 & _ & Htol). fold delta in Hn, Htol.
    assert (Hc : exists c, to_int (ceilf (fabsf delta / MAX_SLEW_STEP_PCT)%f32)
                           = Some c /\ n = Z.max 1 c).
    { revert Hn. unfold ramp_steps. destruct (to_int _) as [c|]; [|discriminate].
      intros Hn. exists c. split; [reflexivity|].
      destruct (c <? 1) eqn:Hlt; inversion Hn; subst.
      - apply Z.ltb_lt in Hlt. lia.
      - apply Z.ltb_ge in Hlt. lia. }
    destruct Hc as (c & Hc & Hmax). exists c, n.
    split; [exact Hc|]. split; [exact Hmax|]. split; [lia|].
    split; [exact Hn|].
    intros Hq s.
    pose proof (safeRampTo_quiet cfg sig L targetPct w n Hn
                  (quiet_upto cfg sig w _ Hq)) as Hrun.
    cbv zeta in Hrun. fold delta s in Hrun.
    eexists _, _. split; [exact Hrun|]. split; [reflexivity|].
    rewrite !drive_calls_app, drive_calls_bracket_before,
      drive_calls_bracket_after, app_nil_r. cbn [app].
    split; [apply drive_calls_ramp_events|].
    split; [|exact Htol].
    destruct (Z.to_nat n) as [|m] eqn:Hm; [lia|].
    apply last_drive_ramp_events.
  - intros l t n Hl Ht L targetPct Hn Hq.
    pose proof (grid_ramp l t Hl Ht) as Hg. unfold grid_ramp_ok in Hg.
    fold L targetPct in Hg. rewrite Hn in Hg.
    apply andb_true_iff in Hg. destruct Hg as [_ Hnear].
    pose proof (ramp_steps_pos _ _ Hn) as Hpos.
    pose proof (safeRampTo_quiet cfg sig L targetPct w n Hn
                  (quiet_upto cfg sig w _ Hq)) as Hrun.
    cbv zeta in Hrun.
    destruct (Z.to_nat n) as [|m] eqn:Hm; [lia|].
    rewrite last_drive_ramp_events in Hnear.
    eexists _, _. split; [exact Hrun | exact Hnear].
  - vm_compute. repeat split.
Qed.

Lemma C1_uninterrupted_ramp_witness :
  exists w' evs,
    safeRampTo shipped idle (of_int 20) (of_int 75) w0
    = Ok (ramp_final 19 ((clampPct (of_int 75) - of_int 20) / of_int 19)%f32
            (of_int 20)) w' /\
    trace w' = trace w0 ++ evs /\
    length (drive_calls evs) = 19%nat /\
    within_tol
      (ramp_final 19 ((clampPct (of_int 75) - of_int 20) / of_int 19)%f32
         (of_int 20))
      (clampPct (of_int 75)) = true.
Proof.
  assert (H1 : valid (of_int 20) = true) by (vm_compute; reflexivity).
  assert (H2 : in_ramp_range (of_int 20) = true) by (vm_compute; reflexivity).
  assert (H4 : valid (of_int 75) = true) by (vm_compute; reflexivity).
  assert (H5 : is_nan (of_int 75) = false) by (vm_compute; reflexivity).
  pose proof (C1_uninterrupted_ramp shipped idle w0) as (_ & H & _).
  specialize (H (of_int 20) (of_int 75) H1 H2 H4 H5).
  cbv zeta in H. destruct H as (c & n & Hc & Hn & _ & _ & Hrun).
  vm_compute in Hc. injection Hc as Hc. subst c.
  change (Z.max 1 19) with 19 in Hn. subst n.
  destruct (Hrun ltac:(vm_compute; reflexivity))
    as (w' & evs & R1 & R2 & R3 & _ & R5).
  exists w', evs. repeat split; assumption.
Defined.

(** C1 fails as stated.  In its own example (20 to 75 percent, nothing
    interrupting) the last [drive()] call and LastCommandedDuty are
    75.00000762939453125, not 75.0; and a ramp to the current duty makes
    one [drive()] call where [ceil(|T - L| / 3)] is 0. *)
Lemma C1_counterexample :
  quiet shipped idle w0 20 = true /\
  match safeRampTo shipped idle (of_int 20) (of_int 75) w0 with
  | Ok x w' =>
      length (drive_calls (trace w')) = 19%nat /\
      eqb x (clampPct (of_int 75)) = false /\
      eqb (last (drive_calls (trace w')) f0) (of_int 75) = false
  | _ => False
  end /\
  match safeRampTo shipped idle (of_int 50) (of_int 50) w0 with
  | Ok x w' =>
      length (drive_calls (trace w')) = 1%nat /\
      to_int (ceilf (fabsf (clampPct (of_int 50) - of_int 50)
                     / MAX_SLEW_STEP_PCT)%f32) = Some 0
  | _ => False
  end.
Proof. vm_compute. repeat split. Qed.

(** C5 (as the code has it). For every well-formed target that is not a
    NaN, of any magnitude or sign, the clamped target lies in [0,100].
    The duties within [2^-12] of [0,100], that is those of
    [-2^-12, 100 + 2^-12], are an invariant of [safeRampTo]: every
    well-formed duty of [0,100] is one of them, and when
    LastCommandedDuty is one of them at entry, [safeRampTo] returns
    whatever the inputs do, every duty it passed to [drive()] is one of
    them, and so is LastCommandedDuty on return.  The duty a backend
    applies ([mcpwm_drive] and [ledc_drive] clamp what they are given)
    lies in [0,100].  Between whole-number duties of [0,100] the duties
    passed to [drive()] and LastCommandedDuty on return are within
    [2^-14] of [0,100]. *)
Theorem C5_clamped_duty cfg sig w :
  (forall L : f32,
     valid L = true -> (f0 <=? L)%f32 = true -> (L <=? f100)%f32 = true ->
     in_ramp_range L = true)
  /\
  (forall L targetPct : f32,
     valid L = true -> in_ramp_range L = true ->
     valid targetPct = true -> is_nan targetPct = false ->
     (f0 <=? clampPct targetPct)%f32 = true /\
     (clampPct targetPct <=? f100)%f32 = true /\
     exists x w' evs,
       safeRampTo cfg sig L targetPct w = Ok x w' /\
       trace w' = trace w ++ evs /\
       Forall (fun d =>
                 in_ramp_range d = true /\
                 is_nan d = false /\
                 (f0 <=? mcpwm_drive d)%f32 = true /\
                 (mcpwm_drive d <=? f100)%f32 = true /\
                 (f0 <=? ledc_drive_pct d)%f32 = true /\
                 (ledc_drive_pct d <=? f100)%f32 = true)
              (drive_calls evs) /\
       valid x = true /\ in_ramp_range x = true /\
       is_nan x = false /\
       (f0 <=? clampPct x)%f32 = true /\ (clampPct x <=? f100)%f32 = true)
  /\
  (forall l t : nat,
     (l <= 100)%nat -> (t <= 100)%nat ->
     exists x w' evs,
       safeRampTo cfg sig (of_int (Z.of_nat l)) (of_int (Z.of_nat t)) w
       = Ok x w' /\
       trace w' = trace w ++ evs /\
       Forall (fun d => near_range d = true) (drive_calls evs) /\
       near_range x = true).
Proof.
  split; [exact in_range_in_ramp_range|]. split.
  - intros L targetPct HvL HrL HvT HnT.
    destruct (clampPct_in_range targetPct HnT) as [HT0 HT1].
    split; [exact HT0|]. split; [exact HT1|].
    destruct (ramp_in_tolerance L targetPct HvL HrL HvT HnT)
      as (n & Hn & _ & Hrange & _).
    destruct (safeRampTo_any cfg sig L targetPct w n Hn)
      as (x & w' & evs & Hrun & Htr & (k & Hkn & Hk) & Hx).
    assert (Hnum : forall d, in_ramp_range d = true -> is_nan d = false).
    { intros d Hd. destruct d; try reflexivity. discriminate. }
    exists x, w', evs. split; [exact Hrun|]. split; [exact Htr|]. split.
    + rewrite Hk. apply drive_calls_ramp_events_upto.
      intros j Hj. destruct (Hrange j ltac:(lia)) as [_ Hr].
      pose proof (Hnum _ Hr) as Hnan.
      split; [exact Hr|]. split; [exact Hnan|].
      destruct (clampPct_in_range _ Hnan), (ledc_drive_pct_in_range _ Hnan).
      unfold mcpwm_drive. repeat split; assumption.
    + assert (Hxr : valid x = true /\ in_ramp_range x = true).
      { destruct Hx as [-> | (j & Hj & ->)];
          [split; reflexivity | now apply Hrange]. }
      destruct Hxr as [Hxv Hxr].
      split; [exact Hxv|]. split; [exact Hxr|]. split; [now apply Hnum|].
      apply clampPct_in_range. now apply Hnum.
  - intros l t Hl Ht.
    pose proof (grid_ramp l t Hl Ht) as Hg. unfold grid_ramp_ok in Hg.
    set (L := of_int (Z.of_nat l)) in *.
    set (T := of_int (Z.of_nat t)) in *.
    destruct (ramp_steps (clampPct T - L)%f32) as [n|] eqn:Hn; [|discriminate].
    apply andb_true_iff in Hg. destruct Hg as [Hg _].
    apply andb_true_iff in Hg. destruct Hg as [HL Hvals].
    rewrite forallb_forall in Hvals.
    destruct (safeRampTo_any cfg sig L T w n Hn)
      as (x & w' & evs & Hrun & Htr & (k & Hkn & Hk) & Hx).
    exists x, w', evs. split; [exact Hrun|]. split; [exact Htr|]. split.
    + apply Forall_forall. intros d Hd. apply Hvals.
      destruct (drive_calls_ramp_prefix
                  ((clampPct T - L) / of_int n)%f32 k (Z.to_nat n) L Hkn)
        as [rest Hrest].
      rewrite Hrest, <- Hk. apply in_or_app. now left.
    + destruct Hx as [-> | (j & Hjn & ->)]; [reflexivity|].
      destruct j as [|j]; [exact HL|].
      apply Hvals, ramp_final_driven. lia.
Qed.

Lemma C5_clamped_duty_witness :
  exists x w' evs,
    safeRampTo shipped idle f0 (of_int 1000) w0 = Ok x w' /\
    trace w' = trace w0 ++ evs /\
    Forall (fun d => in_ramp_range d = true) (drive_calls evs) /\
    valid x = true /\ in_ramp_range x = true.
Proof.
  assert (H1 : valid f0 = true) by (vm_compute; reflexivity).
  assert (H2 : in_ramp_range f0 = true) by (vm_compute; reflexivity).
  assert (H4 : valid (of_int 1000) = true) by (vm_compute; reflexivity).
  assert (H5 : is_nan (of_int 1000) = false) by (vm_compute; reflexivity).
  pose proof (C5_clamped_duty shipped idle w0) as (_ & H & _).
  destruct (H f0 (of_int 1000) H1 H2 H4 H5)
    as (_ & _ & x & w' & evs & Hrun & Htr & Hall & Hv & Hr & _).
  exists x, w', evs. split; [exact Hrun|]. split; [exact Htr|].
  split; [|split; [exact Hv | exact Hr]].
  eapply Forall_impl; [|exact Hall]. intros d Hd. apply Hd.
Defined.

(** C5 fails as stated.  From LastCommandedDuty 0 (in [0,100]), a ramp
    to 100 with nothing interrupting passes 100.0000228881835938 to
    [drive()] in its last step and returns with that as
    LastCommandedDuty: both above 100. *)
Lemma C5_counterexample :
  (f0 <=? f0)%f32 = true /\ (f0 <=? f100)%f32 = true /\
  quiet shipped idle w0 35 = true /\
  match safeRampTo shipped idle f0 f100 w0 with
  | Ok x w' =>
      x = S754_finite false 13107203 (-17) /\
      last (drive_calls (trace w')) f0 = x /\
      (f100 <? x)%f32 = true /\
      (x <=? f100)%f32 = false
  | _ => False
  end.
Proof. vm_compute. repeat split. Qed.
